(** * CPP-OOP-CALC: the [calc::BigInt<IntT>] arithmetic core

    A shallow embedding of [src/bigint.hpp], [src/bigint_bit_arith.cpp] and
    [src/bigint_divmod.cpp].  The class template is modelled once, with the
    limb width [LIMB = sizeof(IntT) << 3] as a parameter; the three explicit
    instantiations are [LIMB = 8], [16] (the default, [BigInt<>]) and [32].

    - a limb ([IntT]) is a [Z] in [[0, 2^LIMB)]; a cast [IntT(e)] is
      [e mod 2^LIMB];
    - [uint64_t] and [size_t] are [Z] with the wrap-around modulo [2^64]
      written out;
    - the limb buffer [val_] is a [list Z] whose length is the capacity
      [cap_]; a read or a write at an index outside [[0, cap_)] is the fault
      [OutOfBounds];
    - a [while] loop whose trip count is not bounded by the code runs on
      fuel, and running out of it is the fault [OutOfFuel];
    - a method that mutates [*this] (and possibly [*mod]) returns the new
      receiver (and the new [*mod]). *)

From Stdlib Require Import ZArith List Lia Bool.
Import ListNotations.
Local Open Scope Z_scope.

(** ** Outcomes of running a method *)

Inductive fault : Type :=
| OutOfBounds    (* limb access outside the buffer *)
| DivideByZero   (* native 64-bit division by zero *)
| OutOfFuel.     (* a loop did not finish *)

Inductive outcome (A : Type) : Type :=
| Ok (a : A)
| Err (f : fault).
Arguments Ok {A} a.
Arguments Err {A} f.

Definition bind {A B : Type} (c : outcome A) (k : A -> outcome B) : outcome B :=
  match c with
  | Ok a => k a
  | Err f => Err f
  end.

Notation "x <- c ;; k" := (bind c (fun x => k))
  (at level 61, c at next level, right associativity).
Notation "' p <- c ;; k" := (bind c (fun p => k))
  (at level 61, p pattern, c at next level, right associativity).

(** ** Machine integers *)

Definition u64 (x : Z) : Z := x mod 2 ^ 64.

(** [size_t(-1)], the value a wrapped index takes. *)
Definition SIZE_MAX : Z := 2 ^ 64 - 1.

(** [MAX_CAP = size_t(1) << 63]. *)
Definition MAX_CAP : Z := 2 ^ 63.

(** ** The limb buffer *)

Definition rd (v : list Z) (i : Z) : outcome Z :=
  if (0 <=? i) && (i <? Z.of_nat (length v))
  then Ok (nth (Z.to_nat i) v 0)
  else Err OutOfBounds.

Fixpoint upd_nat (v : list Z) (n : nat) (x : Z) : list Z :=
  match v, n with
  | [], _ => []
  | _ :: t, O => x :: t
  | h :: t, S n' => h :: upd_nat t n' x
  end.

Definition wr (v : list Z) (i : Z) (x : Z) : outcome (list Z) :=
  if (0 <=? i) && (i <? Z.of_nat (length v))
  then Ok (upd_nat v (Z.to_nat i) x)
  else Err OutOfBounds.

(** Total read used where the index is in range by construction; outside the
    buffer it yields 0. *)
Definition limb_at (v : list Z) (i : Z) : Z :=
  if 0 <=? i then nth (Z.to_nat i) v 0 else 0.

Definition upd (v : list Z) (i : Z) (x : Z) : list Z :=
  if 0 <=? i then upd_nat v (Z.to_nat i) x else v.

(** [std::fill(val_ + lo, val_ + hi, x)]. *)
Fixpoint fill_nat (v : list Z) (lo n : nat) (x : Z) : list Z :=
  match n with
  | O => v
  | S n' => fill_nat (upd_nat v lo x) (S lo) n' x
  end.

Definition fill (v : list Z) (lo hi : Z) (x : Z) : list Z :=
  fill_nat v (Z.to_nat lo) (Z.to_nat (hi - lo)) x.

(** ** The class *)

(** [cap_] is the length of [val_]; [is_signed_] is [true] in every
    constructor and is never written by the code modelled here. *)
Record BigInt : Type := mkBigInt { len_ : Z; val_ : list Z }.

Definition cap_ (a : BigInt) : Z := Z.of_nat (length (val_ a)).

Section Limb.

(** [LIMB = sizeof(IntT) << 3]. *)
Variable LIMB : Z.

(** The cast [IntT(e)] / [static_cast<IntT>(e)]. *)
Definition limb (x : Z) : Z := x mod 2 ^ LIMB.

(** Modelled from the spec: the constructor [BigInt(int value)] is not in the
    sources; "an integer is born with cap=1, len=1, val[0]=0", and a machine
    integer is stored sign-extended.  Only values that fit one limb are
    built by the code modelled here. *)
Definition BigInt_of_int (value : Z) : BigInt :=
  mkBigInt 1 [limb value].

(** Modelled from the spec: [Sign()] is not in the sources; "the top bit of
    val[len-1] is the sign". *)
Definition Sign (a : BigInt) : bool :=
  Z.testbit (limb_at (val_ a) (len_ a - 1)) (LIMB - 1).

(** Smallest capacity [cap * 2^k] that holds [target]. *)
Fixpoint grow_cap (fuel : nat) (cap target : Z) : Z :=
  match fuel with
  | O => cap
  | S f => if cap <? target then grow_cap f (2 * cap) target else cap
  end.

(** Modelled from the spec: [AutoExpandSize] is not in the sources;
    "capacity only grows, doubling to the next power of two that
    accommodates target_len", and limbs at [[len, cap)] are held at zero. *)
Definition AutoExpandSize (a : BigInt) (target_len : Z) : BigInt :=
  let cap := grow_cap 64 (Z.max 1 (cap_ a)) target_len in
  mkBigInt (len_ a) (val_ a ++ repeat 0 (Z.to_nat (cap - cap_ a))).

(** Modelled from the spec: [AutoShrinkSize] is not in the sources; "a
    shrink step halves cap when len <= cap/4 and cap > 1". *)
Definition AutoShrinkSize (a : BigInt) : BigInt :=
  if (len_ a <=? cap_ a / 4) && (1 <? cap_ a)
  then mkBigInt (len_ a) (firstn (Z.to_nat (cap_ a / 2)) (val_ a))
  else a.

(** Modelled from the spec: [SetLen] is not in the sources; it "either
    truncates (zeroing discarded limbs) or extends (sign-extending from the
    old top limb when preserve_sign, else zero-extending)". *)
Definition SetLen (a : BigInt) (new_len : Z) (preserve_sign : bool) : BigInt :=
  if new_len <? len_ a
  then mkBigInt new_len (fill (val_ a) new_len (len_ a) 0)
  else
    let ext := if preserve_sign && Sign a then 2 ^ LIMB - 1 else 0 in
    let a' := if cap_ a <? new_len then AutoExpandSize a new_len else a in
    mkBigInt new_len (fill (val_ a') (len_ a) new_len ext).

(** The top limb is redundant: with the top bit of the limb below it, it
    encodes the sign that the limb below encodes alone. *)
Definition redundant_top (a : BigInt) : bool :=
  let top := limb_at (val_ a) (len_ a - 1) in
  let below := Z.testbit (limb_at (val_ a) (len_ a - 2)) (LIMB - 1) in
  ((top =? 0) && negb below) || ((top =? 2 ^ LIMB - 1) && below).

Fixpoint ShrinkLen_loop (n : nat) (a : BigInt) : BigInt :=
  match n with
  | O => a
  | S n' =>
      if (2 <=? len_ a) && redundant_top a
      then ShrinkLen_loop n'
             (mkBigInt (len_ a - 1) (upd (val_ a) (len_ a - 1) 0))
      else a
  end.

(** Modelled from the spec: [ShrinkLen] is not in the sources; it
    "repeatedly drop[s] val[len-1] while len >= 2" and the top limb is
    redundant; dropped limbs return to zero.  The loop runs at most
    [len_ - 1] times. *)
Definition ShrinkLen (a : BigInt) : BigInt :=
  ShrinkLen_loop (Z.to_nat (len_ a)) a.

(** [~x + 1] over [n] limbs starting at the head of the list. *)
Fixpoint neg_limbs (n : nat) (v : list Z) (carry : Z) : list Z :=
  match n, v with
  | S n', h :: t =>
      let s := (2 ^ LIMB - 1 - h) + carry in
      limb s :: neg_limbs n' t (s / 2 ^ LIMB)
  | _, _ => v
  end.

(** Modelled from the spec: [ToOpposite] is not in the sources; negation is
    "two's-complement: ~x + 1 over the active limbs, with a length bump if
    the sign bit would otherwise be wrong" (the most negative value of the
    current length gets one more, zero, limb). *)
Definition ToOpposite (a : BigInt) : BigInt :=
  let s := Sign a in
  let a' := mkBigInt (len_ a) (neg_limbs (Z.to_nat (len_ a)) (val_ a) 1) in
  if s && Sign a' then SetLen a' (len_ a + 1) false else a'.

(** [operator-() const]: the negation of a copy. *)
Definition BigInt_neg (a : BigInt) : BigInt := ToOpposite a.

(** ** Values, for stating properties *)

Fixpoint uval_limbs (n : nat) (v : list Z) : Z :=
  match n, v with
  | S n', h :: t => h + 2 ^ LIMB * uval_limbs n' t
  | _, _ => 0
  end.

(** The active limbs read as an unsigned number. *)
Definition uval (a : BigInt) : Z := uval_limbs (Z.to_nat (len_ a)) (val_ a).

(** The active limbs read in two's complement: the number [a] stands for. *)
Definition toZ (a : BigInt) : Z :=
  if Sign a then uval a - 2 ^ (LIMB * len_ a) else uval a.

(** Modelled from the spec: [operator==] is not in the sources; "equality is
    numeric (same value, regardless of capacity)". *)
Definition BigInt_eqb (a b : BigInt) : bool := toZ a =? toZ b.

(** ** [bigint_bit_arith.cpp] *)

(** The body of the [r != 0] loop of [operator<<=]:
    [for (i = new_len - 1; i > q; --i)
       val_[i] = IntT((val_[i - q] << r) + (val_[i - q - 1] >> (LIMB - r)))],
    run for the [n] indices [q + n, ..., q + 1]. *)
Fixpoint shl_loop_r (n : nat) (q r : Z) (v : list Z) : list Z :=
  match n with
  | O => v
  | S n' =>
      let i := q + Z.of_nat n in
      shl_loop_r n' q r
        (upd v i (limb (Z.shiftl (limb_at v (i - q)) r
                        + Z.shiftr (limb_at v (i - q - 1)) (LIMB - r))))
  end.

(** The [r == 0] loop: [for (i = new_len - 1; i > q; --i) val_[i] = val_[i - q]]. *)
Fixpoint shl_loop_0 (n : nat) (q : Z) (v : list Z) : list Z :=
  match n with
  | O => v
  | S n' =>
      let i := q + Z.of_nat n in
      shl_loop_0 n' q (upd v i (limb_at v (i - q)))
  end.

(** [BigInt& operator<<=(size_t rhs)]. *)
Definition shl_eq (a : BigInt) (rhs : Z) : BigInt :=
  let q := rhs / LIMB in
  let r := rhs mod LIMB in
  let new_len := u64 (len_ a + q + (if 0 <? r then 1 else 0)) in
  let new_len := if new_len <? len_ a then MAX_CAP else new_len in
  let a := if cap_ a <? new_len then AutoExpandSize a new_len else a in
  if new_len <=? q then
    AutoShrinkSize (mkBigInt 1 (fill (val_ a) 0 (len_ a) 0))
  else
    let n := Z.to_nat (new_len - 1 - q) in
    let v :=
      if negb (r =? 0)
      then upd (shl_loop_r n q r (val_ a)) q
               (limb (Z.shiftl (limb_at (val_ a) 0) r))
      else shl_loop_0 n q (val_ a) in
    let v := if negb (q =? 0) then fill v 0 q 0 else v in
    if (1 <? new_len) && (limb_at v (new_len - 1) =? 0)
    then mkBigInt (new_len - 1) v
    else mkBigInt new_len v.

(** The [r != 0] loop of [operator>>=]:
    [for (i = 0; i < new_len - 1; ++i)
       val_[i] = IntT((val_[i + q] >> r) + (val_[i + q + 1] << (LIMB - r)))],
    [n] iterations starting at index [i]. *)
Fixpoint shr_loop_r (n : nat) (i q r : Z) (v : list Z) : list Z :=
  match n with
  | O => v
  | S n' =>
      shr_loop_r n' (i + 1) q r
        (upd v i (limb (Z.shiftr (limb_at v (i + q)) r
                        + Z.shiftl (limb_at v (i + q + 1)) (LIMB - r))))
  end.

(** The [r == 0] loop: [for (i = 0; i < new_len; ++i) val_[i] = val_[i + q]]. *)
Fixpoint shr_loop_0 (n : nat) (i q : Z) (v : list Z) : list Z :=
  match n with
  | O => v
  | S n' => shr_loop_0 n' (i + 1) q (upd v i (limb_at v (i + q)))
  end.

(** [BigInt& operator>>=(size_t rhs)]. *)
Definition shr_eq (a : BigInt) (rhs : Z) : BigInt :=
  let q := rhs / LIMB in
  let r := rhs mod LIMB in
  let new_len := u64 (len_ a - q) in
  AutoShrinkSize
    (if (len_ a <? new_len) || (new_len =? 0) then
       mkBigInt 1 (fill (val_ a) 0 (len_ a) 0)
     else
       let v :=
         if negb (r =? 0)
         then
           let v1 := shr_loop_r (Z.to_nat (new_len - 1)) 0 q r (val_ a) in
           upd v1 (new_len - 1)
               (limb (Z.shiftr (limb_at v1 (len_ a - 1)) r))
         else shr_loop_0 (Z.to_nat new_len) 0 q (val_ a) in
       let v := if negb (q =? 0) then fill v new_len (len_ a) 0 else v in
       if (1 <? new_len) && (limb_at v (new_len - 1) =? 0)
       then mkBigInt (new_len - 1) v
       else mkBigInt new_len v).

(** Modelled from the spec: the non-member [operator<<(BigInt lhs, size_t)]
    and [operator>>] are declared in [bigint.hpp] but defined outside the
    sources; like every non-modifying operator of the repository they apply
    the compound assignment to their by-value left operand. *)
Definition shl (lhs : BigInt) (rhs : Z) : BigInt := shl_eq lhs rhs.
Definition shr (lhs : BigInt) (rhs : Z) : BigInt := shr_eq lhs rhs.

(** ** Comparison and additive arithmetic (outside the sources) *)

(** Limbs compared top-down: indices [n - 1, ..., 0]. *)
Fixpoint cmp_limbs (n : nat) (u v : list Z) : comparison :=
  match n with
  | O => Eq
  | S n' =>
      match limb_at u (Z.of_nat n') ?= limb_at v (Z.of_nat n') with
      | Eq => cmp_limbs n' u v
      | c => c
      end
  end.

(** Modelled from the spec: [Compare] / [operator<=>] is not in the sources;
    "if signs differ, the negative is smaller; otherwise the one with
    greater canonical len is greater in magnitude; otherwise compare limbs
    top-down". *)
Definition Compare (a b : BigInt) : comparison :=
  match Sign a, Sign b with
  | true, false => Lt
  | false, true => Gt
  | s, _ =>
      if len_ a <? len_ b then (if s then Gt else Lt)
      else if len_ b <? len_ a then (if s then Lt else Gt)
      else cmp_limbs (Z.to_nat (len_ a)) (val_ a) (val_ b)
  end.

(** [operator<]. *)
Definition BigInt_ltb (a b : BigInt) : bool :=
  match Compare a b with Lt => true | _ => false end.

(** Limb [i] of [a] sign-extended beyond its length. *)
Definition sext_limb (a : BigInt) (i : Z) : Z :=
  if i <? len_ a then limb_at (val_ a) i
  else if Sign a then 2 ^ LIMB - 1 else 0.

Fixpoint add_loop (n : nat) (i : Z) (a b : BigInt) (carry : Z) (v : list Z)
  : list Z :=
  match n with
  | O => v
  | S n' =>
      let s := sext_limb a i + sext_limb b i + carry in
      add_loop n' (i + 1) a b (s / 2 ^ LIMB) (upd v i (limb s))
  end.

(** Modelled from the spec: [operator+=(const BigInt&)] is not in the
    sources; "pairwise limb add with carry, sign-extending the shorter
    operand.  Result length may be max(len_a, len_b)+1 before
    canonicalization". *)
Definition add_eq (a b : BigInt) : BigInt :=
  let L := Z.max (len_ a) (len_ b) + 1 in
  let a' := if cap_ a <? L then AutoExpandSize a L else a in
  ShrinkLen (mkBigInt L (add_loop (Z.to_nat L) 0 a b 0 (val_ a'))).

(** Modelled from the spec: [operator-=] is not in the sources;
    "subtraction is defined as a + (-b)". *)
Definition sub_eq (a b : BigInt) : BigInt := add_eq a (BigInt_neg b).

Fixpoint mul_loop (n : nat) (i : Z) (r carry : Z) (v : list Z) : list Z * Z :=
  match n with
  | O => (v, carry)
  | S n' =>
      let t := u64 (limb_at v i * r + carry) in
      mul_loop n' (i + 1) r (Z.shiftr t LIMB) (upd v i (limb t))
  end.

(** Modelled from the spec: [operator*(BigInt, IntT)] / [BasicMulEq] is not
    in the sources; "multiply each limb by r, propagating 64-bit carries;
    extend by one limb if needed".  The sign is set aside and restored as
    in the scalar division. *)
Definition mul_limb (a : BigInt) (r : Z) : BigInt :=
  let sign := Sign a in
  let a := if sign then ToOpposite a else a in
  let '(v, carry) := mul_loop (Z.to_nat (len_ a)) 0 r 0 (val_ a) in
  let a := SetLen (mkBigInt (len_ a) v) (len_ a + 2) false in
  let a := mkBigInt (len_ a) (upd (val_ a) (len_ a - 2) carry) in
  let a := ShrinkLen a in
  let a := if sign then ToOpposite a else a in
  ShrinkLen a.

(** ** [bigint_divmod.cpp] *)

(** [while (!(tmp_rhs & 1)) { ++log_rhs; tmp_rhs >>= 1; }] *)
Fixpoint ctz_loop (fuel : nat) (tmp_rhs log_rhs : Z) : outcome (Z * Z) :=
  if Z.testbit tmp_rhs 0 then Ok (tmp_rhs, log_rhs)
  else
    match fuel with
    | O => Err OutOfFuel
    | S f => ctz_loop f (Z.shiftr tmp_rhs 1) (limb (log_rhs + 1))
    end.

(** [for (i = len_ - 1; i != size_t(-1); --i) {
       t = ((t % rhs) << LIMB) | val_[i];  val_[i] = IntT(t / rhs); }],
    run for the indices [n - 1, ..., 0]. *)
Fixpoint basic_div_loop (n : nat) (rhs : Z) (t : Z) (v : list Z)
  : outcome (Z * list Z) :=
  match n with
  | O => Ok (t, v)
  | S n' =>
      l <- rd v (Z.of_nat n') ;;
      let t := Z.lor (u64 (Z.shiftl (t mod rhs) LIMB)) l in
      v <- wr v (Z.of_nat n') (limb (t / rhs)) ;;
      basic_div_loop n' rhs t v
  end.

(** [BigInt& BasicDivEq(IntT rhs, IntT* mod)].  [mod_] is [None] for
    [nullptr] and otherwise holds the limb [*mod] points at. *)
Definition BasicDivEq (a : BigInt) (rhs : Z) (mod_ : option Z)
  : outcome (BigInt * option Z) :=
  if (rhs =? 0) || (rhs =? 1) then Ok (a, mod_) else
  let sign := Sign a in
  let a := if sign then ToOpposite a else a in
  ' (tmp_rhs, log_rhs) <- ctz_loop (Z.to_nat LIMB) rhs 0 ;;
  ' (t, a) <-
     (if len_ a =? 1 then
        l <- rd (val_ a) 0 ;;
        v <- wr (val_ a) 0 (l / rhs) ;;
        Ok (l mod rhs, mkBigInt (len_ a) v)
      else if tmp_rhs =? 1 then
        Ok (0, shr_eq a log_rhs)
      else
        ' (t, v) <- basic_div_loop (Z.to_nat (len_ a)) rhs 0 (val_ a) ;;
        Ok (t, mkBigInt (len_ a) v)) ;;
  let a := if sign then ToOpposite a else a in
  let a := ShrinkLen a in
  match mod_ with
  | None => Ok (a, None)
  | Some _ =>
      if sign && negb (t =? 0)
      then Ok (a, Some (limb (u64 (rhs - t mod rhs))))
      else Ok (a, Some (limb (t mod rhs)))
  end.

(** [for (i = len - 1; i != size_t(-1); --i) x = (x << LIMB) | val[i]]. *)
Fixpoint pack (n : nat) (v : list Z) (x : Z) : outcome Z :=
  match n with
  | O => Ok x
  | S n' =>
      l <- rd v (Z.of_nat n') ;;
      pack n' v (Z.lor (u64 (Z.shiftl x LIMB)) l)
  end.

(** [while (z) { val[i++] = IntT(z); z >>= LIMB; }]; a 64-bit [z] is
    exhausted after at most 64 rounds. *)
Fixpoint unpack (fuel : nat) (z : Z) (i : Z) (v : list Z)
  : outcome (list Z * Z) :=
  if z =? 0 then Ok (v, i)
  else
    match fuel with
    | O => Err OutOfFuel
    | S f =>
        v <- wr v i (limb z) ;;
        unpack f (Z.shiftr z LIMB) (i + 1) v
    end.

(** [BigInt& PlainDivEq(const BigInt& rhs, BigInt* mod)]. *)
Definition PlainDivEq (a rhs : BigInt) (mod_ : option BigInt)
  : outcome (BigInt * option BigInt) :=
  if BigInt_eqb rhs (BigInt_of_int 0) then Ok (a, mod_) else
  let sign := Sign a in
  let a := if sign then ToOpposite a else a in
  x <- pack (Z.to_nat (len_ a)) (val_ a) 0 ;;
  y <- pack (Z.to_nat (len_ rhs)) (val_ rhs) 0 ;;
  let y := if Sign rhs then u64 (0 - y) else y in
  if y =? 0 then Err DivideByZero else
  let z := x / y in
  let w := u64 (x - u64 (z * y)) in
  ' (v, i) <- unpack 64 z 0 (val_ a) ;;
  let v := fill v i (len_ a) 0 in
  let a := mkBigInt (if i =? 0 then 1 else i) v in
  let a := if Sign a then SetLen a (len_ a + 1) false else a in
  let a := if negb (Bool.eqb sign (Sign rhs)) then ToOpposite a else a in
  match mod_ with
  | None => Ok (a, None)
  | Some m =>
      let m := SetLen m (64 / LIMB) false in
      ' (mv, i) <- unpack 64 w 0 (val_ m) ;;
      let mv := fill mv i (len_ m) 0 in
      let m := mkBigInt (if i =? 0 then 1 else i) mv in
      let m := if sign then ToOpposite m else m in
      Ok (a, Some m)
  end.

(** [while (test_tmp < (IntT(1) << (LIMB - 1))) { test_tmp <<= 1; ++mov; }] *)
Fixpoint norm_loop (fuel : nat) (test_tmp mov : Z) : outcome Z :=
  if test_tmp <? 2 ^ (LIMB - 1) then
    match fuel with
    | O => Err OutOfFuel
    | S f => norm_loop f (limb (Z.shiftl test_tmp 1)) (u64 (mov + 1))
    end
  else Ok mov.

(** The two top limbs [v1], [v2] of the divisor, read through the virtual
    left shift by [mov] bits (lines 161-169 and 226-234). *)
Definition AlgA_v (d : BigInt) (mov : Z) : outcome (Z * Z) :=
  let n := len_ d in
  if negb (mov =? 0) then
    d1 <- rd (val_ d) (u64 (n - 1)) ;;
    d2 <- rd (val_ d) (u64 (n - 2)) ;;
    d3 <- rd (val_ d) (u64 (n - 3)) ;;
    Ok (Z.lor (limb (Z.shiftl d1 mov)) (Z.shiftr d2 (LIMB - mov)),
        Z.lor (limb (Z.shiftl d2 mov)) (Z.shiftr d3 (LIMB - mov)))
  else
    d1 <- rd (val_ d) (u64 (n - 1)) ;;
    d2 <- rd (val_ d) (u64 (n - 2)) ;;
    Ok (d1, d2).

(** The window [(u1, u2)] of the running remainder at position [i]
    (lines 172-179 and 237-243). *)
Definition AlgA_u (a : BigInt) (n i mov u1 : Z) : outcome (Z * Z) :=
  if negb (mov =? 0) then
    a2 <- rd (val_ a) (u64 (i + n - 2)) ;;
    a3 <- rd (val_ a) (u64 (i + n - 3)) ;;
    Ok (Z.lor (u64 (Z.shiftl u1 mov)) (Z.shiftr a2 (LIMB - mov)),
        Z.lor (limb (Z.shiftl a2 mov)) (Z.shiftr a3 (LIMB - mov)))
  else
    a2 <- rd (val_ a) (u64 (i + n - 2)) ;;
    Ok (u1, a2).

(** The trial quotient (lines 180-186 and 244-250):
    [q = u1 / v1; if (q >= b) q = b - 1; r = u1 - q * v1;
     if (q * v2 > b * r + u2) { --q; r += v1; }], all in [uint64_t]. *)
Definition trial_quotient (u1 u2 v1 v2 : Z) : outcome Z :=
  let b := 2 ^ LIMB in
  if v1 =? 0 then Err DivideByZero else
  let q := u1 / v1 in
  let q := if b <=? q then b - 1 else q in
  let r := u64 (u1 - u64 (q * v1)) in
  if u64 (b * r + u2) <? u64 (q * v2)
  then Ok (u64 (q - 1))
  else Ok q.

(** The subtraction and the add-back shared by both algorithms:
    [*this -= (d * IntT(q)) << (i * LIMB);
     if (Sign()) { --q; *this += d << (i * LIMB); }
     result.val_[i] = q;] *)
Definition sub_addback (a d result : BigInt) (i q : Z)
  : outcome (BigInt * BigInt) :=
  let a := sub_eq a (shl (mul_limb d (limb q)) (u64 (i * LIMB))) in
  let '(a, q) :=
    if Sign a then (add_eq a (shl d (u64 (i * LIMB))), u64 (q - 1))
    else (a, q) in
  rv <- wr (val_ result) i (limb q) ;;
  Ok (a, mkBigInt (len_ result) rv).

(** One round of the main loop of Algorithm A at position [i]; the state is
    the running remainder [*this], [result] and [u1]. *)
Definition AlgA_step (d : BigInt) (mov v1 v2 : Z) (i : Z)
  (st : BigInt * BigInt * Z) : outcome (BigInt * BigInt * Z) :=
  let '(a, result, u1) := st in
  let n := len_ d in
  ' (u1, u2) <- AlgA_u a n i mov u1 ;;
  q <- trial_quotient u1 u2 v1 v2 ;;
  ' (a, result) <- sub_addback a d result i q ;;
  h <- rd (val_ a) (u64 (i + n - 1)) ;;
  l <- rd (val_ a) (u64 (i + n - 2)) ;;
  Ok (a, result, Z.lor (u64 (Z.shiftl h LIMB)) l).

(** [for (size_t i = len_ - d.len_; i != size_t(-1); --i)], run for the
    positions [k - 1, ..., 0]. *)
Fixpoint AlgA_loop (k : nat) (d : BigInt) (mov v1 v2 : Z)
  (st : BigInt * BigInt * Z) : outcome (BigInt * BigInt * Z) :=
  match k with
  | O => Ok st
  | S k' =>
      st <- AlgA_step d mov v1 v2 (Z.of_nat k') st ;;
      AlgA_loop k' d mov v1 v2 st
  end.

(** The branches of [DivEqAlgA] / [DivEqAlgB] that hand the work to a
    simpler routine; [d] is the non-negative divisor ([-rhs] or [rhs]).
    Returns [None] when the long division is to run. *)
Definition small_cases (a d : BigInt) (mod_ : option BigInt)
  : option (outcome (BigInt * option BigInt)) :=
  if BigInt_ltb a d then
    Some (Ok (mkBigInt 1 (fill (val_ a) 0 (len_ a) 0),
              match mod_ with Some _ => Some a | None => None end))
  else if (len_ d <=? 64 / LIMB) && (len_ a <=? 64 / LIMB) then
    Some (PlainDivEq a d mod_)
  else if len_ d =? 1 then
    Some (d0 <- rd (val_ d) 0 ;;
          match mod_ with
          | Some m =>
              m0 <- rd (val_ m) 0 ;;
              ' (a, r) <- BasicDivEq a d0 (Some m0) ;;
              mv <- wr (val_ m) 0 (match r with Some x => x | None => m0 end) ;;
              Ok (a, Some (SetLen (mkBigInt (len_ m) mv) 1 false))
          | None =>
              ' (a, _) <- BasicDivEq a d0 None ;;
              Ok (a, None)
          end)
  else None.

(** The common tail: [if (mod && sign) mod->ToOpposite();
    if (mod) mod->ShrinkLen();  ShrinkLen();] *)
Definition finish (sign : bool) (r : BigInt * option BigInt)
  : BigInt * option BigInt :=
  let '(a, mod_) := r in
  let mod_ :=
    match mod_ with
    | Some m => Some (ShrinkLen (if sign then ToOpposite m else m))
    | None => None
    end in
  (ShrinkLen a, mod_).

(** [BigInt& DivEqAlgA(const BigInt& rhs, BigInt* mod)].  The two arms of
    [if (rhs.Sign())] are the same text, over [tmp_obj = -rhs] and over
    [rhs]; [d] stands for that divisor. *)
Definition DivEqAlgA (fuel : nat) (a rhs : BigInt) (mod_ : option BigInt)
  : outcome (BigInt * option BigInt) :=
  if BigInt_eqb rhs (BigInt_of_int 0) then Ok (a, mod_) else
  let sign := Sign a in
  let a := if sign then ToOpposite a else a in
  let d := if Sign rhs then BigInt_neg rhs else rhs in
  test_tmp <- rd (val_ d) (u64 (len_ d - 1)) ;;
  mov <- norm_loop fuel test_tmp 0 ;;
  r <-
    match small_cases a d mod_ with
    | Some r => r
    | None =>
        let result :=
          SetLen (BigInt_of_int 0) (u64 (len_ a - len_ d + 2)) false in
        ' (v1, v2) <- AlgA_v d mov ;;
        u1 <- rd (val_ a) (u64 (len_ a - 1)) ;;
        ' (a, result, _) <-
           AlgA_loop (Z.to_nat (u64 (len_ a - len_ d + 1))) d mov v1 v2
             (a, result, u1) ;;
        let mod_ := match mod_ with Some _ => Some a | None => None end in
        if negb (Bool.eqb sign (Sign rhs))
        then Ok (BigInt_neg result, mod_)
        else Ok (result, mod_)
    end ;;
  Ok (finish sign r).

(** One round of the main loop of Algorithm B at position [i]; the state is
    [*this], [result] and [u]. *)
Definition AlgB_step (d : BigInt) (v : Z) (i : Z)
  (st : BigInt * BigInt * Z) : outcome (BigInt * BigInt * Z) :=
  let '(a, result, u) := st in
  let n := len_ d in
  let b := 2 ^ LIMB in
  if v =? 0 then Err DivideByZero else
  let q := u / v in
  let q := if b <=? q then b - 1 else q in
  ' (a, result) <- sub_addback a d result i q ;;
  h <- rd (val_ a) (u64 (i + n - 1)) ;;
  m <- rd (val_ a) (u64 (i + n - 2)) ;;
  l <- rd (val_ a) (u64 (i + n - 3)) ;;
  Ok (a, result,
      Z.lor (Z.lor (u64 (Z.shiftl h (2 * LIMB))) (u64 (Z.shiftl m LIMB))) l).

Fixpoint AlgB_loop (k : nat) (d : BigInt) (v : Z)
  (st : BigInt * BigInt * Z) : outcome (BigInt * BigInt * Z) :=
  match k with
  | O => Ok st
  | S k' =>
      st <- AlgB_step d v (Z.of_nat k') st ;;
      AlgB_loop k' d v st
  end.

(** [BigInt& DivEqAlgB(const BigInt& rhs, BigInt* mod)]: the specialization
    for [uint32_t] and the generic body, whose [if constexpr (LIMB > 21)]
    also hands over to Algorithm A. *)
Definition DivEqAlgB (fuel : nat) (a rhs : BigInt) (mod_ : option BigInt)
  : outcome (BigInt * option BigInt) :=
  if LIMB =? 32 then DivEqAlgA fuel a rhs mod_ else
  if BigInt_eqb rhs (BigInt_of_int 0) then Ok (a, mod_) else
  if 21 <? LIMB then DivEqAlgA fuel a rhs mod_ else
  let sign := Sign a in
  let a := if sign then ToOpposite a else a in
  let d := if Sign rhs then BigInt_neg rhs else rhs in
  r <-
    match small_cases a d mod_ with
    | Some r => r
    | None =>
        let result :=
          SetLen (BigInt_of_int 0) (u64 (len_ a - len_ d + 2)) false in
        d1 <- rd (val_ d) (u64 (len_ d - 1)) ;;
        d2 <- rd (val_ d) (u64 (len_ d - 2)) ;;
        let v := Z.lor (u64 (Z.shiftl d1 LIMB)) d2 in
        a1 <- rd (val_ a) (u64 (len_ a - 1)) ;;
        a2 <- rd (val_ a) (u64 (len_ a - 2)) ;;
        let u := Z.lor (u64 (Z.shiftl a1 LIMB)) a2 in
        ' (a, result, _) <-
           AlgB_loop (Z.to_nat (u64 (len_ a - len_ d + 1))) d v
             (a, result, u) ;;
        let mod_ := match mod_ with Some _ => Some a | None => None end in
        if negb (Bool.eqb sign (Sign rhs))
        then Ok (BigInt_neg result, mod_)
        else Ok (result, mod_)
    end ;;
  Ok (finish sign r).

(** [BigInt& operator/=(const BigInt& rhs)]. *)
Definition div_eq (fuel : nat) (a rhs : BigInt) : outcome BigInt :=
  if (len_ a <=? 64 / LIMB) && (len_ rhs <=? 64 / LIMB) then
    ' (a, _) <- PlainDivEq a rhs None ;; Ok a
  else if len_ rhs =? 1 then
    r0 <- rd (val_ rhs) 0 ;;
    ' (a, _) <- BasicDivEq a r0 None ;; Ok a
  else if 21 <? LIMB then
    ' (a, _) <- DivEqAlgA fuel a rhs None ;; Ok a
  else
    ' (a, _) <- DivEqAlgB fuel a rhs None ;; Ok a.

(** [BigInt& operator%=(const BigInt& rhs)]: the remainder is collected in
    a fresh [BigInt mod] and moved into [*this]. *)
Definition mod_eq (fuel : nat) (a rhs : BigInt) : outcome BigInt :=
  let mod_ := BigInt_of_int 0 in
  ' (_, m) <-
     (if (len_ a <=? 64 / LIMB) && (len_ rhs <=? 64 / LIMB) then
        PlainDivEq a rhs (Some mod_)
      else if 21 <? LIMB then DivEqAlgA fuel a rhs (Some mod_)
      else DivEqAlgB fuel a rhs (Some mod_)) ;;
  match m with
  | Some m => Ok m
  | None => Ok mod_
  end.

(** The non-modifying static members work on a copy of [lhs]. *)
Definition BasicDiv (lhs : BigInt) (rhs : Z) (mod_ : option Z) :=
  BasicDivEq lhs rhs mod_.
Definition PlainDiv (lhs rhs : BigInt) (mod_ : option BigInt) :=
  PlainDivEq lhs rhs mod_.
Definition DivAlgA (fuel : nat) (lhs rhs : BigInt) (mod_ : option BigInt) :=
  DivEqAlgA fuel lhs rhs mod_.
Definition DivAlgB (fuel : nat) (lhs rhs : BigInt) (mod_ : option BigInt) :=
  DivEqAlgB fuel lhs rhs mod_.

(** ** The rest of [bigint_bit_arith.cpp] *)

(** [for (i = from; i < from + n; ++i) val_[i] = ~val_[i]]. *)
Fixpoint inv_loop (n : nat) (i : Z) (v : list Z) : list Z :=
  match n with
  | O => v
  | S n' => inv_loop n' (i + 1) (upd v i (limb (Z.lnot (limb_at v i))))
  end.

(** [BigInt& ToBitInv()]. *)
Definition ToBitInv (a : BigInt) : BigInt :=
  mkBigInt (len_ a) (inv_loop (Z.to_nat (len_ a)) 0 (val_ a)).

(** [BigInt operator~() const]: [ToBitInv] on a copy. *)
Definition BigInt_not (a : BigInt) : BigInt := ToBitInv a.

(** [for (i = 0; i < n; ++i) val_[i] op= rhs.val_[i]], for [op] one of
    [&], [|], [^]; [f] is the operation on limbs. *)
Fixpoint limbwise (f : Z -> Z -> Z) (n : nat) (i : Z) (v w : list Z) : list Z :=
  match n with
  | O => v
  | S n' => limbwise f n' (i + 1) (upd v i (f (limb_at v i) (limb_at w i))) w
  end.

(** [BigInt& operator&=(const BigInt& rhs)]. *)
Definition and_eq (a rhs : BigInt) : BigInt :=
  ShrinkLen
    (if len_ a <=? len_ rhs then
       let a := if len_ a <? len_ rhs then SetLen a (len_ rhs) false else a in
       mkBigInt (len_ a)
         (limbwise Z.land (Z.to_nat (len_ a)) 0 (val_ a) (val_ rhs))
     else
       let v := limbwise Z.land (Z.to_nat (len_ rhs)) 0 (val_ a) (val_ rhs) in
       if negb (Sign rhs)
       then mkBigInt (len_ rhs) (fill v (len_ rhs) (len_ a) 0)
       else mkBigInt (len_ a) v).

(** [BigInt& operator|=(const BigInt& rhs)]. *)
Definition or_eq (a rhs : BigInt) : BigInt :=
  ShrinkLen
    (if len_ a <=? len_ rhs then
       let a := if len_ a <? len_ rhs then SetLen a (len_ rhs) false else a in
       mkBigInt (len_ a)
         (limbwise Z.lor (Z.to_nat (len_ a)) 0 (val_ a) (val_ rhs))
     else
       let v := limbwise Z.lor (Z.to_nat (len_ rhs)) 0 (val_ a) (val_ rhs) in
       if Sign rhs then
         let v := upd v (len_ rhs) (limb (-1)) in
         let v :=
           if len_ rhs + 1 <? len_ a
           then fill v (len_ rhs + 1) (len_ a) 0 else v in
         mkBigInt (len_ rhs + 1) v
       else mkBigInt (len_ a) v).

(** [BigInt& operator^=(const BigInt& rhs)]. *)
Definition xor_eq (a rhs : BigInt) : BigInt :=
  ShrinkLen
    (if len_ a <=? len_ rhs then
       let a := if len_ a <? len_ rhs then SetLen a (len_ rhs) false else a in
       mkBigInt (len_ a)
         (limbwise Z.lxor (Z.to_nat (len_ a)) 0 (val_ a) (val_ rhs))
     else
       let v := limbwise Z.lxor (Z.to_nat (len_ rhs)) 0 (val_ a) (val_ rhs) in
       if Sign rhs
       then mkBigInt (len_ a)
              (inv_loop (Z.to_nat (len_ a - len_ rhs)) (len_ rhs) v)
       else mkBigInt (len_ a) v).

(** The non-modifying [operator&], [operator|], [operator^]:
    [return lhs op= rhs] on the by-value [lhs]. *)
Definition BigInt_and (lhs rhs : BigInt) : BigInt := and_eq lhs rhs.
Definition BigInt_or (lhs rhs : BigInt) : BigInt := or_eq lhs rhs.
Definition BigInt_xor (lhs rhs : BigInt) : BigInt := xor_eq lhs rhs.

(** ** The scalar operators of [bigint_divmod.cpp] *)

(** [BigInt& operator/=(IntT rhs)]: [BasicDivEq(rhs)] without a remainder
    slot. *)
Definition div_eq_limb (a : BigInt) (rhs : Z) : outcome BigInt :=
  ' (a, _) <- BasicDivEq a rhs None ;; Ok a.

(** [for (i = 0; i < len_; ++i) {
       tot = (tot + cur_mod * val_[i]) % rhs;
       cur_mod = cur_mod * limb_mod % rhs; }], [n] rounds from index [i]. *)
Fixpoint horner_loop (n : nat) (i : Z) (rhs limb_mod cur_mod tot : Z)
  (v : list Z) : outcome Z :=
  match n with
  | O => Ok tot
  | S n' =>
      l <- rd v i ;;
      horner_loop n' (i + 1) rhs limb_mod
        (u64 (cur_mod * limb_mod) mod rhs)
        (u64 (tot + u64 (cur_mod * l)) mod rhs) v
  end.

(** [BigInt& operator%=(IntT rhs)].  After [len_ = 2] the sign test and
    [ShrinkLen] read [val_[1]], whatever the capacity. *)
Definition mod_eq_limb (a : BigInt) (rhs : Z) : outcome BigInt :=
  if rhs =? 0 then Ok a else
  let limb_mod := 2 ^ LIMB mod rhs in
  let sign := Sign a in
  let a := if sign then ToOpposite a else a in
  tot <-
    (if limb_mod =? 0 then l <- rd (val_ a) 0 ;; Ok (l mod rhs)
     else horner_loop (Z.to_nat (len_ a)) 0 rhs limb_mod 1 0 (val_ a)) ;;
  let v := if 1 <? len_ a then fill (val_ a) 1 (len_ a) 0 else val_ a in
  v <- wr v 0 (limb tot) ;;
  _ <- rd v 1 ;;
  let a := mkBigInt 2 v in
  let a := if sign then ToOpposite a else a in
  Ok (ShrinkLen a).

(** The non-modifying [operator/(BigInt, IntT)], [operator/(BigInt,
    const BigInt&)], [operator%(BigInt, IntT)], [operator%(BigInt,
    const BigInt&)]: the compound assignment on the by-value [lhs]. *)
Definition BigInt_div_limb (lhs : BigInt) (rhs : Z) := div_eq_limb lhs rhs.
Definition BigInt_div (fuel : nat) (lhs rhs : BigInt) := div_eq fuel lhs rhs.
Definition BigInt_mod_limb (lhs : BigInt) (rhs : Z) := mod_eq_limb lhs rhs.
Definition BigInt_mod (fuel : nat) (lhs rhs : BigInt) := mod_eq fuel lhs rhs.

(** ** Vocabulary for the statements *)

(** Every limb of the buffer is a value of [IntT]. *)
Definition in_range (v : list Z) : Prop :=
  Forall (fun x => 0 <= x < 2 ^ LIMB) v.

(** Digit [j] of [X] in base [2^LIMB]. *)
Definition digit (X j : Z) : Z := (X / 2 ^ (LIMB * j)) mod 2 ^ LIMB.

(** A well-formed integer: at least one active limb, the active limbs
    inside the buffer, a capacity that [size_t] can hold, and every limb
    of the buffer in range. *)
Definition wf (a : BigInt) : Prop :=
  1 <= len_ a <= cap_ a /\ cap_ a < 2 ^ 64 /\ in_range (val_ a).

(** The limb that repeats the sign [s] beyond the length. *)
Definition ext_sign (s : bool) : Z := if s then 2 ^ LIMB - 1 else 0.

(** Limbs at [[len_, cap_)] are held at zero. *)
Definition tail_zero (a : BigInt) : Prop :=
  forall j, len_ a <= j -> limb_at (val_ a) j = 0.

(** [x] is a power of two. *)
Definition is_pow2 (x : Z) : Prop := exists e, 0 <= e /\ x = 2 ^ e.

(** The four division routines, run on the same dividend [a] and one-limb
    divisor [b] ([BasicDiv] takes the limb itself), return the same
    quotient and write the same remainder. *)
Definition four_way_agree (fuel : nat) (a b : BigInt) : Prop :=
  exists qP mP qS mS qA mA qB mB,
    PlainDiv a b (Some (BigInt_of_int 0)) = Ok (qP, Some mP) /\
    BasicDiv a (limb_at (val_ b) 0) (Some 0) = Ok (qS, Some mS) /\
    DivAlgA fuel a b (Some (BigInt_of_int 0)) = Ok (qA, Some mA) /\
    DivAlgB fuel a b (Some (BigInt_of_int 0)) = Ok (qB, Some mB) /\
    toZ qS = toZ qP /\ toZ qA = toZ qP /\ toZ qB = toZ qP /\
    mS = toZ mP /\ toZ mA = toZ mP /\ toZ mB = toZ mP.

End Limb.


(** * Properties *)

(** ** The limb buffer: reads after writes *)

Lemma length_upd_nat (v : list Z) (n : nat) (x : Z) :
  length (upd_nat v n x) = length v.
Proof.
  revert n; induction v as [|h t IH]; intros [|n]; simpl; auto.
Qed.

Lemma nth_upd_nat_same (v : list Z) (n : nat) (x : Z) :
  (n < length v)%nat -> nth n (upd_nat v n x) 0 = x.
Proof.
  revert n; induction v as [|h t IH]; intros [|n] H; simpl in *; try lia; auto.
  apply IH; lia.
Qed.

Lemma nth_upd_nat_other (v : list Z) (n m : nat) (x : Z) :
  n <> m -> nth m (upd_nat v n x) 0 = nth m v 0.
Proof.
  revert n m; induction v as [|h t IH]; intros [|n] [|m] H; simpl; auto; try lia.
Qed.

Lemma length_upd (v : list Z) (i x : Z) : length (upd v i x) = length v.
Proof. unfold upd. destruct (0 <=? i); auto using length_upd_nat. Qed.

Lemma limb_at_upd_same (v : list Z) (i x : Z) :
  0 <= i < Z.of_nat (length v) -> limb_at (upd v i x) i = x.
Proof.
  intros H. unfold limb_at, upd.
  destruct (Z.leb_spec 0 i); [|lia].
  apply nth_upd_nat_same; lia.
Qed.

Lemma limb_at_upd_other (v : list Z) (i j x : Z) :
  i <> j -> limb_at (upd v i x) j = limb_at v j.
Proof.
  intros H. unfold limb_at, upd.
  destruct (Z.leb_spec 0 j); auto.
  destruct (Z.leb_spec 0 i); auto.
  apply nth_upd_nat_other; lia.
Qed.

Lemma length_fill_nat (v : list Z) (lo n : nat) (x : Z) :
  length (fill_nat v lo n x) = length v.
Proof.
  revert v lo; induction n as [|n IH]; intros; simpl; auto.
  rewrite IH. apply length_upd_nat.
Qed.

Lemma nth_fill_nat (v : list Z) (lo n : nat) (x : Z) (j : nat) :
  nth j (fill_nat v lo n x) 0 =
  if (Nat.leb lo j && Nat.ltb j (lo + n) && Nat.ltb j (length v))%bool
  then x else nth j v 0.
Proof.
  revert v lo; induction n as [|n IH]; intros; simpl.
  - destruct (Nat.leb_spec lo j), (Nat.ltb_spec j (lo + 0)); simpl; auto; lia.
  - rewrite IH, length_upd_nat.
    destruct (Nat.eq_dec lo j) as [->|Hne].
    + destruct (Nat.leb_spec (S j) j); [lia|]. simpl.
      destruct (Nat.leb_spec j j); [|lia].
      destruct (Nat.ltb_spec j (j + S n)); [|lia]. simpl.
      destruct (Nat.ltb_spec j (length v)).
      * apply nth_upd_nat_same; auto.
      * rewrite !nth_overflow; auto; rewrite ?length_upd_nat; lia.
    + rewrite nth_upd_nat_other by auto.
      destruct (Nat.leb_spec (S lo) j), (Nat.leb_spec lo j),
        (Nat.ltb_spec j (S lo + n)), (Nat.ltb_spec j (lo + S n)); simpl; auto; lia.
Qed.

Lemma length_fill (v : list Z) (lo hi x : Z) : length (fill v lo hi x) = length v.
Proof. apply length_fill_nat. Qed.

Lemma limb_at_fill (v : list Z) (lo hi x j : Z) :
  0 <= lo ->
  limb_at (fill v lo hi x) j =
  if (lo <=? j) && (j <? hi) && (j <? Z.of_nat (length v))
  then x else limb_at v j.
Proof.
  intros Hlo. unfold limb_at, fill.
  destruct (Z.leb_spec 0 j).
  - rewrite nth_fill_nat.
    destruct (Nat.leb_spec (Z.to_nat lo) (Z.to_nat j)), (Z.leb_spec lo j); try lia;
    destruct (Nat.ltb_spec (Z.to_nat j) (Z.to_nat lo + Z.to_nat (hi - lo))),
      (Z.ltb_spec j hi); try lia;
    destruct (Nat.ltb_spec (Z.to_nat j) (length v)),
      (Z.ltb_spec j (Z.of_nat (length v))); try lia; auto.
  - destruct (Z.leb_spec lo j); [lia|]. reflexivity.
Qed.

Lemma limb_at_firstn (v : list Z) (n : nat) (j : Z) :
  j < Z.of_nat n -> limb_at (firstn n v) j = limb_at v j.
Proof.
  intros H. unfold limb_at. destruct (Z.leb_spec 0 j); auto.
  rewrite nth_firstn.
  destruct (Nat.ltb_spec (Z.to_nat j) n); auto; lia.
Qed.

Lemma limb_at_app (v w : list Z) (j : Z) :
  j < Z.of_nat (length v) -> limb_at (v ++ w) j = limb_at v j.
Proof.
  intros H. unfold limb_at. destruct (Z.leb_spec 0 j); auto.
  apply app_nth1. lia.
Qed.

Lemma limb_at_cons_0 (h : Z) (t : list Z) : limb_at (h :: t) 0 = h.
Proof. reflexivity. Qed.

Lemma limb_at_cons_S (h : Z) (t : list Z) (j : Z) :
  0 <= j -> limb_at (h :: t) (j + 1) = limb_at t j.
Proof.
  intros H. unfold limb_at.
  destruct (Z.leb_spec 0 (j + 1)); [|lia]. destruct (Z.leb_spec 0 j); [|lia].
  replace (Z.to_nat (j + 1)) with (S (Z.to_nat j)) by lia. reflexivity.
Qed.

Lemma limb_at_overflow (v : list Z) (j : Z) :
  Z.of_nat (length v) <= j -> limb_at v j = 0.
Proof.
  intros H. unfold limb_at. destruct (0 <=? j); auto.
  apply nth_overflow. lia.
Qed.

(** ** Limbs and values *)

Section Values.

Variable LIMB : Z.
Hypothesis LIMB_pos : 0 < LIMB.

Lemma pow_LIMB_pos : 0 < 2 ^ LIMB.
Proof. apply Z.pow_pos_nonneg; lia. Qed.

Lemma pow_LIMB_succ (j : Z) :
  0 <= j -> 2 ^ (LIMB * (j + 1)) = 2 ^ LIMB * 2 ^ (LIMB * j).
Proof.
  intros H. replace (LIMB * (j + 1)) with (LIMB + LIMB * j) by lia.
  apply Z.pow_add_r; nia.
Qed.

Lemma in_range_limb_at (v : list Z) (j : Z) :
  in_range LIMB v -> 0 <= limb_at v j < 2 ^ LIMB.
Proof.
  intros Hv. pose proof pow_LIMB_pos.
  unfold limb_at. destruct (0 <=? j); [|lia].
  destruct (Nat.lt_ge_cases (Z.to_nat j) (length v)).
  - unfold in_range in Hv. rewrite Forall_forall in Hv.
    apply Hv. apply nth_In; auto.
  - rewrite nth_overflow by auto. lia.
Qed.

Lemma in_range_upd_nat (v : list Z) (n : nat) (x : Z) :
  in_range LIMB v -> 0 <= x < 2 ^ LIMB -> in_range LIMB (upd_nat v n x).
Proof.
  intros Hv Hx. revert n. induction Hv as [|h t Hh Ht IH]; intros [|n]; simpl;
    constructor; auto. apply IH.
Qed.

Lemma in_range_upd (v : list Z) (i x : Z) :
  in_range LIMB v -> 0 <= x < 2 ^ LIMB -> in_range LIMB (upd v i x).
Proof.
  intros. unfold upd. destruct (0 <=? i); auto using in_range_upd_nat.
Qed.

Lemma in_range_fill (v : list Z) (lo hi x : Z) :
  in_range LIMB v -> 0 <= x < 2 ^ LIMB -> in_range LIMB (fill v lo hi x).
Proof.
  intros Hv Hx. unfold fill.
  generalize (Z.to_nat lo) as l, (Z.to_nat (hi - lo)) as n. intros l n.
  revert v l Hv. induction n as [|n IH]; intros; simpl; auto.
  apply IH. apply in_range_upd_nat; auto.
Qed.

Lemma limb_range (x : Z) : 0 <= limb LIMB x < 2 ^ LIMB.
Proof. unfold limb. apply Z.mod_pos_bound. apply pow_LIMB_pos. Qed.

Lemma uval_limbs_bounds (n : nat) (v : list Z) :
  in_range LIMB v -> (n <= length v)%nat ->
  0 <= uval_limbs LIMB n v < 2 ^ (LIMB * Z.of_nat n).
Proof.
  intros Hv. revert n. induction Hv as [|h t Hh Ht IH]; intros [|n] Hn;
    simpl length in Hn; try lia.
  - change (0 <= 0 < 2 ^ (LIMB * 0)). rewrite Z.mul_0_r. simpl. lia.
  - change (0 <= 0 < 2 ^ (LIMB * 0)). rewrite Z.mul_0_r. simpl. lia.
  - specialize (IH n ltac:(lia)).
    rewrite Nat2Z.inj_succ, <- Z.add_1_r, pow_LIMB_succ by lia.
    cbn [uval_limbs]. nia.
Qed.

Lemma limb_at_digit (n : nat) (v : list Z) (j : Z) :
  in_range LIMB v -> (n <= length v)%nat -> 0 <= j < Z.of_nat n ->
  limb_at v j = digit LIMB (uval_limbs LIMB n v) j.
Proof.
  intros Hv. revert n j. induction Hv as [|h t Hh Ht IH]; intros [|n] j Hn Hj;
    simpl length in Hn; try lia.
  simpl uval_limbs. unfold digit.
  pose proof pow_LIMB_pos as HB.
  destruct (Z.eq_dec j 0) as [->|Hj0].
  - rewrite Z.mul_0_r, Z.pow_0_r, Z.div_1_r, limb_at_cons_0.
    rewrite (Z.mul_comm (2 ^ LIMB)), Z.mod_add by lia.
    symmetry. apply Z.mod_small. lia.
  - replace j with ((j - 1) + 1) by lia.
    rewrite limb_at_cons_S by lia.
    rewrite (IH n (j - 1)) by lia. unfold digit.
    rewrite pow_LIMB_succ by lia.
    rewrite <- Z.div_div by (try apply Z.pow_pos_nonneg; nia).
    f_equal. f_equal.
    rewrite (Z.mul_comm (2 ^ LIMB)), Z.div_add by lia.
    rewrite Z.div_small by lia. reflexivity.
Qed.

Lemma uval_limbs_of_digits (n : nat) (v : list Z) (X : Z) :
  (n <= length v)%nat -> 0 <= X < 2 ^ (LIMB * Z.of_nat n) ->
  (forall j, 0 <= j < Z.of_nat n -> limb_at v j = digit LIMB X j) ->
  uval_limbs LIMB n v = X.
Proof.
  revert v X. induction n as [|n IH]; intros v X Hn HX Hd.
  - rewrite Z.mul_0_r in HX. simpl in *. lia.
  - destruct v as [|h t]; simpl length in Hn; [lia|].
    pose proof pow_LIMB_pos as HB.
    simpl uval_limbs.
    rewrite Nat2Z.inj_succ, <- Z.add_1_r, pow_LIMB_succ in HX by lia.
    rewrite (IH t (X / 2 ^ LIMB)).
    + pose proof (Hd 0 ltac:(lia)) as H0. rewrite limb_at_cons_0 in H0.
      unfold digit in H0. rewrite Z.mul_0_r, Z.pow_0_r, Z.div_1_r in H0.
      rewrite H0. symmetry. rewrite Z.add_comm. apply Z.div_mod. lia.
    + lia.
    + split; [apply Z.div_pos; lia|].
      apply Z.div_lt_upper_bound; lia.
    + intros j Hj. rewrite <- limb_at_cons_S with (h := h) by lia.
      rewrite Hd by lia. unfold digit.
      rewrite pow_LIMB_succ by lia.
      rewrite Z.div_div by (try apply Z.pow_pos_nonneg; nia). reflexivity.
Qed.

End Values.

(** ** Right shift of a negative integer *)

Section Shifts.

Variable LIMB : Z.
Hypothesis LIMB_pos : 0 < LIMB.

Lemma digit_range (X j : Z) : 0 <= digit LIMB X j < 2 ^ LIMB.
Proof. unfold digit. apply Z.mod_pos_bound. apply pow_LIMB_pos; auto. Qed.

Lemma shr_two_limbs (W r : Z) :
  0 < r < LIMB ->
  (W / 2 ^ r) mod 2 ^ LIMB =
  ((W mod 2 ^ LIMB) / 2 ^ r
   + ((W / 2 ^ LIMB) mod 2 ^ LIMB) * 2 ^ (LIMB - r)) mod 2 ^ LIMB.
Proof.
  intros Hr.
  pose proof (pow_LIMB_pos LIMB LIMB_pos) as HB.
  assert (H2r : 0 < 2 ^ r) by (apply Z.pow_pos_nonneg; lia).
  assert (HC : 0 < 2 ^ (LIMB - r)) by (apply Z.pow_pos_nonneg; lia).
  assert (HBC : 2 ^ LIMB = 2 ^ (LIMB - r) * 2 ^ r).
  { rewrite <- Z.pow_add_r by lia. f_equal. lia. }
  set (d0 := W mod 2 ^ LIMB). set (W1 := W / 2 ^ LIMB).
  set (d1 := W1 mod 2 ^ LIMB). set (W2 := W1 / 2 ^ LIMB).
  assert (HW : W = d0 + (d1 * 2 ^ (LIMB - r) + W2 * 2 ^ (LIMB - r) * 2 ^ LIMB) * 2 ^ r).
  { pose proof (Z.div_mod W (2 ^ LIMB) ltac:(lia)) as E0.
    pose proof (Z.div_mod W1 (2 ^ LIMB) ltac:(lia)) as E1.
    fold d0 W1 in E0. fold d1 W2 in E1.
    rewrite E0 at 1. rewrite E1 at 1. rewrite HBC at 1 2. rewrite HBC. ring. }
  rewrite HW at 1.
  rewrite Z.div_add by lia.
  rewrite Z.add_assoc.
  apply Z.mod_add. lia.
Qed.

Lemma digit_shifted (U q r j : Z) :
  0 <= q -> 0 < r < LIMB -> 0 <= j ->
  digit LIMB (U / 2 ^ (LIMB * q + r)) j =
  limb LIMB (Z.shiftr (digit LIMB U (j + q)) r
             + Z.shiftl (digit LIMB U (j + q + 1)) (LIMB - r)).
Proof.
  intros Hq Hr Hj.
  pose proof (pow_LIMB_pos LIMB LIMB_pos) as HB.
  assert (H2r : 0 < 2 ^ r) by (apply Z.pow_pos_nonneg; lia).
  assert (HP : 0 < 2 ^ (LIMB * (j + q))) by (apply Z.pow_pos_nonneg; nia).
  assert (HQ : 0 < 2 ^ (LIMB * q + r)) by (apply Z.pow_pos_nonneg; nia).
  assert (HJ : 0 < 2 ^ (LIMB * j)) by (apply Z.pow_pos_nonneg; nia).
  rewrite Z.shiftr_div_pow2, Z.shiftl_mul_pow2 by lia.
  unfold digit, limb.
  assert (E1 : U / 2 ^ (LIMB * q + r) / 2 ^ (LIMB * j)
               = U / 2 ^ (LIMB * (j + q)) / 2 ^ r).
  { rewrite !Z.div_div by lia. f_equal.
    rewrite <- !Z.pow_add_r by nia. f_equal. lia. }
  assert (E2 : U / 2 ^ (LIMB * (j + q + 1))
               = U / 2 ^ (LIMB * (j + q)) / 2 ^ LIMB).
  { rewrite Z.div_div by lia. f_equal.
    rewrite pow_LIMB_succ by lia. ring. }
  rewrite E1, E2. apply shr_two_limbs. exact Hr.
Qed.

Lemma limb_at_shr_loop_r (n : nat) (i q r : Z) (v : list Z) (j : Z) :
  0 <= i -> 0 <= q -> i + Z.of_nat n <= Z.of_nat (length v) ->
  limb_at (shr_loop_r LIMB n i q r v) j =
  if (i <=? j) && (j <? i + Z.of_nat n)
  then limb LIMB (Z.shiftr (limb_at v (j + q)) r
                  + Z.shiftl (limb_at v (j + q + 1)) (LIMB - r))
  else limb_at v j.
Proof.
  revert i v. induction n as [|n IH]; intros i v Hi Hq Hlen.
  - simpl. destruct (Z.leb_spec i j), (Z.ltb_spec j (i + 0)); simpl; auto; lia.
  - cbn [shr_loop_r]. rewrite IH by (rewrite ?length_upd; lia).
    destruct (Z.leb_spec (i + 1) j), (Z.ltb_spec j (i + 1 + Z.of_nat n)),
      (Z.leb_spec i j), (Z.ltb_spec j (i + Z.of_nat (S n))); simpl; try lia.
    all: try (rewrite !limb_at_upd_other by lia; reflexivity).
    assert (j = i) by lia. subst j.
    rewrite limb_at_upd_same by lia. reflexivity.
Qed.

Lemma length_shr_loop_r (n : nat) (i q r : Z) (v : list Z) :
  length (shr_loop_r LIMB n i q r v) = length v.
Proof.
  revert i v. induction n as [|n IH]; intros; simpl; auto.
  rewrite IH. apply length_upd.
Qed.

Lemma uval_limbs_ext (n : nat) (u v : list Z) :
  (n <= length u)%nat -> (n <= length v)%nat ->
  (forall j, 0 <= j < Z.of_nat n -> limb_at u j = limb_at v j) ->
  uval_limbs LIMB n u = uval_limbs LIMB n v.
Proof.
  revert u v. induction n as [|n IH]; intros u v Hu Hv H; [reflexivity|].
  destruct u as [|hu tu], v as [|hv tv]; simpl in Hu, Hv; try lia.
  simpl. f_equal.
  - apply (H 0). lia.
  - f_equal. apply IH; try lia.
    intros j Hj. rewrite <- (limb_at_cons_S hu tu), <- (limb_at_cons_S hv tv) by lia.
    apply H. lia.
Qed.

Lemma len_AutoShrinkSize (a : BigInt) : len_ (AutoShrinkSize a) = len_ a.
Proof.
  unfold AutoShrinkSize.
  destruct ((len_ a <=? cap_ a / 4) && (1 <? cap_ a)); reflexivity.
Qed.

Lemma limb_at_AutoShrinkSize (a : BigInt) (j : Z) :
  j < len_ a -> limb_at (val_ (AutoShrinkSize a)) j = limb_at (val_ a) j.
Proof.
  intros Hj. unfold AutoShrinkSize.
  destruct (Z.leb_spec (len_ a) (cap_ a / 4)); simpl; auto.
  destruct (Z.ltb_spec 1 (cap_ a)); simpl; auto.
  apply limb_at_firstn.
  assert (0 <= cap_ a / 2) by (apply Z.div_pos; lia).
  assert (cap_ a / 4 <= cap_ a / 2).
  { apply Z.div_le_compat_l; lia. }
  lia.
Qed.

Lemma cap_AutoShrinkSize (a : BigInt) :
  0 <= len_ a <= cap_ a -> len_ a <= cap_ (AutoShrinkSize a).
Proof.
  intros H. unfold AutoShrinkSize.
  destruct (Z.leb_spec (len_ a) (cap_ a / 4)); simpl; try lia.
  destruct (Z.ltb_spec 1 (cap_ a)); simpl; try lia.
  unfold cap_. simpl. rewrite length_firstn.
  assert (cap_ a / 4 <= cap_ a / 2) by (apply Z.div_le_compat_l; lia).
  assert (cap_ a / 2 <= cap_ a) by (apply Z.div_le_upper_bound; lia).
  unfold cap_ in *. lia.
Qed.

Lemma Sign_AutoShrinkSize (a : BigInt) :
  Sign LIMB (AutoShrinkSize a) = Sign LIMB a.
Proof.
  unfold Sign. rewrite len_AutoShrinkSize, limb_at_AutoShrinkSize by lia.
  reflexivity.
Qed.

Lemma uval_AutoShrinkSize (a : BigInt) :
  0 <= len_ a <= cap_ a -> uval LIMB (AutoShrinkSize a) = uval LIMB a.
Proof.
  intros H. unfold uval. rewrite len_AutoShrinkSize.
  pose proof (cap_AutoShrinkSize a H). unfold cap_ in *.
  apply uval_limbs_ext; try lia.
  intros j Hj. apply limb_at_AutoShrinkSize. lia.
Qed.


Lemma Sign_true_top (a : BigInt) :
  in_range LIMB (val_ a) -> Sign LIMB a = true ->
  2 ^ (LIMB - 1) <= limb_at (val_ a) (len_ a - 1) < 2 ^ LIMB.
Proof.
  intros Hv Hs. unfold Sign in Hs.
  pose proof (in_range_limb_at LIMB LIMB_pos (val_ a) (len_ a - 1) Hv) as Hr.
  split; [|lia].
  set (t := limb_at (val_ a) (len_ a - 1)) in *.
  destruct (Z.lt_ge_cases t (2 ^ (LIMB - 1))) as [Hlt|]; [|lia].
  exfalso.
  destruct (Z.eq_dec t 0) as [E|E].
  - rewrite E, Z.testbit_0_l in Hs. discriminate.
  - assert (Z.log2 t < LIMB - 1) by (apply Z.log2_lt_pow2; lia).
    rewrite Z.bits_above_log2 in Hs by lia. discriminate.
Qed.

(** C10. Right shift of a negative integer by [k] bits, [k mod LIMB <> 0]
    and [k / LIMB < len_], is a logical shift of the active limbs: the
    vacated high bits are zero, the result is non-negative and its value
    is the unsigned reading of [a] divided by [2^k]. *)
Theorem shr_eq_of_negative_is_logical (a : BigInt) (k : Z) :
  wf LIMB a -> Sign LIMB a = true ->
  0 <= k -> k mod LIMB <> 0 -> k / LIMB < len_ a ->
  Sign LIMB (shr_eq LIMB a k) = false /\
  limb_at (val_ (shr_eq LIMB a k)) (len_ (shr_eq LIMB a k) - 1)
  = Z.shiftr (limb_at (val_ a) (len_ a - 1)) (k mod LIMB) /\
  toZ LIMB (shr_eq LIMB a k) = uval LIMB a / 2 ^ k /\
  0 <= toZ LIMB (shr_eq LIMB a k).
Proof.
  intros (Hlen & Hcap & Hv) Hs Hk Hr Hq.
  pose proof (pow_LIMB_pos LIMB LIMB_pos) as HB.
  pose proof (Sign_true_top a Hv Hs) as Htop.
  set (L := len_ a) in *. set (q := k / LIMB) in *. set (r := k mod LIMB) in *.
  assert (Hr' : 0 < r < LIMB).
  { pose proof (Z.mod_pos_bound k LIMB LIMB_pos). unfold r in *. lia. }
  assert (Hq' : 0 <= q) by (apply Z.div_pos; lia).
  assert (Hkqr : k = LIMB * q + r) by (apply Z.div_mod; lia).
  set (nl := L - q).
  assert (Hnlb : nl = L - q) by reflexivity.
  assert (Hnl : u64 (L - q) = nl).
  { unfold u64. apply Z.mod_small. unfold cap_ in *. lia. }
  set (top := limb_at (val_ a) (L - 1)) in *.
  assert (H2r : 0 < 2 ^ r) by (apply Z.pow_pos_nonneg; lia).
  assert (Htr : 0 < Z.shiftr top r < 2 ^ (LIMB - 1)).
  { rewrite Z.shiftr_div_pow2 by lia. split.
    - apply Z.div_str_pos. split; [lia|].
      apply Z.le_trans with (2 ^ (LIMB - 1)); [|lia].
      apply Z.pow_le_mono_r; lia.
    - apply Z.div_lt_upper_bound; [lia|].
      apply Z.lt_le_trans with (2 ^ LIMB); [lia|].
      replace LIMB with (1 + (LIMB - 1)) at 1 by lia.
      rewrite Z.pow_add_r by lia.
      assert (2 ^ 1 <= 2 ^ r) by (apply Z.pow_le_mono_r; lia).
      assert (0 < 2 ^ (LIMB - 1)) by (apply Z.pow_pos_nonneg; lia).
      nia. }
  (* the buffer after the loop and the top limb *)
  set (v1 := shr_loop_r LIMB (Z.to_nat (nl - 1)) 0 q r (val_ a)).
  set (vt := upd v1 (nl - 1) (limb LIMB (Z.shiftr (limb_at v1 (L - 1)) r))).
  set (v2 := if negb (q =? 0) then fill vt nl L 0 else vt).
  assert (Hlv1 : length v1 = length (val_ a)) by apply length_shr_loop_r.
  assert (Hlvt : length vt = length (val_ a)).
  { unfold vt. rewrite length_upd. exact Hlv1. }
  assert (Hlv2 : length v2 = length (val_ a)).
  { unfold v2. destruct (negb (q =? 0)); rewrite ?length_fill; exact Hlvt. }
  assert (Hv1top : limb_at v1 (L - 1) = top).
  { unfold v1. rewrite limb_at_shr_loop_r by (unfold cap_ in *; lia).
    destruct (Z.leb_spec 0 (L - 1)), (Z.ltb_spec (L - 1) (0 + Z.of_nat (Z.to_nat (nl - 1))));
      simpl; try reflexivity; lia. }
  assert (Hlimbtop : limb LIMB (Z.shiftr top r) = Z.shiftr top r).
  { unfold limb. apply Z.mod_small.
    assert (2 ^ (LIMB - 1) <= 2 ^ LIMB) by (apply Z.pow_le_mono_r; lia). lia. }
  assert (Hv2 : forall j, 0 <= j < nl -> limb_at v2 j = limb_at vt j).
  { intros j Hj. unfold v2. destruct (negb (q =? 0)); auto.
    rewrite limb_at_fill by lia.
    destruct (Z.leb_spec nl j); [lia|]. reflexivity. }
  assert (Hv2top : limb_at v2 (nl - 1) = Z.shiftr top r).
  { rewrite Hv2 by lia. unfold vt.
    rewrite limb_at_upd_same by (unfold cap_ in *; lia).
    rewrite Hv1top. exact Hlimbtop. }
  assert (Hv2low : forall j, 0 <= j < nl - 1 ->
            limb_at v2 j =
            limb LIMB (Z.shiftr (limb_at (val_ a) (j + q)) r
                       + Z.shiftl (limb_at (val_ a) (j + q + 1)) (LIMB - r))).
  { intros j Hj. rewrite Hv2 by lia. unfold vt.
    rewrite limb_at_upd_other by lia. unfold v1.
    rewrite limb_at_shr_loop_r by (unfold cap_ in *; lia).
    destruct (Z.leb_spec 0 j), (Z.ltb_spec j (0 + Z.of_nat (Z.to_nat (nl - 1))));
      simpl; try reflexivity; lia. }
  (* the result of the operator *)
  assert (Hres : shr_eq LIMB a k = AutoShrinkSize (mkBigInt nl v2)).
  { unfold shr_eq. fold q r L. rewrite Hnl.
    destruct (Z.ltb_spec L nl); [lia|].
    destruct (Z.eqb_spec nl 0); [lia|]. cbn [orb].
    destruct (Z.eqb_spec r 0); [lia|]. cbn [negb].
    fold v1. fold vt. fold v2. rewrite Hv2top.
    destruct (Z.eqb_spec (Z.shiftr top r) 0); [lia|].
    rewrite andb_false_r. reflexivity. }
  assert (Hsign : Sign LIMB (shr_eq LIMB a k) = false).
  { rewrite Hres, Sign_AutoShrinkSize. unfold Sign. cbn [len_ val_].
    rewrite Hv2top.
    apply Z.bits_above_log2; [lia|].
    apply Z.log2_lt_pow2; lia. }
  assert (HU : 0 <= uval LIMB a < 2 ^ (LIMB * L)).
  { unfold uval. fold L.
    pose proof (uval_limbs_bounds LIMB LIMB_pos (Z.to_nat L) (val_ a) Hv
                  ltac:(unfold cap_ in *; lia)) as Hb.
    rewrite Z2Nat.id in Hb by lia. exact Hb. }
  assert (Hdig : forall j, 0 <= j < L ->
            limb_at (val_ a) j = digit LIMB (uval LIMB a) j).
  { intros j Hj. unfold uval. fold L.
    apply limb_at_digit; auto; unfold cap_ in *; lia. }
  assert (H2k : 0 < 2 ^ k) by (apply Z.pow_pos_nonneg; lia).
  assert (Hval : uval LIMB (shr_eq LIMB a k) = uval LIMB a / 2 ^ k).
  { rewrite Hres, uval_AutoShrinkSize by (cbn [len_ val_]; unfold cap_ in *; cbn [val_]; lia).
    unfold uval at 1. cbn [len_ val_].
    apply uval_limbs_of_digits; auto.
    - unfold cap_ in *. lia.
    - rewrite Z2Nat.id by lia. split; [apply Z.div_pos; lia|].
      apply Z.div_lt_upper_bound; [lia|].
      rewrite <- Z.pow_add_r by nia.
      apply Z.lt_le_trans with (2 ^ (LIMB * L)); [lia|].
      apply Z.pow_le_mono_r; [lia|]. unfold nl. nia.
    - rewrite Z2Nat.id by lia. intros j Hj.
      destruct (Z.eq_dec j (nl - 1)) as [->|Hne].
      + rewrite Hv2top. unfold top. rewrite Hdig by lia.
        rewrite Hkqr at 1.
        (* top digit *)
        unfold digit.
        assert (HP : 0 < 2 ^ (LIMB * (L - 1))) by (apply Z.pow_pos_nonneg; nia).
        assert (HJ : 0 < 2 ^ (LIMB * (nl - 1))) by (apply Z.pow_pos_nonneg; nia).
        assert (HQ : 0 < 2 ^ (LIMB * q + r)) by (apply Z.pow_pos_nonneg; nia).
        assert (E1 : uval LIMB a / 2 ^ (LIMB * q + r) / 2 ^ (LIMB * (nl - 1))
                     = uval LIMB a / 2 ^ (LIMB * (L - 1)) / 2 ^ r).
        { rewrite !Z.div_div by lia. f_equal.
          rewrite <- !Z.pow_add_r by nia. f_equal. unfold nl. lia. }
        rewrite E1. rewrite Z.shiftr_div_pow2 by lia.
        assert (Hsm : 0 <= uval LIMB a / 2 ^ (LIMB * (L - 1)) < 2 ^ LIMB).
        { split; [apply Z.div_pos; lia|].
          apply Z.div_lt_upper_bound; [lia|].
          rewrite <- Z.pow_add_r by nia.
          replace (LIMB * (L - 1) + LIMB) with (LIMB * L) by lia. lia. }
        rewrite (Z.mod_small _ _ Hsm).
        symmetry. apply Z.mod_small.
        split; [apply Z.div_pos; lia|].
        apply Z.div_lt_upper_bound; [lia|]. nia.
      + rewrite Hv2low by lia.
        rewrite !Hdig by lia.
        rewrite Hkqr at 1. symmetry. apply digit_shifted; lia. }
  split; [exact Hsign|].
  split.
  { rewrite Hres, len_AutoShrinkSize. cbn [len_].
    rewrite limb_at_AutoShrinkSize by (cbn [len_]; lia).
    cbn [val_]. exact Hv2top. }
  unfold toZ. rewrite Hsign, Hval.
  split; [reflexivity|]. apply Z.div_pos; lia.
Qed.

End Shifts.

Lemma shr_eq_of_negative_is_logical_witness :
  let a := mkBigInt 2 [1; 32768] in
  Sign 16 (shr_eq 16 a 1) = false /\
  limb_at (val_ (shr_eq 16 a 1)) (len_ (shr_eq 16 a 1) - 1)
  = Z.shiftr (limb_at (val_ a) (len_ a - 1)) (1 mod 16) /\
  toZ 16 (shr_eq 16 a 1) = uval 16 a / 2 ^ 1 /\
  0 <= toZ 16 (shr_eq 16 a 1).
Proof.
  cbv zeta.
  apply (shr_eq_of_negative_is_logical 16 ltac:(lia) (mkBigInt 2 [1; 32768]) 1).
  - split; [vm_compute; split; discriminate|].
    split; [reflexivity|]. repeat constructor; lia.
  - reflexivity.
  - lia.
  - discriminate.
  - reflexivity.
Defined.

(** ** Packing and unpacking 64-bit words *)

Lemma lor_shiftl_small (x n l : Z) :
  0 <= n -> 0 <= l < 2 ^ n -> Z.lor (Z.shiftl x n) l = x * 2 ^ n + l.
Proof.
  intros Hn Hl.
  assert (E : Z.land (Z.shiftl x n) l = 0).
  { apply Z.bits_inj'. intros i Hi.
    rewrite Z.land_spec, Z.bits_0.
    destruct (Z.lt_ge_cases i n).
    - rewrite Z.shiftl_spec_low by lia. reflexivity.
    - destruct (Z.eq_dec l 0) as [->|Hne].
      + rewrite Z.bits_0. apply andb_false_r.
      + rewrite (Z.bits_above_log2 l i); [apply andb_false_r|lia|].
        assert (Z.log2 l < n) by (apply Z.log2_lt_pow2; lia). lia. }
  rewrite <- Z.shiftl_mul_pow2 by lia.
  rewrite <- Z.add_lor_land, E. lia.
Qed.

Section Pack.
Variable LIMB : Z.
Hypothesis LIMB_pos : 0 < LIMB.

Lemma uval_limbs_snoc (n : nat) (v : list Z) :
  (S n <= length v)%nat ->
  uval_limbs LIMB (S n) v
  = uval_limbs LIMB n v + limb_at v (Z.of_nat n) * 2 ^ (LIMB * Z.of_nat n).
Proof.
  revert v. induction n as [|n IH]; intros v Hv.
  - destruct v as [|h t]; simpl in Hv; [lia|].
    cbn [uval_limbs]. change (Z.of_nat 0) with 0.
    rewrite limb_at_cons_0, !Z.mul_0_r, Z.pow_0_r. lia.
  - destruct v as [|h t]; simpl in Hv; [lia|].
    change (uval_limbs LIMB (S (S n)) (h :: t))
      with (h + 2 ^ LIMB * uval_limbs LIMB (S n) t).
    change (uval_limbs LIMB (S n) (h :: t))
      with (h + 2 ^ LIMB * uval_limbs LIMB n t).
    rewrite IH by lia.
    rewrite Nat2Z.inj_succ, <- Z.add_1_r.
    rewrite limb_at_cons_S by lia.
    rewrite pow_LIMB_succ by lia. ring.
Qed.

Lemma rd_ok (v : list Z) (i : Z) :
  0 <= i < Z.of_nat (length v) -> rd v i = Ok (limb_at v i).
Proof.
  intros H. unfold rd, limb_at.
  destruct (Z.leb_spec 0 i); [|lia].
  destruct (Z.ltb_spec i (Z.of_nat (length v))); [|lia]. reflexivity.
Qed.

Lemma wr_ok (v : list Z) (i x : Z) :
  0 <= i < Z.of_nat (length v) -> wr v i x = Ok (upd v i x).
Proof.
  intros H. unfold wr, upd.
  destruct (Z.leb_spec 0 i); [|lia].
  destruct (Z.ltb_spec i (Z.of_nat (length v))); [|lia]. reflexivity.
Qed.

(** Packing [n] limbs under [x] into a 64-bit word. *)
Lemma pack_value (n : nat) (v : list Z) (x : Z) :
  in_range LIMB v -> (n <= length v)%nat -> 0 <= x ->
  (x + 1) * 2 ^ (LIMB * Z.of_nat n) <= 2 ^ 64 ->
  pack LIMB n v x = Ok (x * 2 ^ (LIMB * Z.of_nat n) + uval_limbs LIMB n v).
Proof.
  intros Hv. revert x. induction n as [|n IH]; intros x Hn Hx Hb.
  - simpl. rewrite Z.mul_0_r. f_equal. simpl. lia.
  - cbn [pack]. rewrite rd_ok by lia. cbn [bind].
    pose proof (in_range_limb_at LIMB LIMB_pos v (Z.of_nat n) Hv) as Hl.
    pose proof (pow_LIMB_pos LIMB LIMB_pos) as HB.
    assert (HP : 0 < 2 ^ (LIMB * Z.of_nat n)) by (apply Z.pow_pos_nonneg; nia).
    rewrite Nat2Z.inj_succ, <- Z.add_1_r, pow_LIMB_succ in Hb by lia.
    assert (Hxs : u64 (Z.shiftl x LIMB) = x * 2 ^ LIMB).
    { rewrite Z.shiftl_mul_pow2 by lia. unfold u64. apply Z.mod_small. nia. }
    rewrite Hxs.
    rewrite <- Z.shiftl_mul_pow2 by lia.
    rewrite lor_shiftl_small by lia.
    rewrite IH by nia.
    rewrite uval_limbs_snoc by lia.
    rewrite Nat2Z.inj_succ, <- Z.add_1_r, pow_LIMB_succ by lia.
    f_equal. ring.
Qed.

End Pack.

Section Store.
Variable LIMB : Z.
Hypothesis LIMB_pos : 0 < LIMB.

Lemma digit_0 (z : Z) : digit LIMB z 0 = limb LIMB z.
Proof. unfold digit, limb. rewrite Z.mul_0_r, Z.pow_0_r, Z.div_1_r. reflexivity. Qed.

Lemma digit_succ (z j : Z) :
  0 <= j -> digit LIMB z (j + 1) = digit LIMB (z / 2 ^ LIMB) j.
Proof.
  intros Hj. unfold digit. rewrite pow_LIMB_succ by lia.
  pose proof (pow_LIMB_pos LIMB LIMB_pos).
  rewrite Z.div_div by (try apply Z.pow_pos_nonneg; nia). reflexivity.
Qed.

Lemma unpack_spec (m : nat) :
  forall (fuel : nat) (z i : Z) (v : list Z),
    (m <= fuel)%nat -> 0 <= z < 2 ^ (LIMB * Z.of_nat m) ->
    0 <= i -> i + Z.of_nat m <= Z.of_nat (length v) ->
    exists v' c,
      unpack LIMB fuel z i v = Ok (v', i + c) /\
      0 <= c <= Z.of_nat m /\
      length v' = length v /\
      z < 2 ^ (LIMB * c) /\
      (forall j, 0 <= j < c -> limb_at v' (i + j) = digit LIMB z j) /\
      (forall j, j < i \/ i + c <= j -> limb_at v' j = limb_at v j) /\
      (in_range LIMB v -> in_range LIMB v').
Proof.
  pose proof (pow_LIMB_pos LIMB LIMB_pos) as HB.
  induction m as [|m IH]; intros fuel z i v Hf Hz Hi Hlen.
  - rewrite Z.mul_0_r in Hz. assert (z = 0) by (simpl in Hz; lia). subst z.
    exists v, 0. destruct fuel; simpl; rewrite Z.add_0_r, Z.mul_0_r;
      repeat split; auto; simpl; lia.
  - destruct (Z.eq_dec z 0) as [->|Hz0].
    + exists v, 0. destruct fuel; simpl; rewrite Z.add_0_r, Z.mul_0_r;
        repeat split; auto; simpl; lia.
    + destruct fuel as [|f]; [lia|].
      cbn [unpack]. destruct (Z.eqb_spec z 0); [contradiction|].
      rewrite wr_ok by lia. cbn [bind].
      rewrite Nat2Z.inj_succ, <- Z.add_1_r, pow_LIMB_succ in Hz by lia.
      assert (HP : 0 < 2 ^ (LIMB * Z.of_nat m)) by (apply Z.pow_pos_nonneg; nia).
      destruct (IH f (Z.shiftr z LIMB) (i + 1) (upd v i (limb LIMB z)))
        as (v' & c & Hun & Hc & Hl & Hb & Hd & Ho & Hr).
      * lia.
      * rewrite Z.shiftr_div_pow2 by lia. split; [apply Z.div_pos; lia|].
        apply Z.div_lt_upper_bound; lia.
      * lia.
      * rewrite length_upd. lia.
      * exists v', (c + 1). rewrite Hun.
        split; [f_equal; f_equal; lia|].
        split; [lia|]. split; [rewrite Hl; apply length_upd|].
        rewrite Z.shiftr_div_pow2 in Hb, Hd by lia.
        split.
        { rewrite pow_LIMB_succ by lia.
          assert (0 < 2 ^ (LIMB * c)) by (apply Z.pow_pos_nonneg; nia).
          pose proof (Z.div_mod z (2 ^ LIMB) ltac:(lia)).
          pose proof (Z.mod_pos_bound z (2 ^ LIMB) HB). nia. }
        split.
        { intros j Hj. destruct (Z.eq_dec j 0) as [->|Hj0].
          - rewrite Z.add_0_r, Ho by lia.
            rewrite limb_at_upd_same by lia. symmetry. apply digit_0.
          - replace (i + j) with (i + 1 + (j - 1)) by lia.
            rewrite Hd by lia.
            replace j with ((j - 1) + 1) at 2 by lia.
            rewrite digit_succ by lia. reflexivity. }
        split.
        { intros j Hj. rewrite Ho by lia. apply limb_at_upd_other. lia. }
        { intros Hv. apply Hr. apply in_range_upd; auto. apply limb_range; auto. }
Qed.

(** The record that [PlainDivEq] leaves after unpacking [z]:
    [std::fill(val + c, val + hi, 0); len = c ? c : 1]. *)
Lemma stored_value (v' : list Z) (z c hi : Z) :
  0 <= z < 2 ^ (LIMB * c) -> 0 <= c <= hi -> 1 <= hi <= Z.of_nat (length v') ->
  (forall j, 0 <= j < c -> limb_at v' j = digit LIMB z j) ->
  uval LIMB (mkBigInt (if c =? 0 then 1 else c) (fill v' c hi 0)) = z.
Proof.
  intros Hz Hc Hhi Hd.
  pose proof (pow_LIMB_pos LIMB LIMB_pos) as HB.
  unfold uval. cbn [len_ val_].
  apply uval_limbs_of_digits; auto.
  - rewrite length_fill. destruct (Z.eqb_spec c 0); lia.
  - destruct (Z.eqb_spec c 0) as [->|Hc0].
    + rewrite Z.mul_0_r in Hz. simpl in Hz. simpl Z.of_nat.
      rewrite Z.mul_1_r. lia.
    + rewrite Z2Nat.id by lia. lia.
  - intros j Hj. rewrite limb_at_fill by lia.
    destruct (Z.eqb_spec c 0) as [->|Hc0].
    + simpl in Hj. assert (j = 0) by lia. subst j.
      rewrite Z.mul_0_r in Hz. simpl in Hz. assert (z = 0) by lia. subst z.
      destruct (Z.leb_spec 0 0); [|lia]. destruct (Z.ltb_spec 0 hi); [|lia].
      destruct (Z.ltb_spec 0 (Z.of_nat (length v'))); [|lia]. simpl.
      unfold digit. rewrite Z.div_0_l, Z.mod_0_l; lia.
    + rewrite Z2Nat.id in Hj by lia.
      destruct (Z.leb_spec c j); [lia|]. simpl. apply Hd. lia.
Qed.

End Store.

(** ** Lengths and signs *)

Section Lengths.
Variable LIMB : Z.
Hypothesis LIMB_pos : 0 < LIMB.

Lemma grow_cap_ge (fuel : nat) (cap target : Z) :
  1 <= cap -> target <= cap * 2 ^ Z.of_nat fuel ->
  cap <= grow_cap fuel cap target /\ target <= grow_cap fuel cap target.
Proof.
  revert cap. induction fuel as [|f IH]; intros cap Hc Ht.
  - simpl in *. lia.
  - cbn [grow_cap]. destruct (Z.ltb_spec cap target); [|lia].
    rewrite Nat2Z.inj_succ, Z.pow_succ_r in Ht by lia.
    destruct (IH (2 * cap)); lia.
Qed.

Lemma in_range_app_zeros (v : list Z) (n : nat) :
  in_range LIMB v -> in_range LIMB (v ++ repeat 0 n).
Proof.
  intros Hv. pose proof (pow_LIMB_pos LIMB LIMB_pos).
  apply Forall_app. split; auto.
  apply Forall_forall. intros x Hx. apply repeat_spec in Hx. lia.
Qed.

(** Zero extension: [SetLen(new_len, false)] with [new_len >= len_]. *)
Lemma SetLen_extend (a : BigInt) (new_len : Z) :
  in_range LIMB (val_ a) -> 0 <= len_ a <= cap_ a ->
  len_ a <= new_len <= 2 ^ 64 ->
  let a' := SetLen LIMB a new_len false in
  len_ a' = new_len /\ new_len <= cap_ a' /\ in_range LIMB (val_ a') /\
  (forall j, j < len_ a -> limb_at (val_ a') j = limb_at (val_ a) j) /\
  (forall j, len_ a <= j < new_len -> limb_at (val_ a') j = 0).
Proof.
  intros Hv Hl Hn. cbv zeta. unfold SetLen.
  pose proof (pow_LIMB_pos LIMB LIMB_pos) as HB.
  destruct (Z.ltb_spec new_len (len_ a)); [lia|].
  cbn [andb].
  set (b := if cap_ a <? new_len then AutoExpandSize a new_len else a).
  assert (Hb : new_len <= cap_ b /\ in_range LIMB (val_ b) /\
               (forall j, j < len_ a -> limb_at (val_ b) j = limb_at (val_ a) j)).
  { unfold b. destruct (Z.ltb_spec (cap_ a) new_len); [|auto].
    unfold AutoExpandSize, cap_. cbn [val_].
    destruct (grow_cap_ge 64 (Z.max 1 (cap_ a)) new_len) as [G1 G2]; [lia| |].
    { change (Z.of_nat 64) with 64. lia. }
    unfold cap_ in *.
    split; [|split].
    - rewrite length_app, repeat_length. lia.
    - apply in_range_app_zeros; auto.
    - intros j Hj. apply limb_at_app. lia. }
  destruct Hb as (Hb1 & Hb2 & Hb3). cbn [len_ val_].
  split; [reflexivity|].
  split; [unfold cap_ in *; cbn [val_]; rewrite length_fill; lia|].
  split; [apply in_range_fill; auto; lia|].
  split.
  - intros j Hj. rewrite limb_at_fill by lia.
    destruct (Z.leb_spec (len_ a) j); [lia|]. simpl. auto.
  - intros j Hj. rewrite limb_at_fill by lia.
    destruct (Z.leb_spec (len_ a) j); [|lia].
    destruct (Z.ltb_spec j new_len); [|lia].
    destruct (Z.ltb_spec j (Z.of_nat (length (val_ b)))); [reflexivity|].
    unfold cap_ in *. lia.
Qed.

Lemma Sign_false_of_small (a : BigInt) :
  0 <= limb_at (val_ a) (len_ a - 1) < 2 ^ (LIMB - 1) -> Sign LIMB a = false.
Proof.
  intros H. unfold Sign.
  set (t := limb_at (val_ a) (len_ a - 1)) in *.
  destruct (Z.eq_dec t 0) as [->|Hne]; [apply Z.bits_0|].
  apply Z.bits_above_log2; [lia|].
  apply Z.log2_lt_pow2; lia.
Qed.

Lemma Sign_false_top (a : BigInt) :
  in_range LIMB (val_ a) -> Sign LIMB a = false ->
  0 <= limb_at (val_ a) (len_ a - 1) < 2 ^ (LIMB - 1).
Proof.
  intros Hv Hs.
  pose proof (in_range_limb_at LIMB LIMB_pos (val_ a) (len_ a - 1) Hv) as Hr.
  split; [lia|].
  set (t := limb_at (val_ a) (len_ a - 1)) in *.
  destruct (Z.lt_ge_cases t (2 ^ (LIMB - 1))) as [|Hge]; auto.
  exfalso. unfold Sign in Hs. fold t in Hs.
  assert (Ht : Z.testbit t (LIMB - 1) = true).
  { apply Z.testbit_true; [lia|].
    assert (HP : 0 < 2 ^ (LIMB - 1)) by (apply Z.pow_pos_nonneg; lia).
    assert (E2 : 2 ^ LIMB = 2 * 2 ^ (LIMB - 1)).
    { rewrite <- Z.pow_succ_r by lia. f_equal. lia. }
    assert (E : t / 2 ^ (LIMB - 1) = 1).
    { symmetry. apply Z.div_unique with (r := t - 2 ^ (LIMB - 1)); lia. }
    rewrite E. reflexivity. }
  congruence.
Qed.

(** The value when the top limb is zero-extended by one limb. *)
Lemma toZ_zero_extended (a a' : BigInt) :
  (Z.to_nat (len_ a) <= length (val_ a))%nat ->
  0 <= len_ a ->
  len_ a' = len_ a + 1 -> len_ a' <= cap_ a' ->
  (forall j, j < len_ a -> limb_at (val_ a') j = limb_at (val_ a) j) ->
  limb_at (val_ a') (len_ a) = 0 ->
  toZ LIMB a' = uval LIMB a.
Proof.
  intros Hl H0 Hlen Hcap Hsame Htop.
  unfold toZ.
  rewrite Sign_false_of_small.
  - unfold uval. rewrite Hlen.
    replace (Z.to_nat (len_ a + 1)) with (S (Z.to_nat (len_ a))) by lia.
    rewrite uval_limbs_snoc by (auto; unfold cap_ in *; lia).
    rewrite Z2Nat.id, Htop by lia.
    rewrite Z.mul_0_l, Z.add_0_r.
    apply uval_limbs_ext; auto; try (unfold cap_ in *; lia).
    intros j Hj. apply Hsame. lia.
  - rewrite Hlen. replace (len_ a + 1 - 1) with (len_ a) by lia.
    rewrite Htop. split; [lia|]. apply Z.pow_pos_nonneg; lia.
Qed.

End Lengths.

Section Canonical.
Variable LIMB : Z.
Hypothesis LIMB_pos : 0 < LIMB.

Lemma testbit_all_ones : Z.testbit (2 ^ LIMB - 1) (LIMB - 1) = true.
Proof.
  apply Z.testbit_true; [lia|].
  assert (HP : 0 < 2 ^ (LIMB - 1)) by (apply Z.pow_pos_nonneg; lia).
  assert (E2 : 2 ^ LIMB = 2 * 2 ^ (LIMB - 1)).
  { rewrite <- Z.pow_succ_r by lia. f_equal. lia. }
  assert (E : (2 ^ LIMB - 1) / 2 ^ (LIMB - 1) = 1).
  { symmetry. apply Z.div_unique with (r := 2 ^ (LIMB - 1) - 1); lia. }
  rewrite E. reflexivity.
Qed.

Lemma toZ_drop_redundant_top (a : BigInt) :
  in_range LIMB (val_ a) -> 2 <= len_ a <= cap_ a ->
  redundant_top LIMB a = true ->
  toZ LIMB (mkBigInt (len_ a - 1) (upd (val_ a) (len_ a - 1) 0)) = toZ LIMB a.
Proof.
  intros Hv Hl Hr.
  pose proof (pow_LIMB_pos LIMB LIMB_pos) as HB.
  set (L := len_ a) in *.
  assert (Hu : uval LIMB a
               = uval_limbs LIMB (Z.to_nat (L - 1)) (val_ a)
                 + limb_at (val_ a) (L - 1) * 2 ^ (LIMB * (L - 1))).
  { unfold uval. fold L.
    replace (Z.to_nat L) with (S (Z.to_nat (L - 1))) by lia.
    rewrite uval_limbs_snoc by (auto; unfold cap_ in *; lia).
    rewrite Z2Nat.id by lia. reflexivity. }
  assert (Hu' : uval LIMB (mkBigInt (L - 1) (upd (val_ a) (L - 1) 0))
                = uval_limbs LIMB (Z.to_nat (L - 1)) (val_ a)).
  { unfold uval. cbn [len_ val_].
    apply uval_limbs_ext; auto; rewrite ?length_upd; unfold cap_ in *; try lia.
    intros j Hj. apply limb_at_upd_other. lia. }
  assert (Hs' : Sign LIMB (mkBigInt (L - 1) (upd (val_ a) (L - 1) 0))
                = Z.testbit (limb_at (val_ a) (L - 2)) (LIMB - 1)).
  { unfold Sign. cbn [len_ val_].
    replace (L - 1 - 1) with (L - 2) by lia.
    rewrite limb_at_upd_other by lia. reflexivity. }
  unfold toZ. rewrite Hs', Hu', Hu. cbn [len_].
  unfold redundant_top in Hr. fold L in Hr. unfold Sign. fold L.
  apply orb_true_iff in Hr. destruct Hr as [Hr|Hr];
    apply andb_true_iff in Hr; destruct Hr as [Ht Hbelow].
  - apply Z.eqb_eq in Ht. rewrite Ht, Z.bits_0.
    apply negb_true_iff in Hbelow. rewrite Hbelow. lia.
  - apply Z.eqb_eq in Ht. rewrite Ht, testbit_all_ones, Hbelow.
    replace (LIMB * L) with (LIMB * (L - 1 + 1)) by (f_equal; lia).
    rewrite pow_LIMB_succ by lia. ring.
Qed.

Lemma toZ_ShrinkLen_loop (n : nat) (a : BigInt) :
  in_range LIMB (val_ a) -> 1 <= len_ a <= cap_ a ->
  toZ LIMB (ShrinkLen_loop LIMB n a) = toZ LIMB a.
Proof.
  revert a. induction n as [|n IH]; intros a Hv Hl; [reflexivity|].
  cbn [ShrinkLen_loop].
  destruct (Z.leb_spec 2 (len_ a)); [|reflexivity].
  destruct (redundant_top LIMB a) eqn:Hr; [|reflexivity].
  cbn [andb]. rewrite IH.
  - apply toZ_drop_redundant_top; auto. lia.
  - cbn [val_]. apply in_range_upd; auto. pose proof (pow_LIMB_pos LIMB LIMB_pos). lia.
  - unfold cap_ in *. cbn [len_ val_]. rewrite length_upd. lia.
Qed.

Lemma toZ_ShrinkLen (a : BigInt) :
  in_range LIMB (val_ a) -> 1 <= len_ a <= cap_ a ->
  toZ LIMB (ShrinkLen LIMB a) = toZ LIMB a.
Proof. intros. unfold ShrinkLen. apply toZ_ShrinkLen_loop; auto. Qed.

End Canonical.

(** ** Division of a non-negative dividend by a positive limb *)

Section PlainDivision.
Variable LIMB : Z.
Hypothesis LIMB_range : 0 < LIMB <= 32.

Let LIMB_pos : 0 < LIMB.
Proof. lia. Qed.

Lemma toZ_BigInt_of_int_0 : toZ LIMB (BigInt_of_int LIMB 0) = 0.
Proof.
  unfold toZ, Sign, uval, BigInt_of_int, limb, limb_at; simpl.
  rewrite Zmod_0_l, Z.testbit_0_l. lia.
Qed.

Lemma limbs_fit_64 (L : Z) : 0 <= L <= 64 / LIMB -> LIMB * L <= 64.
Proof.
  intros H. pose proof (Z.mul_div_le 64 LIMB LIMB_pos). nia.
Qed.

Lemma words_per_64 : 2 <= 64 / LIMB <= 64.
Proof.
  split.
  - apply Z.div_le_lower_bound; lia.
  - apply Z.div_le_upper_bound; lia.
Qed.

(** The value of a one-limb integer. *)
Lemma uval_one_limb (b : BigInt) :
  len_ b = 1 -> 1 <= cap_ b -> uval LIMB b = limb_at (val_ b) 0.
Proof.
  intros Hl Hc. unfold uval. rewrite Hl.
  destruct (val_ b) as [|h t] eqn:E; [unfold cap_ in Hc; rewrite E in Hc; simpl in Hc; lia|].
  change (Z.to_nat 1) with 1%nat. simpl. rewrite limb_at_cons_0. lia.
Qed.

Lemma uval_bounds (a : BigInt) :
  wf LIMB a -> 0 <= uval LIMB a < 2 ^ (LIMB * len_ a).
Proof.
  intros (Hl & Hc & Hv). unfold uval.
  pose proof (uval_limbs_bounds LIMB LIMB_pos (Z.to_nat (len_ a)) (val_ a) Hv
                ltac:(unfold cap_ in *; lia)) as Hb.
  rewrite Z2Nat.id in Hb by lia. exact Hb.
Qed.

(** [PlainDivEq] on a non-negative dividend that fits 64 bits and a
    positive one-limb divisor. *)
Lemma PlainDivEq_nonneg (a b : BigInt) (m0 : BigInt) :
  wf LIMB a -> Sign LIMB a = false -> len_ a <= 64 / LIMB ->
  wf LIMB b -> len_ b = 1 -> Sign LIMB b = false ->
  0 < limb_at (val_ b) 0 ->
  wf LIMB m0 -> len_ m0 = 1 ->
  exists q m,
    PlainDivEq LIMB a b (Some m0) = Ok (q, Some m) /\
    toZ LIMB q = uval LIMB a / limb_at (val_ b) 0 /\
    toZ LIMB m = uval LIMB a mod limb_at (val_ b) 0 /\
    in_range LIMB (val_ q) /\ 1 <= len_ q <= cap_ q /\
    in_range LIMB (val_ m) /\ 1 <= len_ m <= cap_ m.
Proof.
  intros Ha Hsa HaL Hb HbL Hsb Hd0 Hm0 Hm0L.
  pose proof (pow_LIMB_pos LIMB LIMB_pos) as HB.
  pose proof words_per_64 as Hw.
  set (d0 := limb_at (val_ b) 0) in *.
  set (U := uval LIMB a).
  pose proof (uval_bounds a Ha) as HU. fold U in HU.
  destruct Ha as (Hal & Hac & Hav).
  destruct Hb as (Hbl & Hbc & Hbv).
  pose proof (limbs_fit_64 (len_ a) ltac:(lia)) as Hfit.
  assert (H64 : 2 ^ (LIMB * len_ a) <= 2 ^ 64) by (apply Z.pow_le_mono_r; lia).
  assert (Hub : uval LIMB b = d0) by (apply uval_one_limb; lia).
  assert (Hd0r : 0 <= d0 < 2 ^ (LIMB - 1)).
  { pose proof (Sign_false_top LIMB LIMB_pos b Hbv Hsb) as H.
    rewrite HbL in H. exact H. }
  assert (Hlt : 2 ^ (LIMB - 1) < 2 ^ LIMB) by (apply Z.pow_lt_mono_r; lia).
  unfold PlainDivEq.
  (* rhs == 0 *)
  assert (Hne : BigInt_eqb LIMB b (BigInt_of_int LIMB 0) = false).
  { unfold BigInt_eqb. rewrite toZ_BigInt_of_int_0. unfold toZ.
    rewrite Hsb, Hub. apply Z.eqb_neq. lia. }
  rewrite Hne, Hsa.
  (* packing *)
  rewrite pack_value; auto; try (unfold cap_ in *; lia);
    [|rewrite Z2Nat.id by lia; lia].
  rewrite Z2Nat.id by lia. rewrite Z.mul_0_l, Z.add_0_l. cbn [bind].
  fold (uval LIMB a). fold U.
  rewrite HbL. change (Z.to_nat 1) with 1%nat.
  rewrite pack_value; auto; try (unfold cap_ in *; lia);
    [|change (Z.of_nat 1) with 1; rewrite Z.mul_1_r;
      assert (2 ^ LIMB <= 2 ^ 64) by (apply Z.pow_le_mono_r; lia); lia].
  rewrite Z.mul_0_l, Z.add_0_l. cbn [bind].
  assert (Hub' : uval_limbs LIMB 1 (val_ b) = d0).
  { unfold uval in Hub. rewrite HbL in Hub. exact Hub. }
  rewrite Hub', Hsb.
  destruct (Z.eqb_spec d0 0); [lia|].
  (* quotient and remainder words *)
  set (z := U / d0).
  assert (Hz : 0 <= z <= U).
  { unfold z. split; [apply Z.div_pos; lia|]. apply Z.div_le_upper_bound; nia. }
  assert (Hw0 : u64 (U - u64 (z * d0)) = U mod d0).
  { pose proof (Z.div_mod U d0 ltac:(lia)) as E. fold z in E.
    pose proof (Z.mod_pos_bound U d0 ltac:(lia)) as Hm.
    unfold u64. rewrite (Z.mod_small (z * d0)) by nia.
    rewrite Z.mod_small; lia. }
  rewrite Hw0. set (w := U mod d0).
  assert (Hwr : 0 <= w < d0) by (apply Z.mod_pos_bound; lia).
  (* unpacking the quotient *)
  destruct (unpack_spec LIMB LIMB_pos (Z.to_nat (len_ a)) 64 z 0 (val_ a))
    as (v' & c & Hun & Hc & Hlv & Hzc & Hdig & Hoth & Hrng).
  { lia. } { rewrite Z2Nat.id by lia. lia. } { lia. }
  { unfold cap_ in *. lia. }
  rewrite Hun. cbn [bind]. rewrite Z.add_0_l.
  rewrite Z2Nat.id in Hc by lia.
  set (a1 := mkBigInt (if c =? 0 then 1 else c) (fill v' c (len_ a) 0)).
  assert (Ha1u : uval LIMB a1 = z).
  { apply stored_value; auto; try lia.
    all: try (rewrite Hlv; unfold cap_ in *; lia). }
  assert (Ha1v : in_range LIMB (val_ a1)).
  { cbn [a1 val_]. apply in_range_fill; auto. lia. }
  assert (Ha1l : 1 <= len_ a1 <= cap_ a1).
  { unfold cap_. cbn [a1 len_ val_]. rewrite length_fill, Hlv.
    unfold cap_ in *. destruct (Z.eqb_spec c 0); lia. }
  set (a2 := if Sign LIMB a1 then SetLen LIMB a1 (len_ a1 + 1) false else a1).
  assert (Ha2 : toZ LIMB a2 = z /\ in_range LIMB (val_ a2) /\
                1 <= len_ a2 <= cap_ a2).
  { unfold a2. destruct (Sign LIMB a1) eqn:Hs1.
    - assert (Hub1 : len_ a1 + 1 <= 2 ^ 64).
      { cbn [a1 len_]. destruct (Z.eqb_spec c 0); lia. }
      destruct (SetLen_extend LIMB LIMB_pos a1 (len_ a1 + 1) Ha1v
                  ltac:(lia) ltac:(lia)) as (E1 & E2 & E3 & E4 & E5).
      split; [|split; [exact E3|lia]].
      rewrite <- Ha1u. apply toZ_zero_extended; auto; try lia.
      + unfold cap_ in *. lia.
      + apply E5. lia.
    - split; [|split; auto]. unfold toZ. rewrite Hs1. exact Ha1u. }
  destruct Ha2 as (Ha2z & Ha2v & Ha2l).
  fold a1. fold a2.
  change (negb (eqb false false)) with false. cbv iota.
  (* the remainder *)
  destruct Hm0 as (Hml & Hmc & Hmv).
  destruct (SetLen_extend LIMB LIMB_pos m0 (64 / LIMB) Hmv ltac:(lia) ltac:(lia))
    as (M1 & M2 & M3 & M4 & M5).
  set (m1 := SetLen LIMB m0 (64 / LIMB) false) in *.
  destruct (unpack_spec LIMB LIMB_pos 1 64 w 0 (val_ m1))
    as (mv & c' & Hun' & Hc' & Hlv' & Hwc & Hdig' & Hoth' & Hrng').
  { lia. } { change (Z.of_nat 1) with 1. rewrite Z.mul_1_r. lia. } { lia. }
  { unfold cap_ in *. change (Z.of_nat 1) with 1. lia. }
  rewrite Hun'. cbn [bind]. rewrite Z.add_0_l. rewrite M1.
  change (Z.of_nat 1) with 1 in Hc'.
  set (m2 := mkBigInt (if c' =? 0 then 1 else c') (fill mv c' (64 / LIMB) 0)).
  assert (Hm2u : uval LIMB m2 = w).
  { apply stored_value; auto; try lia.
    all: try (rewrite Hlv'; unfold cap_ in *; lia). }
  assert (Hm2len : len_ m2 = 1).
  { cbn [m2 len_]. destruct (Z.eqb_spec c' 0); lia. }
  assert (Hm2v : in_range LIMB (val_ m2)).
  { cbn [m2 val_]. apply in_range_fill; auto. lia. }
  assert (Hm2c : 1 <= cap_ m2).
  { unfold cap_. cbn [m2 val_]. rewrite length_fill, Hlv'. unfold cap_ in *. lia. }
  assert (Hm2s : Sign LIMB m2 = false).
  { apply Sign_false_of_small; auto. rewrite Hm2len.
    change (1 - 1) with 0. rewrite <- uval_one_limb, Hm2u by auto. lia. }
  exists a2, m2. split; [reflexivity|].
  split; [exact Ha2z|].
  split; [unfold toZ; rewrite Hm2s; exact Hm2u|].
  split; [exact Ha2v|]. split; [exact Ha2l|]. split; [exact Hm2v|]. lia.
Qed.

End PlainDivision.

Section BasicDivision.
Variable LIMB : Z.
Hypothesis LIMB_range : 0 < LIMB <= 32.

Let LIMB_pos : 0 < LIMB.
Proof. lia. Qed.

Lemma ctz_loop_spec (k : nat) :
  forall (fuel : nat) (t l : Z),
    0 < t < 2 ^ Z.of_nat k -> (k <= fuel)%nat ->
    exists tmp lg e,
      ctz_loop LIMB fuel t l = Ok (tmp, lg) /\ 0 <= e /\ t = tmp * 2 ^ e.
Proof.
  induction k as [|k IH]; intros fuel t l Ht Hf.
  - simpl in Ht. lia.
  - destruct (Z.testbit t 0) eqn:Hbit.
    + exists t, l, 0. split; [|simpl; lia].
      destruct fuel; cbn [ctz_loop]; rewrite Hbit; reflexivity.
    + destruct fuel as [|f]; [lia|].
      cbn [ctz_loop]. rewrite Hbit.
      rewrite Z.bit0_odd in Hbit.
      pose proof (Zmod_odd t) as Hm. rewrite Hbit in Hm.
      pose proof (Z.div_mod t 2 ltac:(lia)) as Hd.
      rewrite Nat2Z.inj_succ, Z.pow_succ_r in Ht by lia.
      destruct (IH f (Z.shiftr t 1) (limb LIMB (l + 1))) as (tmp & lg & e & H1 & H2 & H3).
      * rewrite Z.shiftr_div_pow2 by lia. change (2 ^ 1) with 2. lia.
      * lia.
      * exists tmp, lg, (e + 1). split; [exact H1|]. split; [lia|].
        rewrite Z.shiftr_div_pow2 in H3 by lia. change (2 ^ 1) with 2 in H3.
        rewrite Z.pow_add_r by lia. change (2 ^ 1) with 2. lia.
Qed.

Lemma basic_div_loop_spec (n : nat) :
  forall (rhs t : Z) (v : list Z),
    in_range LIMB v -> (n <= length v)%nat -> 0 < rhs < 2 ^ LIMB -> 0 <= t ->
    exists t' v',
      basic_div_loop LIMB n rhs t v = Ok (t', v') /\
      length v' = length v /\ in_range LIMB v' /\
      uval_limbs LIMB n v'
      = ((t mod rhs) * 2 ^ (LIMB * Z.of_nat n) + uval_limbs LIMB n v) / rhs /\
      t' mod rhs
      = ((t mod rhs) * 2 ^ (LIMB * Z.of_nat n) + uval_limbs LIMB n v) mod rhs /\
      (forall j, Z.of_nat n <= j -> limb_at v' j = limb_at v j).
Proof.
  pose proof (pow_LIMB_pos LIMB LIMB_pos) as HB.
  induction n as [|n IH]; intros rhs t v Hv Hn Hr Ht.
  - exists t, v. cbn [basic_div_loop uval_limbs].
    change (Z.of_nat 0) with 0. rewrite Z.mul_0_r, Z.pow_0_r, Z.mul_1_r, Z.add_0_r.
    pose proof (Z.mod_pos_bound t rhs ltac:(lia)).
    repeat split; auto.
    + rewrite Z.div_small; lia.
    + rewrite Z.mod_mod; lia.
  - cbn [basic_div_loop]. rewrite rd_ok by lia. cbn [bind].
    set (l := limb_at v (Z.of_nat n)).
    pose proof (in_range_limb_at LIMB LIMB_pos v (Z.of_nat n) Hv) as Hl. fold l in Hl.
    pose proof (Z.mod_pos_bound t rhs ltac:(lia)) as Hm.
    assert (H2B : 2 ^ LIMB * 2 ^ LIMB <= 2 ^ 64).
    { rewrite <- Z.pow_add_r by lia. apply Z.pow_le_mono_r; lia. }
    assert (Ht1 : Z.lor (u64 (Z.shiftl (t mod rhs) LIMB)) l = (t mod rhs) * 2 ^ LIMB + l).
    { unfold u64.
      rewrite Z.mod_small by (rewrite Z.shiftl_mul_pow2 by lia; nia).
      apply lor_shiftl_small; lia. }
    rewrite Ht1. set (t1 := (t mod rhs) * 2 ^ LIMB + l).
    assert (Ht1r : 0 <= t1 < rhs * 2 ^ LIMB) by (unfold t1; nia).
    assert (Hq : 0 <= t1 / rhs < 2 ^ LIMB).
    { split; [apply Z.div_pos; lia|]. apply Z.div_lt_upper_bound; lia. }
    rewrite wr_ok by lia. cbn [bind].
    unfold limb. rewrite (Z.mod_small (t1 / rhs)) by lia.
    destruct (IH rhs t1 (upd v (Z.of_nat n) (t1 / rhs)))
      as (t' & v' & H1 & H2 & H3 & H4 & H5 & H6).
    + apply in_range_upd; auto.
    + rewrite length_upd. lia.
    + lia.
    + lia.
    + exists t', v'. split; [exact H1|].
      split; [rewrite H2; apply length_upd|]. split; [exact H3|].
      assert (HP : 0 < 2 ^ (LIMB * Z.of_nat n)) by (apply Z.pow_pos_nonneg; nia).
      assert (Hlow : uval_limbs LIMB n (upd v (Z.of_nat n) (t1 / rhs))
                     = uval_limbs LIMB n v).
      { apply uval_limbs_ext; auto; rewrite ?length_upd; try lia.
        intros j Hj. apply limb_at_upd_other. lia. }
      rewrite Hlow in H4, H5.
      assert (Htop : limb_at v' (Z.of_nat n) = t1 / rhs).
      { rewrite H6 by lia. apply limb_at_upd_same. lia. }
      assert (HT : (t mod rhs) * 2 ^ (LIMB * Z.of_nat (S n)) + uval_limbs LIMB (S n) v
                   = (t1 mod rhs * 2 ^ (LIMB * Z.of_nat n) + uval_limbs LIMB n v)
                     + (t1 / rhs * 2 ^ (LIMB * Z.of_nat n)) * rhs).
      { rewrite uval_limbs_snoc by (auto; lia). fold l.
        rewrite Nat2Z.inj_succ, <- Z.add_1_r, pow_LIMB_succ by lia.
        pose proof (Z.div_mod t1 rhs ltac:(lia)) as E.
        unfold t1 in E at 1. nia. }
      split; [|split].
      * rewrite uval_limbs_snoc by (auto; rewrite H2, length_upd; lia).
        rewrite Htop, H4, HT.
        rewrite Z.div_add by lia. reflexivity.
      * rewrite H5, HT. rewrite Z.mod_add by lia. reflexivity.
      * intros j Hj. rewrite H6 by lia. apply limb_at_upd_other. lia.
Qed.

(** For a well-formed integer the sign bit is clear exactly when the
    unsigned reading is below half the range. *)
Lemma top_limb_value (a : BigInt) :
  wf LIMB a ->
  limb_at (val_ a) (len_ a - 1) = uval LIMB a / 2 ^ (LIMB * (len_ a - 1)).
Proof.
  intros Ha. pose proof (uval_bounds LIMB LIMB_range a Ha) as HU.
  destruct Ha as (Hl & Hc & Hv).
  pose proof (pow_LIMB_pos LIMB LIMB_pos) as HB.
  unfold uval in *.
  rewrite (limb_at_digit LIMB LIMB_pos (Z.to_nat (len_ a))) by (auto; unfold cap_ in *; lia).
  unfold digit. apply Z.mod_small.
  assert (HP : 0 < 2 ^ (LIMB * (len_ a - 1))) by (apply Z.pow_pos_nonneg; nia).
  split; [apply Z.div_pos; lia|].
  apply Z.div_lt_upper_bound; [lia|].
  rewrite <- Z.pow_add_r by nia.
  replace (LIMB * (len_ a - 1) + LIMB) with (LIMB * len_ a) by lia. lia.
Qed.

Lemma half_range (L : Z) :
  1 <= L -> 2 ^ (LIMB * L - 1) = 2 ^ (LIMB - 1) * 2 ^ (LIMB * (L - 1)).
Proof.
  intros HL. rewrite <- Z.pow_add_r by nia. f_equal. lia.
Qed.

Lemma Sign_false_uval (a : BigInt) :
  wf LIMB a -> Sign LIMB a = false -> uval LIMB a < 2 ^ (LIMB * len_ a - 1).
Proof.
  intros Ha Hs. pose proof (top_limb_value a Ha) as Ht.
  pose proof (uval_bounds LIMB LIMB_range a Ha) as HU.
  destruct Ha as (Hl & Hc & Hv).
  pose proof (Sign_false_top LIMB LIMB_pos a Hv Hs) as Hs'.
  rewrite Ht in Hs'. rewrite half_range by lia.
  assert (HP : 0 < 2 ^ (LIMB * (len_ a - 1))) by (apply Z.pow_pos_nonneg; nia).
  set (P := 2 ^ (LIMB * (len_ a - 1))) in *.
  pose proof (Z.div_mod (uval LIMB a) P ltac:(lia)).
  pose proof (Z.mod_pos_bound (uval LIMB a) P HP). nia.
Qed.

Lemma uval_Sign_false (a : BigInt) :
  wf LIMB a -> uval LIMB a < 2 ^ (LIMB * len_ a - 1) -> Sign LIMB a = false.
Proof.
  intros Ha Hu. pose proof (top_limb_value a Ha) as Ht.
  pose proof (uval_bounds LIMB LIMB_range a Ha) as HU.
  destruct Ha as (Hl & Hc & Hv).
  apply Sign_false_of_small; auto. rewrite Ht.
  rewrite half_range in Hu by lia.
  assert (HP : 0 < 2 ^ (LIMB * (len_ a - 1))) by (apply Z.pow_pos_nonneg; nia).
  split; [apply Z.div_pos; lia|].
  apply Z.div_lt_upper_bound; lia.
Qed.

(** [BasicDivEq] on a non-negative dividend and a divisor that is not a
    power of two. *)
Lemma BasicDivEq_nonneg (a : BigInt) (d0 m0 : Z) :
  wf LIMB a -> Sign LIMB a = false ->
  2 <= d0 < 2 ^ LIMB -> ~ is_pow2 d0 ->
  exists q,
    BasicDivEq LIMB a d0 (Some m0) = Ok (q, Some (uval LIMB a mod d0)) /\
    toZ LIMB q = uval LIMB a / d0.
Proof.
  intros Ha Hsa Hd Hnp.
  pose proof (pow_LIMB_pos LIMB LIMB_pos) as HB.
  pose proof (uval_bounds LIMB LIMB_range a Ha) as HU.
  pose proof (Sign_false_uval a Ha Hsa) as HUs.
  pose proof Ha as (Hl & Hc & Hv).
  set (U := uval LIMB a) in *.
  unfold BasicDivEq.
  destruct (Z.eqb_spec d0 0); [lia|]. destruct (Z.eqb_spec d0 1); [lia|].
  cbn [orb]. rewrite Hsa.
  destruct (ctz_loop_spec (Z.to_nat LIMB) (Z.to_nat LIMB) d0 0)
    as (tmp & lg & e & Hctz & He & Hde).
  { rewrite Z2Nat.id by lia. lia. } { lia. }
  rewrite Hctz. cbn [bind].
  assert (Htmp : tmp <> 1).
  { intros ->. apply Hnp. exists e. split; [lia|]. lia. }
  assert (Hmod : limb LIMB (U mod d0) = U mod d0).
  { unfold limb. apply Z.mod_small.
    pose proof (Z.mod_pos_bound U d0 ltac:(lia)). lia. }
  assert (Hqb : 0 <= U / d0 < 2 ^ (LIMB * len_ a - 1)).
  { split; [apply Z.div_pos; lia|].
    apply Z.div_lt_upper_bound; [lia|]. nia. }
  destruct (Z.eqb_spec (len_ a) 1) as [HL1|HL1].
  - (* one limb *)
    rewrite rd_ok by (unfold cap_ in *; lia). cbn [bind].
    rewrite wr_ok by (unfold cap_ in *; lia). cbn [bind].
    assert (HU0 : limb_at (val_ a) 0 = U).
    { symmetry. apply uval_one_limb; auto; lia. }
    rewrite HU0.
    set (q := mkBigInt (len_ a) (upd (val_ a) 0 (U / d0))).
    assert (Hq : wf LIMB q).
    { unfold wf, q, cap_. cbn [len_ val_]. rewrite length_upd.
      unfold cap_ in *. repeat split; try lia.
      apply in_range_upd; auto. rewrite HL1 in HUs, Hqb.
      replace (LIMB * 1 - 1) with (LIMB - 1) in * by lia.
      assert (2 ^ (LIMB - 1) < 2 ^ LIMB) by (apply Z.pow_lt_mono_r; lia). lia. }
    assert (Hqu : uval LIMB q = U / d0).
    { rewrite (uval_one_limb LIMB q) by (destruct Hq; cbn [q len_] in *; lia).
      cbn [q val_]. apply limb_at_upd_same. unfold cap_ in *. lia. }
    exists (ShrinkLen LIMB q). split.
    + destruct (Z.eqb_spec ((U mod d0)) 0) as [E|E]; cbn [andb negb];
        rewrite Z.mod_mod by lia; rewrite Hmod; reflexivity.
    + pose proof Hq as (Hq1 & Hq2 & Hq3).
      rewrite toZ_ShrinkLen by auto.
      unfold toZ. rewrite uval_Sign_false; [exact Hqu|exact Hq|].
      rewrite Hqu. cbn [q len_]. lia.
  - destruct (Z.eqb_spec tmp 1); [contradiction|].
    destruct (basic_div_loop_spec (Z.to_nat (len_ a)) d0 0 (val_ a))
      as (t' & v' & H1 & H2 & H3 & H4 & H5 & H6); auto; try lia.
    { unfold cap_ in *. lia. }
    rewrite H1. cbn [bind].
    rewrite Z.mod_0_l, Z.mul_0_l, Z.add_0_l in H4, H5 by lia.
    fold (uval LIMB a) in H4, H5. fold U in H4, H5.
    set (q := mkBigInt (len_ a) v').
    assert (Hq : wf LIMB q).
    { unfold wf, q, cap_. cbn [len_ val_]. rewrite H2. unfold cap_ in *.
      repeat split; auto; lia. }
    assert (Hqu : uval LIMB q = U / d0) by exact H4.
    exists (ShrinkLen LIMB q). split.
    + cbn [andb]. rewrite H5, Hmod. reflexivity.
    + pose proof Hq as (Hq1 & Hq2 & Hq3).
      rewrite toZ_ShrinkLen by auto.
      unfold toZ. rewrite uval_Sign_false; [exact Hqu|exact Hq|].
      rewrite Hqu. cbn [q len_]. lia.
Qed.

End BasicDivision.

(** ** Four-way agreement *)

Section LongDivisionSmallCases.
Variable LIMB : Z.
Hypothesis LIMB_range : 0 < LIMB <= 32.

Let LIMB_pos : 0 < LIMB.
Proof. lia. Qed.

Lemma norm_loop_spec (k : nat) :
  forall (fuel : nat) (t mov : Z),
    2 ^ (LIMB - 1 - Z.of_nat k) <= t < 2 ^ LIMB ->
    Z.of_nat k <= LIMB - 1 -> (k <= fuel)%nat ->
    exists m, norm_loop LIMB fuel t mov = Ok m.
Proof.
  induction k as [|k IH]; intros fuel t mov Ht Hk Hf.
  - exists mov. change (Z.of_nat 0) with 0 in Ht. rewrite Z.sub_0_r in Ht.
    destruct fuel; cbn [norm_loop];
      destruct (Z.ltb_spec t (2 ^ (LIMB - 1))); try lia; reflexivity.
  - destruct (Z.ltb_spec t (2 ^ (LIMB - 1))) as [Hlt|Hge].
    + destruct fuel as [|f]; [lia|].
      cbn [norm_loop]. destruct (Z.ltb_spec t (2 ^ (LIMB - 1))); [|lia].
      assert (E2 : 2 ^ LIMB = 2 * 2 ^ (LIMB - 1)).
      { rewrite <- Z.pow_succ_r by lia. f_equal. lia. }
      assert (E3 : 2 ^ (LIMB - 1 - Z.of_nat k)
                   = 2 * 2 ^ (LIMB - 1 - Z.of_nat (S k))).
      { rewrite <- Z.pow_succ_r by lia. f_equal. lia. }
      apply IH; try lia.
      rewrite Z.shiftl_mul_pow2 by lia. change (2 ^ 1) with 2.
      unfold limb. rewrite Z.mod_small; lia.
    + exists mov. destruct fuel; cbn [norm_loop];
        destruct (Z.ltb_spec t (2 ^ (LIMB - 1))); try lia; reflexivity.
Qed.

Lemma wf_BigInt_of_int_0 : wf LIMB (BigInt_of_int LIMB 0).
Proof.
  unfold wf, BigInt_of_int, cap_, limb. cbn [len_ val_ length].
  rewrite Zmod_0_l. pose proof (pow_LIMB_pos LIMB LIMB_pos).
  repeat split; try lia. repeat constructor; lia.
Qed.

(** The branches of the long division taken for a non-negative dividend
    that fits 64 bits and a positive one-limb divisor. *)
Lemma small_cases_nonneg (a b m0 : BigInt) :
  wf LIMB a -> Sign LIMB a = false -> len_ a <= 64 / LIMB ->
  wf LIMB b -> len_ b = 1 -> Sign LIMB b = false ->
  0 < limb_at (val_ b) 0 ->
  wf LIMB m0 -> len_ m0 = 1 ->
  exists q m,
    small_cases LIMB a b (Some m0) = Some (Ok (q, Some m)) /\
    toZ LIMB (ShrinkLen LIMB q) = uval LIMB a / limb_at (val_ b) 0 /\
    toZ LIMB (ShrinkLen LIMB m) = uval LIMB a mod limb_at (val_ b) 0.
Proof.
  intros Ha Hsa HaL Hb HbL Hsb Hd0 Hm0 Hm0L.
  pose proof (pow_LIMB_pos LIMB LIMB_pos) as HB.
  pose proof (words_per_64 LIMB LIMB_range) as Hw.
  unfold small_cases.
  destruct (BigInt_ltb LIMB a b) eqn:Hlt.
  - (* |a| < d: quotient 0, remainder a *)
    pose proof Ha as (Hal & Hac & Hav).
    assert (HL1 : len_ a = 1 /\ limb_at (val_ a) 0 < limb_at (val_ b) 0).
    { unfold BigInt_ltb, Compare in Hlt. rewrite Hsa, Hsb, HbL in Hlt.
      destruct (Z.ltb_spec (len_ a) 1); [lia|].
      destruct (Z.ltb_spec 1 (len_ a)); [discriminate|].
      assert (E : len_ a = 1) by lia. split; [exact E|].
      rewrite E in Hlt. change (Z.to_nat 1) with 1%nat in Hlt.
      cbn [cmp_limbs] in Hlt. change (Z.of_nat 0) with 0 in Hlt.
      destruct (Z.compare_spec (limb_at (val_ a) 0) (limb_at (val_ b) 0));
        try discriminate; lia. }
    destruct HL1 as (HL1 & Hless).
    assert (HU : uval LIMB a = limb_at (val_ a) 0) by (apply uval_one_limb; lia).
    pose proof (in_range_limb_at LIMB LIMB_pos (val_ a) 0 Hav) as Hr0.
    assert (Hf0 : limb_at (fill (val_ a) 0 (len_ a) 0) 0 = 0).
    { rewrite limb_at_fill by lia.
      destruct (Z.leb_spec 0 0); [|lia].
      destruct (Z.ltb_spec 0 (len_ a)); [|lia].
      destruct (Z.ltb_spec 0 (Z.of_nat (length (val_ a))));
        [reflexivity|unfold cap_ in *; lia]. }
    assert (Hcq : 1 <= cap_ (mkBigInt 1 (fill (val_ a) 0 (len_ a) 0))).
    { unfold cap_. cbn [val_]. rewrite length_fill. unfold cap_ in *. lia. }
    eexists. eexists. split; [reflexivity|].
    rewrite !toZ_ShrinkLen; auto; try lia.
    + split.
      * rewrite Z.div_small by lia.
        unfold toZ. rewrite Sign_false_of_small.
        -- rewrite uval_one_limb by auto. exact Hf0.
        -- cbn [len_ val_]. change (1 - 1) with 0. rewrite Hf0.
           assert (0 < 2 ^ (LIMB - 1)) by (apply Z.pow_pos_nonneg; lia). lia.
      * rewrite Z.mod_small by lia. unfold toZ. rewrite Hsa. reflexivity.
    + cbn [val_]. apply in_range_fill; auto. lia.
    + cbn [len_]. lia.
  - rewrite HbL.
    destruct (Z.leb_spec 1 (64 / LIMB)); [|lia].
    destruct (Z.leb_spec (len_ a) (64 / LIMB)); [|lia]. cbn [andb].
    destruct (PlainDivEq_nonneg LIMB LIMB_range a b m0)
      as (q & m & Hp & Hq & Hm & Hqv & Hql & Hmv & Hml); auto.
    exists q, m. rewrite Hp. split; [reflexivity|].
    rewrite !toZ_ShrinkLen by auto. auto.
Qed.

Lemma toZ_one_limb_nonneg (b : BigInt) :
  wf LIMB b -> len_ b = 1 -> Sign LIMB b = false ->
  toZ LIMB b = limb_at (val_ b) 0.
Proof.
  intros (Hl & Hc & Hv) HbL Hs. unfold toZ. rewrite Hs.
  apply uval_one_limb; lia.
Qed.

Lemma DivEqAlgA_nonneg (fuel : nat) (a b m0 : BigInt) :
  wf LIMB a -> Sign LIMB a = false -> len_ a <= 64 / LIMB ->
  wf LIMB b -> len_ b = 1 -> Sign LIMB b = false ->
  0 < limb_at (val_ b) 0 ->
  wf LIMB m0 -> len_ m0 = 1 ->
  (Z.to_nat (LIMB - 1) <= fuel)%nat ->
  exists q m,
    DivEqAlgA LIMB fuel a b (Some m0) = Ok (q, Some m) /\
    toZ LIMB q = uval LIMB a / limb_at (val_ b) 0 /\
    toZ LIMB m = uval LIMB a mod limb_at (val_ b) 0.
Proof.
  intros Ha Hsa HaL Hb HbL Hsb Hd0 Hm0 Hm0L Hf.
  destruct (small_cases_nonneg a b m0) as (q & m & Hsc & Hq & Hm); auto.
  pose proof Hb as (Hbl & Hbc & Hbv).
  pose proof (in_range_limb_at LIMB LIMB_pos (val_ b) 0 Hbv) as Hr0.
  unfold DivEqAlgA.
  assert (Hne : BigInt_eqb LIMB b (BigInt_of_int LIMB 0) = false).
  { unfold BigInt_eqb. rewrite toZ_BigInt_of_int_0, toZ_one_limb_nonneg by auto.
    apply Z.eqb_neq. lia. }
  rewrite Hne, Hsa, Hsb, HbL. change (u64 (1 - 1)) with 0.
  rewrite rd_ok by (unfold cap_ in *; lia). cbn [bind].
  destruct (norm_loop_spec (Z.to_nat (LIMB - 1)) fuel (limb_at (val_ b) 0) 0)
    as (mov & Hmov); try lia.
  { rewrite Z2Nat.id by lia. replace (LIMB - 1 - (LIMB - 1)) with 0 by lia.
    simpl. lia. }
  rewrite Hmov. cbn [bind]. rewrite Hsc. cbn [bind finish].
  eexists. eexists. split; [reflexivity|]. auto.
Qed.

Lemma DivEqAlgB_nonneg (fuel : nat) (a b m0 : BigInt) :
  wf LIMB a -> Sign LIMB a = false -> len_ a <= 64 / LIMB ->
  wf LIMB b -> len_ b = 1 -> Sign LIMB b = false ->
  0 < limb_at (val_ b) 0 ->
  wf LIMB m0 -> len_ m0 = 1 ->
  (Z.to_nat (LIMB - 1) <= fuel)%nat ->
  exists q m,
    DivEqAlgB LIMB fuel a b (Some m0) = Ok (q, Some m) /\
    toZ LIMB q = uval LIMB a / limb_at (val_ b) 0 /\
    toZ LIMB m = uval LIMB a mod limb_at (val_ b) 0.
Proof.
  intros Ha Hsa HaL Hb HbL Hsb Hd0 Hm0 Hm0L Hf.
  pose proof (DivEqAlgA_nonneg fuel a b m0 Ha Hsa HaL Hb HbL Hsb Hd0 Hm0 Hm0L Hf) as HA.
  unfold DivEqAlgB.
  destruct (LIMB =? 32); [exact HA|].
  assert (Hne : BigInt_eqb LIMB b (BigInt_of_int LIMB 0) = false).
  { unfold BigInt_eqb. rewrite toZ_BigInt_of_int_0, toZ_one_limb_nonneg by auto.
    apply Z.eqb_neq. lia. }
  rewrite Hne.
  destruct (21 <? LIMB); [exact HA|].
  destruct (small_cases_nonneg a b m0) as (q & m & Hsc & Hq & Hm); auto.
  rewrite Hsa, Hsb, Hsc. cbn [bind finish].
  eexists. eexists. split; [reflexivity|]. auto.
Qed.

(** [BasicDivEq] on a non-negative dividend of one limb: the [len_ == 1]
    arm sets [t] for every divisor, a power of two or not. *)
Lemma BasicDivEq_nonneg_one_limb (a : BigInt) (d0 m0 : Z) :
  wf LIMB a -> Sign LIMB a = false -> len_ a = 1 ->
  2 <= d0 < 2 ^ LIMB ->
  exists q,
    BasicDivEq LIMB a d0 (Some m0) = Ok (q, Some (uval LIMB a mod d0)) /\
    toZ LIMB q = uval LIMB a / d0.
Proof.
  intros Ha Hsa HL1 Hd.
  pose proof (pow_LIMB_pos LIMB LIMB_pos) as HB.
  pose proof (uval_bounds LIMB LIMB_range a Ha) as HU.
  pose proof (Sign_false_uval LIMB LIMB_range a Ha Hsa) as HUs.
  pose proof Ha as (Hl & Hc & Hv).
  set (U := uval LIMB a) in *.
  unfold BasicDivEq.
  destruct (Z.eqb_spec d0 0); [lia|]. destruct (Z.eqb_spec d0 1); [lia|].
  cbn [orb]. rewrite Hsa.
  destruct (ctz_loop_spec LIMB (Z.to_nat LIMB) (Z.to_nat LIMB) d0 0)
    as (tmp & lg & e & Hctz & He & Hde).
  { rewrite Z2Nat.id by lia. lia. } { lia. }
  rewrite Hctz. cbn [bind].
  assert (Hmod : limb LIMB (U mod d0) = U mod d0).
  { unfold limb. apply Z.mod_small.
    pose proof (Z.mod_pos_bound U d0 ltac:(lia)). lia. }
  assert (Hqb : 0 <= U / d0 < 2 ^ (LIMB * len_ a - 1)).
  { split; [apply Z.div_pos; lia|].
    apply Z.div_lt_upper_bound; [lia|]. nia. }
  destruct (Z.eqb_spec (len_ a) 1) as [_|HL]; [|contradiction].
  rewrite rd_ok by (unfold cap_ in *; lia). cbn [bind].
  rewrite wr_ok by (unfold cap_ in *; lia). cbn [bind].
  assert (HU0 : limb_at (val_ a) 0 = U).
  { symmetry. apply uval_one_limb; auto; lia. }
  rewrite HU0.
  set (q := mkBigInt (len_ a) (upd (val_ a) 0 (U / d0))).
  assert (Hq : wf LIMB q).
  { unfold wf, q, cap_. cbn [len_ val_]. rewrite length_upd.
    unfold cap_ in *. repeat split; try lia.
    apply in_range_upd; auto. rewrite HL1 in HUs, Hqb.
    replace (LIMB * 1 - 1) with (LIMB - 1) in * by lia.
    assert (2 ^ (LIMB - 1) < 2 ^ LIMB) by (apply Z.pow_lt_mono_r; lia). lia. }
  assert (Hqu : uval LIMB q = U / d0).
  { rewrite (uval_one_limb LIMB q) by (destruct Hq; cbn [q len_] in *; lia).
    cbn [q val_]. apply limb_at_upd_same. unfold cap_ in *. lia. }
  exists (ShrinkLen LIMB q). split.
  - destruct (Z.eqb_spec ((U mod d0)) 0) as [E|E]; cbn [andb negb];
      rewrite Z.mod_mod by lia; rewrite Hmod; reflexivity.
  - pose proof Hq as (Hq1 & Hq2 & Hq3).
    rewrite toZ_ShrinkLen by auto.
    unfold toZ. rewrite (uval_Sign_false LIMB LIMB_range); [exact Hqu|exact Hq|].
    rewrite Hqu. cbn [q len_]. lia.
Qed.

(** C3, as amended. For a non-negative dividend that fits 64 bits and a
    positive one-limb divisor [>= 2], [PlainDiv], [BasicDiv], [DivAlgA]
    and [DivAlgB] return the same quotient and write the same remainder,
    when the dividend has one limb or the divisor is not a power of two:
    only the shift arm of [BasicDivEq], taken for a power of two and a
    dividend of several limbs, leaves [t] unset. *)
Theorem four_way_agreement_nonneg (fuel : nat) (a b : BigInt) :
  wf LIMB a -> Sign LIMB a = false -> len_ a <= 64 / LIMB ->
  wf LIMB b -> len_ b = 1 -> Sign LIMB b = false ->
  2 <= limb_at (val_ b) 0 ->
  len_ a = 1 \/ ~ is_pow2 (limb_at (val_ b) 0) ->
  (Z.to_nat (LIMB - 1) <= fuel)%nat ->
  four_way_agree LIMB fuel a b.
Proof.
  intros Ha Hsa HaL Hb HbL Hsb Hd0 Hnp Hf.
  pose proof wf_BigInt_of_int_0 as Hz.
  pose proof Hb as (Hbl & Hbc & Hbv).
  pose proof (in_range_limb_at LIMB LIMB_pos (val_ b) 0 Hbv) as Hr0.
  destruct (PlainDivEq_nonneg LIMB LIMB_range a b (BigInt_of_int LIMB 0))
    as (qP & mP & HP & HqP & HmP & _); auto; try lia.
  assert (HSq : exists qS,
            BasicDivEq LIMB a (limb_at (val_ b) 0) (Some 0)
            = Ok (qS, Some (uval LIMB a mod limb_at (val_ b) 0)) /\
            toZ LIMB qS = uval LIMB a / limb_at (val_ b) 0).
  { destruct Hnp as [HL1|Hnp].
    - apply BasicDivEq_nonneg_one_limb; auto; lia.
    - apply (BasicDivEq_nonneg LIMB LIMB_range); auto; lia. }
  destruct HSq as (qS & HS & HqS).
  destruct (DivEqAlgA_nonneg fuel a b (BigInt_of_int LIMB 0))
    as (qA & mA & HA & HqA & HmA); auto; try lia.
  destruct (DivEqAlgB_nonneg fuel a b (BigInt_of_int LIMB 0))
    as (qB & mB & HB & HqB & HmB); auto; try lia.
  unfold four_way_agree, PlainDiv, BasicDiv, DivAlgA, DivAlgB.
  exists qP, mP, qS, (uval LIMB a mod limb_at (val_ b) 0), qA, mA, qB, mB.
  repeat split; auto; congruence.
Qed.

End LongDivisionSmallCases.

(** C3. With 16-bit limbs and [-17 / 5], [PlainDiv] writes the remainder
    [-2] and [BasicDiv] writes [5 - 2 = 3]. *)
Lemma four_way_agreement_fails_negative_dividend :
  ~ four_way_agree 16 16 (mkBigInt 1 [65519]) (mkBigInt 1 [5]).
Proof.
  intros (qP & mP & qS & mS & qA & mA & qB & mB & HP & HS & _ & _ & _ & _ & _ & Hm & _).
  vm_compute in HP. vm_compute in HS.
  injection HP as _ EmP. injection HS as _ EmS.
  rewrite <- EmP, <- EmS in Hm. vm_compute in Hm. discriminate Hm.
Qed.

Lemma four_way_agreement_nonneg_witness :
  four_way_agree 16 15 (mkBigInt 2 [3; 1]) (mkBigInt 1 [7]).
Proof.
  apply (four_way_agreement_nonneg 16 ltac:(lia) 15 (mkBigInt 2 [3; 1]) (mkBigInt 1 [7])).
  - split; [vm_compute; split; discriminate|].
    split; [reflexivity|]. repeat constructor; lia.
  - reflexivity.
  - vm_compute. discriminate.
  - split; [vm_compute; split; discriminate|].
    split; [reflexivity|]. repeat constructor; lia.
  - reflexivity.
  - reflexivity.
  - vm_compute. discriminate.
  - right. intros (e & He & H). cbn in H.
    assert (e < 3).
    { destruct (Z.lt_ge_cases e 3); auto.
      assert (2 ^ 3 <= 2 ^ e) by (apply Z.pow_le_mono_r; lia). lia. }
    assert (e = 0 \/ e = 1 \/ e = 2) by lia.
    destruct H1 as [ E | [ E | E ] ]; subst e; discriminate H.
  - vm_compute. lia.
Defined.

(** ** The dispatch of [operator/=] *)

(** C4. [a /= b] runs [PlainDivEq] when both operands fit 64 bits, else
    [BasicDivEq] on the limb of a one-limb divisor, else Algorithm A when
    [LIMB > 21] and Algorithm B when [LIMB <= 21]; and with [LIMB > 21]
    [DivEqAlgB] is [DivEqAlgA]. *)
Theorem division_dispatch (LIMB : Z) (fuel : nat) (a b : BigInt) :
  let fits := (len_ a <=? 64 / LIMB) && (len_ b <=? 64 / LIMB) in
  (fits = true ->
   div_eq LIMB fuel a b = (' (q, _) <- PlainDivEq LIMB a b None ;; Ok q)) /\
  (fits = false -> len_ b = 1 ->
   div_eq LIMB fuel a b =
   (r0 <- rd (val_ b) 0 ;; ' (q, _) <- BasicDivEq LIMB a r0 None ;; Ok q)) /\
  (fits = false -> len_ b <> 1 -> 21 < LIMB ->
   div_eq LIMB fuel a b = (' (q, _) <- DivEqAlgA LIMB fuel a b None ;; Ok q)) /\
  (fits = false -> len_ b <> 1 -> LIMB <= 21 ->
   div_eq LIMB fuel a b = (' (q, _) <- DivEqAlgB LIMB fuel a b None ;; Ok q)) /\
  (21 < LIMB ->
   forall mod_, DivEqAlgB LIMB fuel a b mod_ = DivEqAlgA LIMB fuel a b mod_).
Proof.
  cbv zeta. unfold div_eq.
  repeat split.
  - intros ->. reflexivity.
  - intros -> ->. reflexivity.
  - intros -> Hb HL.
    destruct (Z.eqb_spec (len_ b) 1); [contradiction|].
    destruct (Z.ltb_spec 21 LIMB); [reflexivity|lia].
  - intros -> Hb HL.
    destruct (Z.eqb_spec (len_ b) 1); [contradiction|].
    destruct (Z.ltb_spec 21 LIMB); [lia|reflexivity].
  - intros HL mod_. unfold DivEqAlgB.
    destruct (LIMB =? 32); [reflexivity|].
    destruct (Z.ltb_spec 21 LIMB); [|lia].
    unfold DivEqAlgA.
    destruct (BigInt_eqb LIMB b (BigInt_of_int LIMB 0)); reflexivity.
Qed.

Lemma division_dispatch_witness :
  let a := mkBigInt 3 [0; 0; 1; 0] in
  let b := mkBigInt 2 [1; 1] in
  div_eq 32 31 a b = (' (q, _) <- DivEqAlgA 32 31 a b None ;; Ok q) /\
  DivEqAlgB 32 31 a b None = DivEqAlgA 32 31 a b None.
Proof.
  cbv zeta.
  destruct (division_dispatch 32 31 (mkBigInt 3 [0; 0; 1; 0]) (mkBigInt 2 [1; 1]))
    as (_ & _ & HA & _ & HB).
  split.
  - apply HA; [reflexivity|discriminate|lia].
  - apply HB. lia.
Defined.

(** ** Division by zero *)

Lemma BigInt_eqb_zero (LIMB : Z) :
  BigInt_eqb LIMB (BigInt_of_int LIMB 0) (BigInt_of_int LIMB 0) = true.
Proof. unfold BigInt_eqb. apply Z.eqb_refl. Qed.

(** C2. For every dividend [a], [a /= 0] leaves [a] unchanged on each path
    of the dispatch, but [a %= 0] does not: every routine returns before it
    writes [*mod], and [operator%=] then moves the untouched, default
    constructed [mod] (zero) into [*this]. *)
Theorem div_by_zero_keeps_mod_by_zero_clears (LIMB : Z) (fuel : nat) (a : BigInt) :
  div_eq LIMB fuel a (BigInt_of_int LIMB 0) = Ok a /\
  mod_eq LIMB fuel a (BigInt_of_int LIMB 0) = Ok (BigInt_of_int LIMB 0).
Proof.
  split.
  - unfold div_eq.
    destruct ((len_ a <=? 64 / LIMB) && (len_ (BigInt_of_int LIMB 0) <=? 64 / LIMB)).
    + unfold PlainDivEq. rewrite BigInt_eqb_zero. reflexivity.
    + cbn [len_ BigInt_of_int val_].
      unfold rd, limb. rewrite Zmod_0_l. cbn. reflexivity.
  - unfold mod_eq.
    destruct ((len_ a <=? 64 / LIMB) && (len_ (BigInt_of_int LIMB 0) <=? 64 / LIMB)).
    + unfold PlainDivEq. rewrite BigInt_eqb_zero. reflexivity.
    + destruct (21 <? LIMB).
      * unfold DivEqAlgA. rewrite BigInt_eqb_zero. reflexivity.
      * unfold DivEqAlgB, DivEqAlgA. rewrite BigInt_eqb_zero.
        destruct (LIMB =? 32); reflexivity.
Qed.

(** ** The code at concrete inputs *)

(** C1. With 16-bit limbs, [17 / -5] and [17 % -5]: [PlainDivEq] negates
    the packed divisor in 64 bits ([y = 0 - y]) although only its 16 low
    bits were filled, so the divisor becomes [2^64 - 65531]; the quotient
    is 0 and the remainder 17, whose magnitude is not below [|-5|]. *)
Theorem division_identity_fails_negative_divisor :
  let a := mkBigInt 1 [17] in
  let b := mkBigInt 1 [65531] in
  toZ 16 a = 17 /\ toZ 16 b = -5 /\
  exists q r,
    div_eq 16 0 a b = Ok q /\ mod_eq 16 0 a b = Ok r /\
    toZ 16 q = 0 /\ toZ 16 r = 17 /\
    ~ (Z.abs (toZ 16 r) < Z.abs (toZ 16 b)).
Proof.
  cbv zeta. split; [reflexivity|]. split; [reflexivity|].
  eexists. eexists.
  split; [vm_compute; reflexivity|].
  split; [vm_compute; reflexivity|].
  split; [reflexivity|]. split; [reflexivity|].
  vm_compute. intros H; discriminate H.
Qed.

(** C6. With 16-bit limbs, [BasicDivEq(4, &mod)] on 65539 (two limbs) takes
    the right-shift path, which never sets [t]: the remainder written is 0,
    not [65539 mod 4 = 3]. *)
Theorem BasicDivEq_remainder_lost_on_shift_path :
  let a := mkBigInt 2 [3; 1] in
  toZ 16 a = 65539 /\ 65539 mod 4 = 3 /\
  BasicDivEq 16 a 4 (Some 0) = Ok (mkBigInt 1 [16384; 0], Some 0).
Proof. cbv zeta. repeat split; vm_compute; reflexivity. Qed.

(** On the long path the test is [sign && t] with [t] not yet reduced: for
    [-65538 = -3 * 21846] the remainder written is [3 - 0 = 3], the divisor
    itself. *)
Lemma BasicDivEq_remainder_of_negative_multiple :
  let a := mkBigInt 2 [65534; 65534] in
  toZ 16 a = -65538 /\ 65538 mod 3 = 0 /\
  BasicDivEq 16 a 3 (Some 0) = Ok (mkBigInt 1 [43690; 0], Some 3).
Proof. cbv zeta. repeat split; vm_compute; reflexivity. Qed.

(** C7. With 16-bit limbs, [1 << 16]: in the [r == 0] arm the copy loop
    stops above index [q] and nothing stores [val_[0]] at [val_[q]], so
    the result is 0, not [2^16]; shifting back gives 0, not 1. *)
Theorem shift_laws_fail_on_whole_limb_shift :
  let a := mkBigInt 1 [1] in
  toZ 16 a = 1 /\
  shl_eq 16 a 16 = mkBigInt 1 [0; 0] /\
  toZ 16 (shl_eq 16 a 16) <> toZ 16 a * 2 ^ 16 /\
  toZ 16 (shr_eq 16 (shl_eq 16 a 16) 16) <> toZ 16 a.
Proof. cbv zeta. repeat split; vm_compute; try reflexivity; discriminate. Qed.

(** C8. With 16-bit limbs, [32768 % 32769]: the remainder 32768 is stored
    in one limb [0x8000] without the zero limb that the quotient gets from
    [if (Sign()) SetLen(len_ + 1, false)], so it reads as [-32768]; and
    [16384 << 1] drops its zero top limb and reads as [-32768] too. *)
Theorem PlainDivEq_remainder_and_shl_break_sign_invariant :
  let a := mkBigInt 2 [32768; 0] in
  let b := mkBigInt 2 [32769; 0] in
  let c := mkBigInt 1 [16384] in
  toZ 16 a = 32768 /\ toZ 16 b = 32769 /\
  (exists q m,
     PlainDivEq 16 a b (Some (BigInt_of_int 16 0)) = Ok (q, Some m) /\
     mod_eq 16 0 a b = Ok m /\
     len_ m = 1 /\ Sign 16 m = true /\ toZ 16 m = -32768) /\
  toZ 16 c = 16384 /\
  Sign 16 (shl_eq 16 c 1) = true /\ toZ 16 (shl_eq 16 c 1) = -32768.
Proof.
  cbv zeta. split; [reflexivity|]. split; [reflexivity|].
  split.
  - eexists. eexists. split; [vm_compute; reflexivity|].
    repeat split; vm_compute; reflexivity.
  - repeat split; vm_compute; reflexivity.
Qed.

(** With a shift [mov <> 0], the reads for [v2] leave the buffer of every
    two-limb divisor. *)
Lemma AlgA_v_two_limb_divisor (LIMB : Z) (d : BigInt) (mov : Z) :
  len_ d = 2 -> mov <> 0 -> cap_ d < 2 ^ 64 ->
  AlgA_v LIMB d mov = Err OutOfBounds.
Proof.
  intros Hl Hm Hc. unfold AlgA_v. rewrite Hl.
  destruct (Z.eqb_spec mov 0); [contradiction|]. cbn [negb].
  unfold rd at 1.
  destruct ((0 <=? u64 (2 - 1)) && (u64 (2 - 1) <? Z.of_nat (length (val_ d))));
    [|reflexivity].
  cbn [bind]. unfold rd at 1.
  destruct ((0 <=? u64 (2 - 2)) && (u64 (2 - 2) <? Z.of_nat (length (val_ d))));
    [|reflexivity].
  cbn [bind]. unfold rd.
  change (u64 (2 - 3)) with (2 ^ 64 - 1).
  destruct (Z.ltb_spec (2 ^ 64 - 1) (Z.of_nat (length (val_ d)))).
  - unfold cap_ in Hc. lia.
  - rewrite andb_false_r. reflexivity.
Qed.

(** C9. With 32-bit limbs, [2^64 / (2^32 + 1)]: the divisor has two limbs
    and is shifted by [mov = 31], the long division is reached, and the
    read of [rhs.val_[rhs.len_ - 3]] for [v2] is at index [size_t(-1)]. *)
Theorem AlgA_reads_outside_the_divisor_buffer :
  let a := mkBigInt 3 [0; 0; 1; 0] in
  let d := mkBigInt 2 [1; 1] in
  toZ 32 a = 2 ^ 64 /\ toZ 32 d = 2 ^ 32 + 1 /\
  norm_loop 32 31 1 0 = Ok 31 /\
  small_cases 32 a d None = None /\
  u64 (len_ d - 3) = SIZE_MAX /\
  rd (val_ d) (u64 (len_ d - 3)) = Err OutOfBounds /\
  AlgA_v 32 d 31 = Err OutOfBounds /\
  AlgA_u 32 a (len_ d) 0 31 1 = Err OutOfBounds /\
  DivEqAlgA 32 31 a d None = Err OutOfBounds /\
  div_eq 32 31 a d = Err OutOfBounds.
Proof. cbv zeta. repeat split; vm_compute; reflexivity. Qed.

(** The normalization loop of [DivEqAlgA] never ends when the top limb of
    the divisor is zero, as it is for [2^31] with 32-bit limbs (limbs
    [[0x80000000; 0]]): [test_tmp <<= 1] keeps it at zero. *)
Lemma norm_loop_never_ends_on_zero (LIMB : Z) (fuel : nat) (mov : Z) :
  0 < LIMB -> norm_loop LIMB fuel 0 mov = Err OutOfFuel.
Proof.
  intros HL. revert mov. induction fuel as [|f IH]; intros mov; cbn [norm_loop].
  - destruct (Z.ltb_spec 0 (2 ^ (LIMB - 1))); [reflexivity|].
    assert (0 < 2 ^ (LIMB - 1)) by (apply Z.pow_pos_nonneg; lia). lia.
  - destruct (Z.ltb_spec 0 (2 ^ (LIMB - 1))).
    + rewrite Z.shiftl_0_l. unfold limb. rewrite Zmod_0_l. apply IH.
    + assert (0 < 2 ^ (LIMB - 1)) by (apply Z.pow_pos_nonneg; lia). lia.
Qed.

Lemma DivEqAlgA_never_ends_on_zero_top_limb (fuel : nat) :
  div_eq 32 fuel (mkBigInt 3 [0; 0; 1; 0]) (mkBigInt 2 [2147483648; 0])
  = Err OutOfFuel.
Proof.
  unfold div_eq. cbn [len_ val_].
  change ((3 <=? 64 / 32) && (2 <=? 64 / 32)) with false. cbv iota.
  change (2 =? 1) with false. change (21 <? 32) with true. cbv iota.
  unfold DivEqAlgA.
  change (BigInt_eqb 32 (mkBigInt 2 [2147483648; 0]) (BigInt_of_int 32 0)) with false.
  cbv iota.
  change (Sign 32 (mkBigInt 3 [0; 0; 1; 0])) with false.
  change (Sign 32 (mkBigInt 2 [2147483648; 0])) with false. cbv iota.
  change (rd (val_ (mkBigInt 2 [2147483648; 0])) (u64 (len_ (mkBigInt 2 [2147483648; 0]) - 1)))
    with (@Ok Z 0).
  cbn [bind]. rewrite norm_loop_never_ends_on_zero by lia. reflexivity.
Qed.

(** C5. With 32-bit limbs, [(2^96 + 2^64) / (2^64 + 2^32)], true quotient
    [2^32]: the round at position 1 subtracts [(d * 1) << 32], which
    [operator<<=] computes as [2^96 + 2^64 + 2^32], adds the same back and
    leaves the remainder unreduced; at position 0 the trial quotient is
    clamped to [2^32 - 1], [r = 2^32] makes [b * r] wrap to 0 in
    [uint64_t], and the refinement yields [2^32 - 2], while the remainder
    holds [2^32] times the divisor and the true quotient digit is 0. *)
Theorem trial_quotient_off_by_two_after_shifted_subtraction :
  let a := mkBigInt 4 [0; 0; 1; 1] in
  let d := mkBigInt 3 [0; 1; 1; 0] in
  let result :=
    SetLen 32 (BigInt_of_int 32 0) (u64 (len_ a - len_ d + 2)) false in
  toZ 32 a = 2 ^ 96 + 2 ^ 64 /\ toZ 32 d = 2 ^ 64 + 2 ^ 32 /\
  small_cases 32 a d None = None /\
  norm_loop 32 31 1 0 = Ok 31 /\
  AlgA_v 32 d 31 = Ok (2 ^ 31, 2 ^ 31) /\
  exists a1 result1 u1 w1 w2 q,
    AlgA_step 32 d 31 (2 ^ 31) (2 ^ 31) 1 (a, result, 1)
    = Ok (a1, result1, u1) /\
    AlgA_u 32 a1 (len_ d) 0 31 u1 = Ok (w1, w2) /\
    trial_quotient 32 w1 w2 (2 ^ 31) (2 ^ 31) = Ok q /\
    q = 2 ^ 32 - 2 /\
    toZ 32 a1 / (toZ 32 d * 2 ^ (32 * 0)) = 2 ^ 32 /\
    (toZ 32 a / toZ 32 d) mod 2 ^ 32 = 0 /\
    div_eq 32 31 a d = Ok (mkBigInt 2 [4294967294; 0; 0; 0]).
Proof.
  cbv zeta. repeat (split; [vm_compute; reflexivity|]).
  do 6 eexists.
  split; [vm_compute; reflexivity|].
  split; [vm_compute; reflexivity|].
  split; [vm_compute; reflexivity|].
  repeat split; vm_compute; reflexivity.
Qed.

(** * Further properties of the code *)

(** ** Right shift *)

Section RightShift.
Variable LIMB : Z.
Hypothesis LIMB_pos : 0 < LIMB.

Lemma limb_at_shr_loop_0 (n : nat) (i q : Z) (v : list Z) (j : Z) :
  0 <= i -> 0 <= q -> i + Z.of_nat n <= Z.of_nat (length v) ->
  limb_at (shr_loop_0 n i q v) j =
  if (i <=? j) && (j <? i + Z.of_nat n) then limb_at v (j + q) else limb_at v j.
Proof.
  revert i v. induction n as [|n IH]; intros i v Hi Hq Hlen.
  - simpl. destruct (Z.leb_spec i j), (Z.ltb_spec j (i + 0)); simpl; auto; lia.
  - cbn [shr_loop_0]. rewrite IH by (rewrite ?length_upd; lia).
    destruct (Z.leb_spec (i + 1) j), (Z.ltb_spec j (i + 1 + Z.of_nat n)),
      (Z.leb_spec i j), (Z.ltb_spec j (i + Z.of_nat (S n))); simpl; try lia.
    all: try (rewrite !limb_at_upd_other by lia; reflexivity).
    assert (j = i) by lia. subst j.
    rewrite limb_at_upd_same by lia. reflexivity.
Qed.

Lemma length_shr_loop_0 (n : nat) (i q : Z) (v : list Z) :
  length (shr_loop_0 n i q v) = length v.
Proof.
  revert i v. induction n as [|n IH]; intros; simpl; auto.
  rewrite IH. apply length_upd.
Qed.

Lemma digit_limb_shifted (U q j : Z) :
  0 <= q -> 0 <= j ->
  digit LIMB (U / 2 ^ (LIMB * q)) j = digit LIMB U (j + q).
Proof.
  intros Hq Hj. unfold digit.
  assert (0 < 2 ^ (LIMB * q)) by (apply Z.pow_pos_nonneg; nia).
  assert (0 < 2 ^ (LIMB * j)) by (apply Z.pow_pos_nonneg; nia).
  rewrite Z.div_div by lia.
  rewrite <- Z.pow_add_r by nia. do 3 f_equal. lia.
Qed.

(** Dropping a zero top limb keeps the unsigned reading. *)
Lemma uval_drop_zero_top (n : Z) (v : list Z) :
  1 <= n <= Z.of_nat (length v) -> limb_at v (n - 1) = 0 ->
  uval LIMB (mkBigInt (n - 1) v) = uval LIMB (mkBigInt n v).
Proof.
  intros Hn H0. unfold uval. cbn [len_ val_].
  replace (Z.to_nat n) with (S (Z.to_nat (n - 1))) by lia.
  rewrite uval_limbs_snoc by (auto; lia).
  rewrite Z2Nat.id, H0 by lia. lia.
Qed.

Lemma uval_zeroed (v : list Z) (hi : Z) :
  1 <= hi -> 1 <= Z.of_nat (length v) ->
  uval LIMB (mkBigInt 1 (fill v 0 hi 0)) = 0.
Proof.
  intros Hh Hl. unfold uval. cbn [len_ val_]. change (Z.to_nat 1) with 1%nat.
  destruct (fill v 0 hi 0) as [|h t] eqn:E.
  - reflexivity.
  - cbn [uval_limbs]. rewrite Z.mul_0_r, Z.add_0_r.
    rewrite <- (limb_at_cons_0 h t), <- E, limb_at_fill by lia.
    destruct (Z.leb_spec 0 0), (Z.ltb_spec 0 hi),
      (Z.ltb_spec 0 (Z.of_nat (length v))); simpl; lia.
Qed.

Lemma shr_eq_uval (a : BigInt) (k : Z) :
  wf LIMB a -> 0 <= k < 2 ^ 64 ->
  uval LIMB (shr_eq LIMB a k) = uval LIMB a / 2 ^ k.
Proof.
  intros (Hlen & Hcap & Hv) Hk.
  pose proof (pow_LIMB_pos LIMB LIMB_pos) as HB.
  set (L := len_ a) in *. set (q := k / LIMB). set (r := k mod LIMB).
  assert (Hr : 0 <= r < LIMB) by (apply Z.mod_pos_bound; lia).
  assert (Hq : 0 <= q) by (apply Z.div_pos; lia).
  assert (Hkqr : k = LIMB * q + r) by (apply Z.div_mod; lia).
  assert (Hqk : q <= k) by nia.
  assert (H2k : 0 < 2 ^ k) by (apply Z.pow_pos_nonneg; lia).
  assert (HU : 0 <= uval LIMB a < 2 ^ (LIMB * L)).
  { unfold uval. fold L.
    pose proof (uval_limbs_bounds LIMB LIMB_pos (Z.to_nat L) (val_ a) Hv
                  ltac:(unfold cap_ in *; lia)) as Hb.
    rewrite Z2Nat.id in Hb by lia. exact Hb. }
  assert (Hdig : forall j, 0 <= j < L ->
            limb_at (val_ a) j = digit LIMB (uval LIMB a) j).
  { intros j Hj. unfold uval. fold L.
    apply limb_at_digit; auto; unfold cap_ in *; lia. }
  unfold shr_eq. fold q r L.
  destruct (Z.lt_ge_cases q L) as [HqL|HqL].
  - (* some limbs are left *)
    set (nl := L - q).
    assert (Hnlb : nl = L - q) by reflexivity.
    assert (Hnl : u64 nl = nl).
    { unfold u64. apply Z.mod_small. unfold cap_ in *. lia. }
    rewrite Hnl.
    destruct (Z.ltb_spec L nl); [lia|].
    destruct (Z.eqb_spec nl 0); [lia|]. cbn [orb].
    set (X := uval LIMB a / 2 ^ k).
    assert (HX : 0 <= X < 2 ^ (LIMB * nl)).
    { unfold X. split; [apply Z.div_pos; lia|].
      apply Z.div_lt_upper_bound; [lia|].
      rewrite <- Z.pow_add_r by nia.
      apply Z.lt_le_trans with (2 ^ (LIMB * L)); [lia|].
      apply Z.pow_le_mono_r; [lia|]. nia. }
    (* the buffer after the copy loop and the fill *)
    set (v1 := if negb (r =? 0)
               then
                 let v1 := shr_loop_r LIMB (Z.to_nat (nl - 1)) 0 q r (val_ a) in
                 upd v1 (nl - 1) (limb LIMB (Z.shiftr (limb_at v1 (L - 1)) r))
               else shr_loop_0 (Z.to_nat nl) 0 q (val_ a)).
    set (v2 := if negb (q =? 0) then fill v1 nl L 0 else v1).
    assert (Hlv1 : length v1 = length (val_ a)).
    { unfold v1. destruct (negb (r =? 0)); cbv zeta;
        rewrite ?length_upd, ?length_shr_loop_r, ?length_shr_loop_0; reflexivity. }
    assert (Hlv2 : length v2 = length (val_ a)).
    { unfold v2. destruct (negb (q =? 0)); rewrite ?length_fill; exact Hlv1. }
    assert (Hv1 : forall j, 0 <= j < nl -> limb_at v1 j = digit LIMB X j).
    { intros j Hj. unfold v1.
      destruct (Z.eqb_spec r 0) as [Hr0|Hr0]; cbn [negb]; cbv zeta.
      - rewrite limb_at_shr_loop_0 by (unfold cap_ in *; lia).
        destruct (Z.leb_spec 0 j); [|lia].
        destruct (Z.ltb_spec j (0 + Z.of_nat (Z.to_nat nl))); [|lia]. cbn [andb].
        rewrite Hdig by lia. unfold X. rewrite Hkqr, Hr0, Z.add_0_r.
        symmetry. apply digit_limb_shifted; lia.
      - destruct (Z.eq_dec j (nl - 1)) as [->|Hne].
        + rewrite limb_at_upd_same
            by (rewrite length_shr_loop_r; unfold cap_ in *; lia).
          rewrite limb_at_shr_loop_r by (unfold cap_ in *; lia).
          destruct (Z.leb_spec 0 (L - 1)); [|lia].
          destruct (Z.ltb_spec (L - 1) (0 + Z.of_nat (Z.to_nat (nl - 1)))); [lia|].
          cbn [andb].
          rewrite Hdig by lia.
          (* top digit *)
          assert (H2r : 0 < 2 ^ r) by (apply Z.pow_pos_nonneg; lia).
          assert (HP : 0 < 2 ^ (LIMB * (L - 1))) by (apply Z.pow_pos_nonneg; nia).
          assert (HJ : 0 < 2 ^ (LIMB * (nl - 1))) by (apply Z.pow_pos_nonneg; nia).
          assert (Hsm : 0 <= uval LIMB a / 2 ^ (LIMB * (L - 1)) < 2 ^ LIMB).
          { split; [apply Z.div_pos; lia|].
            apply Z.div_lt_upper_bound; [lia|].
            rewrite <- Z.pow_add_r by nia.
            replace (LIMB * (L - 1) + LIMB) with (LIMB * L) by lia. lia. }
          unfold digit at 1. rewrite (Z.mod_small _ _ Hsm).
          rewrite Z.shiftr_div_pow2 by lia.
          assert (Hsm2 : 0 <= uval LIMB a / 2 ^ (LIMB * (L - 1)) / 2 ^ r < 2 ^ LIMB).
          { split; [apply Z.div_pos; lia|].
            apply Z.div_lt_upper_bound; [lia|]. nia. }
          unfold limb. rewrite (Z.mod_small _ _ Hsm2).
          unfold digit, X. rewrite Z.div_div by lia.
          rewrite (Z.div_div (uval LIMB a)) by lia.
          rewrite <- !Z.pow_add_r by nia.
          replace (k + LIMB * (nl - 1)) with (LIMB * (L - 1) + r) by lia.
          symmetry. apply Z.mod_small.
          rewrite Z.pow_add_r, <- Z.div_div by (try lia; nia). exact Hsm2.
        + rewrite limb_at_upd_other by lia.
          rewrite limb_at_shr_loop_r by (unfold cap_ in *; lia).
          destruct (Z.leb_spec 0 j); [|lia].
          destruct (Z.ltb_spec j (0 + Z.of_nat (Z.to_nat (nl - 1)))); [|lia].
          cbn [andb]. rewrite !Hdig by lia.
          unfold X. rewrite Hkqr. symmetry. apply digit_shifted; lia. }
    assert (Hv2 : forall j, 0 <= j < nl -> limb_at v2 j = digit LIMB X j).
    { intros j Hj. unfold v2. destruct (negb (q =? 0)); auto.
      rewrite limb_at_fill by lia.
      destruct (Z.leb_spec nl j); [lia|]. cbn [andb]. auto. }
    fold v1. fold v2.
    assert (Hfull : uval LIMB (mkBigInt nl v2) = X).
    { unfold uval. cbn [len_ val_].
      apply uval_limbs_of_digits; auto.
      - unfold cap_ in *. lia.
      - rewrite Z2Nat.id by lia. exact HX.
      - rewrite Z2Nat.id by lia. exact Hv2. }
    destruct (Z.ltb_spec 1 nl); cbn [andb].
    + destruct (Z.eqb_spec (limb_at v2 (nl - 1)) 0) as [Ht|Ht].
      * rewrite uval_AutoShrinkSize
          by (cbn [len_ val_]; unfold cap_ in *; cbn [val_]; lia).
        rewrite uval_drop_zero_top by (unfold cap_ in *; lia). exact Hfull.
      * rewrite uval_AutoShrinkSize
          by (cbn [len_ val_]; unfold cap_ in *; cbn [val_]; lia).
        exact Hfull.
    + rewrite uval_AutoShrinkSize
        by (cbn [len_ val_]; unfold cap_ in *; cbn [val_]; lia).
      exact Hfull.
  - (* everything is shifted out *)
    assert (Htest : (L <? u64 (L - q)) || (u64 (L - q) =? 0) = true).
    { destruct (Z.eq_dec q L) as [->|Hne].
      - rewrite Z.sub_diag. change (u64 0) with 0.
        rewrite Z.eqb_refl. apply orb_true_r.
      - assert (E : u64 (L - q) = 2 ^ 64 + (L - q)).
        { unfold u64. symmetry.
          apply Z.mod_unique with (q := -1); unfold cap_ in *; lia. }
        rewrite E. destruct (Z.ltb_spec L (2 ^ 64 + (L - q))); [reflexivity|lia]. }
    rewrite Htest.
    rewrite uval_AutoShrinkSize
      by (cbn [len_ val_]; unfold cap_ in *; cbn [val_]; rewrite length_fill; lia).
    rewrite uval_zeroed by (unfold cap_ in *; lia).
    symmetry. apply Z.div_small. split; [lia|].
    apply Z.lt_le_trans with (2 ^ (LIMB * L)); [lia|].
    apply Z.pow_le_mono_r; [lia|]. nia.
Qed.

(** X1. On the unsigned reading of the active limbs, [a >>= k] is the
    division by [2^k], for every shift count: also when whole limbs are
    shifted out, when the top limb becomes zero and is dropped, and when
    nothing is left. *)
Theorem shr_eq_unsigned_value (a : BigInt) (k : Z) :
  wf LIMB a -> 0 <= k < 2 ^ 64 ->
  uval LIMB (shr_eq LIMB a k) = uval LIMB a / 2 ^ k.
Proof. exact (shr_eq_uval a k). Qed.

End RightShift.

(** ** Bits of limbs and left shift *)

Section Bits.
Variable LIMB : Z.
Hypothesis LIMB_pos : 0 < LIMB.

Lemma testbit_digit (X j t : Z) :
  0 <= j -> 0 <= t < LIMB ->
  Z.testbit (digit LIMB X j) t = Z.testbit X (LIMB * j + t).
Proof.
  intros Hj Ht. unfold digit.
  rewrite Z.mod_pow2_bits_low by lia.
  rewrite Z.div_pow2_bits by nia. f_equal. lia.
Qed.

Lemma testbit_small (x t : Z) :
  0 <= x < 2 ^ LIMB -> LIMB <= t -> Z.testbit x t = false.
Proof.
  intros Hx Ht. destruct (Z.eq_dec x 0) as [->|Hne]; [apply Z.bits_0|].
  apply Z.bits_above_log2; [lia|].
  assert (Z.log2 x < LIMB) by (apply Z.log2_lt_pow2; lia). lia.
Qed.

(** A limb is the digit [j] of [X] when its bits are those of [X]. *)
Lemma digit_by_bits (x X j : Z) :
  0 <= j -> 0 <= x < 2 ^ LIMB ->
  (forall t, 0 <= t < LIMB -> Z.testbit x t = Z.testbit X (LIMB * j + t)) ->
  x = digit LIMB X j.
Proof.
  intros Hj Hx H. apply Z.bits_inj'. intros t Ht.
  destruct (Z.lt_ge_cases t LIMB).
  - rewrite testbit_digit by lia. apply H. lia.
  - rewrite testbit_small by lia. symmetry.
    apply testbit_small; [apply digit_range; auto|lia].
Qed.

Lemma testbit_limb (x t : Z) :
  0 <= t < LIMB -> Z.testbit (limb LIMB x) t = Z.testbit x t.
Proof. intros Ht. unfold limb. apply Z.mod_pow2_bits_low. lia. Qed.

End Bits.

Section LeftShift.
Variable LIMB : Z.
Hypothesis LIMB_pos : 0 < LIMB.

Lemma limb_at_shl_loop_r (n : nat) (q r : Z) (v : list Z) (j : Z) :
  0 <= q -> q + Z.of_nat n < Z.of_nat (length v) ->
  limb_at (shl_loop_r LIMB n q r v) j =
  if (q <? j) && (j <=? q + Z.of_nat n)
  then limb LIMB (Z.shiftl (limb_at v (j - q)) r
                  + Z.shiftr (limb_at v (j - q - 1)) (LIMB - r))
  else limb_at v j.
Proof.
  revert v. induction n as [|n IH]; intros v Hq Hlen.
  - simpl. destruct (Z.ltb_spec q j), (Z.leb_spec j (q + 0)); simpl; auto; lia.
  - cbn [shl_loop_r]. rewrite IH by (rewrite ?length_upd; lia).
    destruct (Z.ltb_spec q j), (Z.leb_spec j (q + Z.of_nat n)),
      (Z.leb_spec j (q + Z.of_nat (S n))); simpl; try lia.
    all: try (rewrite !limb_at_upd_other by lia; reflexivity).
    assert (j = q + Z.of_nat (S n)) by lia. subst j.
    rewrite limb_at_upd_same by lia. reflexivity.
Qed.

Lemma length_shl_loop_r (n : nat) (q r : Z) (v : list Z) :
  length (shl_loop_r LIMB n q r v) = length v.
Proof.
  revert v. induction n as [|n IH]; intros; simpl; auto.
  rewrite IH. apply length_upd.
Qed.

Lemma limb_at_shl_loop_0 (n : nat) (q : Z) (v : list Z) (j : Z) :
  0 <= q -> q + Z.of_nat n < Z.of_nat (length v) ->
  limb_at (shl_loop_0 n q v) j =
  if (q <? j) && (j <=? q + Z.of_nat n) then limb_at v (j - q) else limb_at v j.
Proof.
  revert v. induction n as [|n IH]; intros v Hq Hlen.
  - simpl. destruct (Z.ltb_spec q j), (Z.leb_spec j (q + 0)); simpl; auto; lia.
  - cbn [shl_loop_0]. rewrite IH by (rewrite ?length_upd; lia).
    destruct (Z.ltb_spec q j), (Z.leb_spec j (q + Z.of_nat n)),
      (Z.leb_spec j (q + Z.of_nat (S n))); simpl; try lia.
    all: try (rewrite !limb_at_upd_other by lia; reflexivity).
    assert (j = q + Z.of_nat (S n)) by lia. subst j.
    rewrite limb_at_upd_same by lia. reflexivity.
Qed.

Lemma length_shl_loop_0 (n : nat) (q : Z) (v : list Z) :
  length (shl_loop_0 n q v) = length v.
Proof.
  revert v. induction n as [|n IH]; intros; simpl; auto.
  rewrite IH. apply length_upd.
Qed.

Lemma grow_cap_le (fuel : nat) (cap target : Z) :
  1 <= cap -> grow_cap fuel cap target <= Z.max cap (2 * target).
Proof.
  revert cap. induction fuel as [|f IH]; intros cap Hc; cbn [grow_cap]; [lia|].
  destruct (Z.ltb_spec cap target); [|lia].
  specialize (IH (2 * cap) ltac:(lia)). lia.
Qed.

(** The buffer that [operator<<=] works on, once it holds [new_len] limbs:
    it reads as the digits of the unsigned value at every index. *)
Lemma expanded_buffer (a : BigInt) (new_len : Z) :
  wf LIMB a -> tail_zero a -> len_ a <= new_len <= 2 ^ 62 ->
  let b := if cap_ a <? new_len then AutoExpandSize a new_len else a in
  len_ b = len_ a /\ new_len <= cap_ b /\ cap_ b < 2 ^ 64 /\
  in_range LIMB (val_ b) /\
  (forall j, 0 <= j -> limb_at (val_ b) j = digit LIMB (uval LIMB a) j).
Proof.
  intros Ha Htz Hn. cbv zeta.
  pose proof (pow_LIMB_pos LIMB LIMB_pos) as HB.
  pose proof Ha as (Hl & Hc & Hv).
  assert (HU : 0 <= uval LIMB a < 2 ^ (LIMB * len_ a)).
  { unfold uval.
    pose proof (uval_limbs_bounds LIMB LIMB_pos (Z.to_nat (len_ a)) (val_ a) Hv
                  ltac:(unfold cap_ in *; lia)) as Hb.
    rewrite Z2Nat.id in Hb by lia. exact Hb. }
  assert (Hdig : forall j, 0 <= j -> limb_at (val_ a) j = digit LIMB (uval LIMB a) j).
  { intros j Hj. destruct (Z.lt_ge_cases j (len_ a)).
    - unfold uval. apply limb_at_digit; auto; unfold cap_ in *; lia.
    - rewrite Htz by lia. unfold digit.
      rewrite Z.div_small; [reflexivity|]. split; [lia|].
      apply Z.lt_le_trans with (2 ^ (LIMB * len_ a)); [lia|].
      apply Z.pow_le_mono_r; [lia|]. nia. }
  destruct (Z.ltb_spec (cap_ a) new_len); [|repeat split; auto; lia].
  unfold AutoExpandSize, cap_. cbn [len_ val_].
  destruct (grow_cap_ge 64 (Z.max 1 (cap_ a)) new_len) as [G1 G2]; [lia| |].
  { change (Z.of_nat 64) with 64. lia. }
  pose proof (grow_cap_le 64 (Z.max 1 (cap_ a)) new_len ltac:(lia)) as G3.
  unfold cap_ in *.
  split; [reflexivity|]. split; [rewrite length_app, repeat_length; lia|].
  split; [rewrite length_app, repeat_length; lia|].
  split; [apply in_range_app_zeros; auto|].
  intros j Hj. destruct (Z.lt_ge_cases j (Z.of_nat (length (val_ a)))).
  - rewrite limb_at_app by lia. apply Hdig; lia.
  - rewrite <- Hdig by lia. rewrite (limb_at_overflow (val_ a)) by lia.
    unfold limb_at. destruct (Z.leb_spec 0 j); [|reflexivity].
    rewrite app_nth2 by lia. apply nth_repeat.
Qed.

End LeftShift.

Section LeftShiftValue.
Variable LIMB : Z.
Hypothesis LIMB_pos : 0 < LIMB.

Lemma in_range_shl_loop_r (n : nat) (q r : Z) (v : list Z) :
  in_range LIMB v -> in_range LIMB (shl_loop_r LIMB n q r v).
Proof.
  revert v. induction n as [|n IH]; intros v Hv; cbn [shl_loop_r]; auto.
  apply IH. apply in_range_upd; auto. apply limb_range; auto.
Qed.

Lemma in_range_shl_loop_0 (n : nat) (q : Z) (v : list Z) :
  in_range LIMB v -> in_range LIMB (shl_loop_0 n q v).
Proof.
  revert v. induction n as [|n IH]; intros v Hv; cbn [shl_loop_0]; auto.
  apply IH. apply in_range_upd; auto. apply in_range_limb_at; auto.
Qed.

(** The record [operator<<=] leaves when [k mod LIMB <> 0], before the
    zero top limb is dropped. *)
Lemma shl_eq_shape (a : BigInt) (k : Z) :
  wf LIMB a -> tail_zero a -> 0 <= k -> k mod LIMB <> 0 ->
  len_ a + k / LIMB + 1 <= 2 ^ 62 ->
  exists v,
    let N := len_ a + k / LIMB + 1 in
    shl_eq LIMB a k
    = (if (1 <? N) && (limb_at v (N - 1) =? 0)
       then mkBigInt (N - 1) v else mkBigInt N v) /\
    N <= Z.of_nat (length v) /\ Z.of_nat (length v) < 2 ^ 64 /\
    in_range LIMB v /\
    (forall j, 0 <= j < N -> limb_at v j = digit LIMB (uval LIMB a * 2 ^ k) j).
Proof.
  intros Ha Htz Hk Hr HN.
  pose proof (pow_LIMB_pos LIMB LIMB_pos) as HB.
  pose proof Ha as (Hl & Hc & Hv).
  set (L := len_ a) in *. set (q := k / LIMB) in *. set (r := k mod LIMB) in *.
  assert (Hr' : 0 < r < LIMB).
  { pose proof (Z.mod_pos_bound k LIMB LIMB_pos). unfold r in *. lia. }
  assert (Hq : 0 <= q) by (apply Z.div_pos; lia).
  assert (Hkqr : k = LIMB * q + r) by (apply Z.div_mod; lia).
  set (N := L + q + 1).
  assert (HNb : N = L + q + 1) by reflexivity.
  destruct (expanded_buffer LIMB LIMB_pos a N Ha Htz ltac:(fold L; lia))
    as (E1 & E2 & E3 & E4 & E5).
  set (b := if cap_ a <? N then AutoExpandSize a N else a) in *.
  set (U := uval LIMB a) in *.
  set (v1 := upd (shl_loop_r LIMB (Z.to_nat (N - 1 - q)) q r (val_ b)) q
               (limb LIMB (Z.shiftl (limb_at (val_ b) 0) r))).
  set (v2 := if negb (q =? 0) then fill v1 0 q 0 else v1).
  assert (Hlv1 : length v1 = length (val_ b)).
  { unfold v1. rewrite length_upd, length_shl_loop_r. reflexivity. }
  assert (Hlv2 : length v2 = length (val_ b)).
  { unfold v2. destruct (negb (q =? 0)); rewrite ?length_fill; exact Hlv1. }
  exists v2. cbv zeta. fold L q. fold N.
  split.
  { unfold shl_eq. fold q r L.
    destruct (Z.ltb_spec 0 r); [|lia].
    assert (Hu : u64 (L + q + 1) = N).
    { unfold u64. apply Z.mod_small. lia. }
    rewrite Hu.
    destruct (Z.ltb_spec N L); [lia|]. fold b.
    destruct (Z.leb_spec N q); [lia|].
    destruct (Z.eqb_spec r 0); [lia|]. cbn [negb].
    fold v1. fold v2. reflexivity. }
  split; [rewrite Hlv2; unfold cap_ in *; lia|].
  split; [rewrite Hlv2; unfold cap_ in *; lia|].
  split.
  { unfold v2. assert (in_range LIMB v1).
    { unfold v1. apply in_range_upd; [|apply limb_range; auto].
      apply in_range_shl_loop_r; auto. }
    destruct (negb (q =? 0)); auto. apply in_range_fill; auto. lia. }
  intros j Hj.
  assert (Hbit : forall i, Z.testbit (U * 2 ^ k) i = Z.testbit U (i - k)).
  { intros i. apply Z.mul_pow2_bits. lia. }
  destruct (Z.lt_ge_cases j q) as [Hjq|Hjq].
  - (* zeroed low limbs *)
    unfold v2. destruct (Z.eqb_spec q 0); [lia|]. cbn [negb].
    rewrite limb_at_fill by lia.
    destruct (Z.leb_spec 0 j); [|lia]. destruct (Z.ltb_spec j q); [|lia].
    destruct (Z.ltb_spec j (Z.of_nat (length v1))); [|unfold cap_ in *; lia].
    cbn [andb]. apply digit_by_bits; auto; try lia.
    intros t Ht. rewrite Z.bits_0, Hbit. symmetry.
    apply Z.testbit_neg_r. nia.
  - assert (Hv2 : limb_at v2 j = limb_at v1 j).
    { unfold v2. destruct (negb (q =? 0)); auto.
      rewrite limb_at_fill by lia.
      destruct (Z.ltb_spec j q); [lia|]. rewrite andb_false_r. reflexivity. }
    rewrite Hv2. unfold v1.
    destruct (Z.eq_dec j q) as [->|Hne].
    + rewrite limb_at_upd_same
        by (rewrite length_shl_loop_r; unfold cap_ in *; lia).
      apply digit_by_bits; auto; try (apply limb_range; auto).
      intros t Ht. rewrite testbit_limb, Z.shiftl_spec, Hbit by lia.
      replace (LIMB * q + t - k) with (t - r) by lia.
      destruct (Z.lt_ge_cases t r).
      * rewrite !Z.testbit_neg_r by lia. reflexivity.
      * rewrite E5 by lia.
        rewrite testbit_digit by (auto; lia). f_equal. lia.
    + rewrite limb_at_upd_other by lia.
      rewrite limb_at_shl_loop_r by (unfold cap_ in *; lia).
      destruct (Z.ltb_spec q j); [|lia].
      destruct (Z.leb_spec j (q + Z.of_nat (Z.to_nat (N - 1 - q)))); [|lia].
      cbn [andb]. rewrite !E5 by lia.
      set (hi := digit LIMB U (j - q)). set (lo := digit LIMB U (j - q - 1)).
      pose proof (digit_range LIMB LIMB_pos U (j - q - 1)) as Hlo. fold lo in Hlo.
      assert (HC : 0 < 2 ^ (LIMB - r)) by (apply Z.pow_pos_nonneg; lia).
      assert (HBC : 2 ^ LIMB = 2 ^ r * 2 ^ (LIMB - r)).
      { rewrite <- Z.pow_add_r by lia. f_equal. lia. }
      assert (Hls : 0 <= Z.shiftr lo (LIMB - r) < 2 ^ r).
      { rewrite Z.shiftr_div_pow2 by lia. split; [apply Z.div_pos; lia|].
        apply Z.div_lt_upper_bound; lia. }
      rewrite (Z.shiftl_mul_pow2 hi) by lia.
      rewrite <- lor_shiftl_small by lia.
      apply digit_by_bits; auto; try lia; try (apply limb_range; auto).
      intros t Ht.
      rewrite testbit_limb, Z.lor_spec, Z.shiftl_spec, Z.shiftr_spec, Hbit by lia.
      replace (LIMB * j + t - k) with (LIMB * (j - q) + (t - r)) by lia.
      destruct (Z.lt_ge_cases t r).
      * rewrite (Z.testbit_neg_r hi) by lia. cbn [orb].
        unfold lo. rewrite testbit_digit by lia. f_equal. lia.
      * rewrite (testbit_small LIMB LIMB_pos lo) by lia.
        rewrite orb_false_r. unfold hi.
        rewrite testbit_digit by lia. reflexivity.
Qed.

Lemma shl_eq_uval (a : BigInt) (k : Z) :
  wf LIMB a -> tail_zero a -> 0 <= k -> k mod LIMB <> 0 ->
  len_ a + k / LIMB + 1 <= 2 ^ 62 ->
  uval LIMB (shl_eq LIMB a k) = uval LIMB a * 2 ^ k.
Proof.
  intros Ha Htz Hk Hr HN.
  destruct (shl_eq_shape a k Ha Htz Hk Hr HN) as (v & Hs & Hl1 & Hl2 & Hv & Hd).
  cbv zeta in Hs, Hl1, Hd.
  pose proof Ha as (Hl & Hc & Hav).
  pose proof (pow_LIMB_pos LIMB LIMB_pos) as HB.
  assert (Hq : 0 <= k / LIMB) by (apply Z.div_pos; lia).
  set (N := len_ a + k / LIMB + 1) in *.
  assert (HNb : N = len_ a + k / LIMB + 1) by reflexivity.
  assert (HU : 0 <= uval LIMB a < 2 ^ (LIMB * len_ a)).
  { unfold uval.
    pose proof (uval_limbs_bounds LIMB LIMB_pos (Z.to_nat (len_ a)) (val_ a) Hav
                  ltac:(unfold cap_ in *; lia)) as Hb.
    rewrite Z2Nat.id in Hb by lia. exact Hb. }
  assert (Hfull : uval LIMB (mkBigInt N v) = uval LIMB a * 2 ^ k).
  { unfold uval at 1. cbn [len_ val_].
    apply uval_limbs_of_digits; auto; try lia.
    - rewrite Z2Nat.id by lia.
      assert (0 < 2 ^ k) by (apply Z.pow_pos_nonneg; lia).
      split; [nia|].
      apply Z.lt_le_trans with (2 ^ (LIMB * len_ a) * 2 ^ k); [nia|].
      rewrite <- Z.pow_add_r by nia. apply Z.pow_le_mono_r; [lia|].
      pose proof (Z.div_mod k LIMB ltac:(lia)).
      pose proof (Z.mod_pos_bound k LIMB LIMB_pos). nia.
    - rewrite Z2Nat.id by lia. exact Hd. }
  rewrite Hs.
  destruct (Z.ltb_spec 1 N); cbn [andb]; [|exact Hfull].
  destruct (Z.eqb_spec (limb_at v (N - 1)) 0); [|exact Hfull].
  rewrite uval_drop_zero_top by (auto; lia). exact Hfull.
Qed.

(** X3. When the shift count is not a multiple of the limb width, the
    unsigned reading of [a <<= k] is that of [a] times [2^k]: no bit is
    lost, the buffer being enlarged first where it is too short. *)
Theorem shl_eq_unsigned_value (a : BigInt) (k : Z) :
  wf LIMB a -> tail_zero a -> 0 <= k -> k mod LIMB <> 0 ->
  len_ a + k / LIMB + 1 <= 2 ^ 62 ->
  uval LIMB (shl_eq LIMB a k) = uval LIMB a * 2 ^ k.
Proof. exact (shl_eq_uval a k). Qed.

(** X4. A left shift followed by the same right shift gives back the
    unsigned reading, when the count is not a multiple of the limb width. *)
Theorem shl_shr_round_trip (a : BigInt) (k : Z) :
  wf LIMB a -> tail_zero a -> 0 <= k < 2 ^ 64 -> k mod LIMB <> 0 ->
  len_ a + k / LIMB + 1 <= 2 ^ 62 ->
  uval LIMB (shr_eq LIMB (shl_eq LIMB a k) k) = uval LIMB a.
Proof.
  intros Ha Htz Hk Hr HN.
  assert (Hwf : wf LIMB (shl_eq LIMB a k)).
  { destruct (shl_eq_shape a k Ha Htz ltac:(lia) Hr HN) as (v & Hs & Hl1 & Hl2 & Hv & Hd).
    cbv zeta in Hs, Hl1, Hd.
    destruct Ha as (Hl & Hc & Hav).
    assert (Hq : 0 <= k / LIMB) by (apply Z.div_pos; lia).
    rewrite Hs. unfold wf, cap_.
    destruct ((1 <? len_ a + k / LIMB + 1) &&
              (limb_at v (len_ a + k / LIMB + 1 - 1) =? 0));
      cbn [len_ val_]; repeat split; auto; lia. }
  rewrite (shr_eq_uval LIMB LIMB_pos) by auto.
  rewrite shl_eq_uval by (auto; lia).
  apply Z.div_mul. assert (0 < 2 ^ k) by (apply Z.pow_pos_nonneg; lia). lia.
Qed.

End LeftShiftValue.

Lemma tail_zero_full (a : BigInt) : cap_ a <= len_ a -> tail_zero a.
Proof.
  intros H j Hj. apply limb_at_overflow. unfold cap_ in H. lia.
Qed.

Section WholeLimbShifts.
Variable LIMB : Z.
Hypothesis LIMB_pos : 0 < LIMB.

(** X2. A right shift that moves every limb out ([k / LIMB >= len_])
    leaves zero in one limb. *)
Theorem shr_eq_all_limbs_out (a : BigInt) (k : Z) :
  wf LIMB a -> 0 <= k < 2 ^ 64 -> len_ a <= k / LIMB ->
  len_ (shr_eq LIMB a k) = 1 /\ Sign LIMB (shr_eq LIMB a k) = false /\
  toZ LIMB (shr_eq LIMB a k) = 0.
Proof.
  intros (Hl & Hc & Hv) Hk Hq.
  set (L := len_ a) in *. set (q := k / LIMB) in *.
  assert (Hqk : q <= k).
  { unfold q. apply Z.div_le_upper_bound; nia. }
  assert (Htest : (L <? u64 (L - q)) || (u64 (L - q) =? 0) = true).
  { destruct (Z.eq_dec q L) as [E|Hne].
    - rewrite E, Z.sub_diag. change (u64 0) with 0.
      rewrite Z.eqb_refl. apply orb_true_r.
    - assert (E : u64 (L - q) = 2 ^ 64 + (L - q)).
      { unfold u64. symmetry.
        apply Z.mod_unique with (q := -1); unfold cap_ in *; lia. }
      rewrite E. destruct (Z.ltb_spec L (2 ^ 64 + (L - q))); [reflexivity|lia]. }
  assert (Hres : shr_eq LIMB a k
                 = AutoShrinkSize (mkBigInt 1 (fill (val_ a) 0 L 0))).
  { unfold shr_eq. fold L q. rewrite Htest. reflexivity. }
  assert (H0 : limb_at (fill (val_ a) 0 L 0) 0 = 0).
  { rewrite limb_at_fill by lia.
    destruct (Z.leb_spec 0 0), (Z.ltb_spec 0 L),
      (Z.ltb_spec 0 (Z.of_nat (length (val_ a)))); cbn [andb];
      try reflexivity; unfold cap_ in *; lia. }
  assert (Hs : Sign LIMB (shr_eq LIMB a k) = false).
  { rewrite Hres, Sign_AutoShrinkSize. unfold Sign. cbn [len_ val_].
    change (1 - 1) with 0. rewrite H0. apply Z.bits_0. }
  split; [rewrite Hres, len_AutoShrinkSize; reflexivity|].
  split; [exact Hs|].
  unfold toZ. rewrite Hs, Hres.
  rewrite uval_AutoShrinkSize
    by (cbn [len_ val_]; unfold cap_ in *; cbn [val_]; rewrite length_fill; lia).
  apply uval_zeroed; unfold cap_ in *; lia.
Qed.

Lemma digit_replace_low (U d : Z) (m : Z) :
  0 <= d < 2 ^ LIMB -> 0 <= m ->
  digit LIMB (U - digit LIMB U 0 + d) m
  = if m =? 0 then d else digit LIMB U m.
Proof.
  intros Hd Hm. pose proof (pow_LIMB_pos LIMB LIMB_pos) as HB.
  assert (E : U - digit LIMB U 0 + d = d + (U / 2 ^ LIMB) * 2 ^ LIMB).
  { rewrite digit_0. unfold limb.
    pose proof (Z.div_mod U (2 ^ LIMB) ltac:(lia)). lia. }
  rewrite E.
  destruct (Z.eqb_spec m 0) as [->|Hne].
  - rewrite digit_0. unfold limb. rewrite Z.mod_add by lia.
    apply Z.mod_small. lia.
  - replace m with ((m - 1) + 1) by lia.
    rewrite !digit_succ by (auto; lia).
    rewrite Z.div_add by lia. rewrite (Z.div_small d) by lia. reflexivity.
Qed.

(** X5. A left shift by whole limbs ([k = LIMB * q]) moves limbs
    [1 .. len_ - 1] up by [q] places and clears the limbs below [q], but
    leaves limb [q] as it was: the unsigned reading is that of [a] with
    its lowest limb replaced by its limb [q], times [2^k]. *)
Theorem shl_eq_whole_limbs (a : BigInt) (q : Z) :
  wf LIMB a -> tail_zero a -> 0 <= q -> len_ a + q <= 2 ^ 62 ->
  uval LIMB (shl_eq LIMB a (LIMB * q))
  = (uval LIMB a - limb_at (val_ a) 0 + limb_at (val_ a) q)
    * 2 ^ (LIMB * q).
Proof.
  intros Ha Htz Hq HN.
  pose proof (pow_LIMB_pos LIMB LIMB_pos) as HB.
  pose proof Ha as (Hl & Hc & Hv).
  set (L := len_ a) in *.
  set (N := L + q).
  assert (HNb : N = L + q) by reflexivity.
  destruct (expanded_buffer LIMB LIMB_pos a N Ha Htz ltac:(fold L; lia))
    as (E1 & E2 & E3 & E4 & E5).
  set (b := if cap_ a <? N then AutoExpandSize a N else a) in *.
  set (U := uval LIMB a) in *.
  assert (HU : 0 <= U < 2 ^ (LIMB * L)).
  { unfold U, uval. fold L.
    pose proof (uval_limbs_bounds LIMB LIMB_pos (Z.to_nat L) (val_ a) Hv
                  ltac:(unfold cap_ in *; lia)) as Hb.
    rewrite Z2Nat.id in Hb by lia. exact Hb. }
  assert (Ea : forall j, 0 <= j -> limb_at (val_ a) j = digit LIMB U j).
  { intros j Hj. destruct (Z.lt_ge_cases j L).
    - unfold U, uval. fold L. apply limb_at_digit; auto; unfold cap_ in *; lia.
    - rewrite Htz by (fold L; lia). unfold digit.
      rewrite Z.div_small; [reflexivity|]. split; [lia|].
      apply Z.lt_le_trans with (2 ^ (LIMB * L)); [lia|].
      apply Z.pow_le_mono_r; [lia|]. nia. }
  rewrite !Ea by lia.
  set (W := U - digit LIMB U 0 + digit LIMB U q).
  pose proof (digit_range LIMB LIMB_pos U q) as Hdq.
  pose proof (digit_range LIMB LIMB_pos U 0) as Hd0.
  assert (HW : 0 <= W < 2 ^ (LIMB * L)).
  { unfold W. rewrite digit_0 in *. unfold limb in *.
    pose proof (Z.div_mod U (2 ^ LIMB) ltac:(lia)) as E.
    assert (HLs : 2 ^ (LIMB * L) = 2 ^ LIMB * 2 ^ (LIMB * (L - 1))).
    { rewrite <- pow_LIMB_succ by lia. f_equal. lia. }
    assert (0 < 2 ^ (LIMB * (L - 1))) by (apply Z.pow_pos_nonneg; nia).
    assert (U / 2 ^ LIMB < 2 ^ (LIMB * (L - 1))).
    { apply Z.div_lt_upper_bound; lia. }
    assert (0 <= U / 2 ^ LIMB) by (apply Z.div_pos; lia).
    assert (EW : U - U mod 2 ^ LIMB = 2 ^ LIMB * (U / 2 ^ LIMB)) by lia.
    rewrite EW, HLs.
    assert (2 ^ LIMB * (U / 2 ^ LIMB)
            <= 2 ^ LIMB * (2 ^ (LIMB * (L - 1)) - 1))
      by (apply Z.mul_le_mono_nonneg_l; lia).
    split; [nia|lia]. }
  set (v1 := shl_loop_0 (Z.to_nat (N - 1 - q)) q (val_ b)).
  set (v2 := if negb (q =? 0) then fill v1 0 q 0 else v1).
  assert (Hlv1 : length v1 = length (val_ b)) by apply length_shl_loop_0.
  assert (Hlv2 : length v2 = length (val_ b)).
  { unfold v2. destruct (negb (q =? 0)); rewrite ?length_fill; exact Hlv1. }
  assert (Hres : shl_eq LIMB a (LIMB * q)
                 = if (1 <? N) && (limb_at v2 (N - 1) =? 0)
                   then mkBigInt (N - 1) v2 else mkBigInt N v2).
  { unfold shl_eq.
    replace (LIMB * q / LIMB) with q
      by (rewrite Z.mul_comm, Z.div_mul; lia).
    replace ((LIMB * q) mod LIMB) with 0
      by (rewrite Z.mul_comm, Z.mod_mul; lia).
    fold L. change (0 <? 0) with false. cbv iota. rewrite Z.add_0_r.
    assert (Hu : u64 (L + q) = N) by (unfold u64; apply Z.mod_small; lia).
    rewrite Hu. destruct (Z.ltb_spec N L); [lia|]. fold b.
    destruct (Z.leb_spec N q); [lia|].
    change (negb (0 =? 0)) with false. cbv iota.
    fold v1. fold v2. reflexivity. }
  assert (Hbit : forall i, Z.testbit (W * 2 ^ (LIMB * q)) i
                           = Z.testbit W (i - LIMB * q)).
  { intros i. apply Z.mul_pow2_bits. nia. }
  assert (Hd : forall j, 0 <= j < N ->
                 limb_at v2 j = digit LIMB (W * 2 ^ (LIMB * q)) j).
  { intros j Hj. destruct (Z.lt_ge_cases j q) as [Hjq|Hjq].
    - unfold v2. destruct (Z.eqb_spec q 0); [lia|]. cbn [negb].
      rewrite limb_at_fill by lia.
      destruct (Z.leb_spec 0 j); [|lia]. destruct (Z.ltb_spec j q); [|lia].
      destruct (Z.ltb_spec j (Z.of_nat (length v1))); [|unfold cap_ in *; lia].
      cbn [andb]. apply digit_by_bits; auto; try lia.
      intros t Ht. rewrite Z.bits_0, Hbit. symmetry.
      apply Z.testbit_neg_r. nia.
    - assert (Hv2 : limb_at v2 j = limb_at v1 j).
      { unfold v2. destruct (negb (q =? 0)); auto.
        rewrite limb_at_fill by lia.
        destruct (Z.ltb_spec j q); [lia|]. rewrite andb_false_r. reflexivity. }
      rewrite Hv2. unfold v1.
      rewrite limb_at_shl_loop_0 by (unfold cap_ in *; lia).
      assert (Hx : (if (q <? j) && (j <=? q + Z.of_nat (Z.to_nat (N - 1 - q)))
                    then limb_at (val_ b) (j - q) else limb_at (val_ b) j)
                   = digit LIMB W (j - q)).
      { unfold W. rewrite digit_replace_low by lia.
        destruct (Z.eqb_spec (j - q) 0) as [E0|E0].
        - destruct (Z.ltb_spec q j); [lia|]. cbn [andb].
          rewrite E5 by lia. f_equal. lia.
        - destruct (Z.ltb_spec q j); [|lia].
          destruct (Z.leb_spec j (q + Z.of_nat (Z.to_nat (N - 1 - q)))); [|lia].
          cbn [andb]. apply E5. lia. }
      rewrite Hx.
      apply digit_by_bits; auto; try lia; try (apply digit_range; auto).
      intros t Ht. rewrite Hbit, testbit_digit by (auto; lia). f_equal. lia. }
  assert (Hfull : uval LIMB (mkBigInt N v2) = W * 2 ^ (LIMB * q)).
  { unfold uval at 1. cbn [len_ val_].
    apply uval_limbs_of_digits; auto; try (unfold cap_ in *; lia).
    - rewrite Z2Nat.id by lia.
      assert (0 < 2 ^ (LIMB * q)) by (apply Z.pow_pos_nonneg; nia).
      split; [nia|].
      replace (LIMB * N) with (LIMB * L + LIMB * q) by lia.
      rewrite Z.pow_add_r by nia. nia.
    - rewrite Z2Nat.id by lia. exact Hd. }
  rewrite Hres.
  destruct (Z.ltb_spec 1 N); cbn [andb]; [|exact Hfull].
  destruct (Z.eqb_spec (limb_at v2 (N - 1)) 0); [|exact Hfull].
  rewrite uval_drop_zero_top by (auto; unfold cap_ in *; lia). exact Hfull.
Qed.

End WholeLimbShifts.

(** ** Bitwise operators *)

Section Bitwise.
Variable LIMB : Z.
Hypothesis LIMB_pos : 0 < LIMB.

Lemma ones_limb : 2 ^ LIMB - 1 = Z.ones LIMB.
Proof. rewrite Z.ones_equiv. lia. Qed.

Lemma testbit_ext_sign (s : bool) (t : Z) :
  0 <= t < LIMB -> Z.testbit (ext_sign LIMB s) t = s.
Proof.
  intros Ht. unfold ext_sign. destruct s; [|apply Z.bits_0].
  rewrite ones_limb. apply Z.ones_spec_low. lia.
Qed.

Lemma ext_sign_range (s : bool) : 0 <= ext_sign LIMB s < 2 ^ LIMB.
Proof.
  pose proof (pow_LIMB_pos LIMB LIMB_pos). unfold ext_sign. destruct s; lia.
Qed.

Lemma sext_limb_unfold (a : BigInt) (j : Z) :
  sext_limb LIMB a j
  = if j <? len_ a then limb_at (val_ a) j else ext_sign LIMB (Sign LIMB a).
Proof. reflexivity. Qed.

Lemma sext_limb_range (a : BigInt) (j : Z) :
  in_range LIMB (val_ a) -> 0 <= sext_limb LIMB a j < 2 ^ LIMB.
Proof.
  intros Hv. rewrite sext_limb_unfold. destruct (j <? len_ a).
  - apply in_range_limb_at; auto.
  - apply ext_sign_range.
Qed.

Lemma testbit_negative_high (x N i : Z) :
  0 <= N -> - 2 ^ N <= x < 0 -> N <= i -> Z.testbit x i = true.
Proof.
  intros HN Hx Hi.
  replace x with (- (- x)) by lia.
  rewrite Z.bits_opp by lia.
  apply negb_true_iff.
  destruct (Z.eq_dec (Z.pred (- x)) 0) as [E|Hne]; [rewrite E; apply Z.bits_0|].
  apply Z.bits_above_log2; [lia|].
  assert (Z.log2 (Z.pred (- x)) < N) by (apply Z.log2_lt_pow2; lia). lia.
Qed.

Lemma testbit_nonneg_high (x N i : Z) :
  0 <= N -> 0 <= x < 2 ^ N -> N <= i -> Z.testbit x i = false.
Proof.
  intros HN Hx Hi.
  destruct (Z.eq_dec x 0) as [->|Hne]; [apply Z.bits_0|].
  apply Z.bits_above_log2; [lia|].
  assert (Z.log2 x < N) by (apply Z.log2_lt_pow2; lia). lia.
Qed.

(** Bit [i] of the number [a] stands for is bit [i mod LIMB] of limb
    [i / LIMB], the limbs beyond the length repeating the sign. *)
Lemma testbit_toZ (a : BigInt) (i : Z) :
  in_range LIMB (val_ a) -> 1 <= len_ a <= cap_ a -> 0 <= i ->
  Z.testbit (toZ LIMB a) i
  = Z.testbit (sext_limb LIMB a (i / LIMB)) (i mod LIMB).
Proof.
  intros Hv Hl Hi.
  pose proof (pow_LIMB_pos LIMB LIMB_pos) as HB.
  assert (HU : 0 <= uval LIMB a < 2 ^ (LIMB * len_ a)).
  { unfold uval.
    pose proof (uval_limbs_bounds LIMB LIMB_pos (Z.to_nat (len_ a)) (val_ a) Hv
                  ltac:(unfold cap_ in *; lia)) as Hb.
    rewrite Z2Nat.id in Hb by lia. exact Hb. }
  set (j := i / LIMB). set (t := i mod LIMB).
  assert (Hi' : i = LIMB * j + t) by (apply Z.div_mod; lia).
  assert (Ht : 0 <= t < LIMB) by (apply Z.mod_pos_bound; lia).
  assert (Hj : 0 <= j) by (apply Z.div_pos; lia).
  rewrite sext_limb_unfold.
  destruct (Z.ltb_spec j (len_ a)) as [Hjl|Hjl].
  - assert (HiN : i < LIMB * len_ a) by nia.
    unfold uval in HU.
    rewrite (limb_at_digit LIMB LIMB_pos (Z.to_nat (len_ a)))
      by (auto; unfold cap_ in *; lia).
    rewrite testbit_digit by (auto; lia). rewrite <- Hi'.
    unfold toZ. destruct (Sign LIMB a); [|reflexivity].
    rewrite <- (Z.mod_pow2_bits_low _ (LIMB * len_ a)) by lia.
    rewrite <- (Z.mod_pow2_bits_low (uval_limbs _ _ _) (LIMB * len_ a)) by lia.
    f_equal. unfold uval.
    replace (uval_limbs LIMB (Z.to_nat (len_ a)) (val_ a) - 2 ^ (LIMB * len_ a))
      with (uval_limbs LIMB (Z.to_nat (len_ a)) (val_ a)
            + (-1) * 2 ^ (LIMB * len_ a)) by lia.
    apply Z.mod_add. lia.
  - assert (HiN : LIMB * len_ a <= i) by nia.
    rewrite testbit_ext_sign by lia.
    unfold toZ. destruct (Sign LIMB a).
    + apply testbit_negative_high with (N := LIMB * len_ a); try lia.
    + apply testbit_nonneg_high with (N := LIMB * len_ a); try lia.
Qed.

(** Two integers with the same sign-extended limbs stand for one number. *)
Lemma toZ_by_limbs (F : Z -> Z -> Z) (f : bool -> bool -> bool)
  (c a b : BigInt) :
  (forall x y i, 0 <= i ->
     Z.testbit (F x y) i = f (Z.testbit x i) (Z.testbit y i)) ->
  in_range LIMB (val_ c) -> 1 <= len_ c <= cap_ c ->
  in_range LIMB (val_ a) -> 1 <= len_ a <= cap_ a ->
  in_range LIMB (val_ b) -> 1 <= len_ b <= cap_ b ->
  (forall j, 0 <= j ->
     sext_limb LIMB c j = F (sext_limb LIMB a j) (sext_limb LIMB b j)) ->
  toZ LIMB c = F (toZ LIMB a) (toZ LIMB b).
Proof.
  intros HF Hcv Hcl Hav Hal Hbv Hbl H. apply Z.bits_inj'. intros i Hi.
  rewrite HF, !testbit_toZ by auto.
  rewrite H by (apply Z.div_pos; lia).
  apply HF. apply Z.mod_pos_bound. lia.
Qed.

(** A bitwise operation that maps two clear bits to a clear bit keeps
    limbs in range. *)
Lemma bitop_range (F : Z -> Z -> Z) (f : bool -> bool -> bool) (x y : Z) :
  (forall x y i, 0 <= i ->
     Z.testbit (F x y) i = f (Z.testbit x i) (Z.testbit y i)) ->
  f false false = false ->
  0 <= x < 2 ^ LIMB -> 0 <= y < 2 ^ LIMB -> 0 <= F x y < 2 ^ LIMB.
Proof.
  intros HF Hf Hx Hy.
  assert (E : F x y = F x y mod 2 ^ LIMB).
  { apply Z.bits_inj'. intros i Hi.
    destruct (Z.lt_ge_cases i LIMB).
    - rewrite Z.mod_pow2_bits_low by lia. reflexivity.
    - rewrite Z.mod_pow2_bits_high by lia.
      rewrite HF by lia.
      rewrite (testbit_small LIMB LIMB_pos x), (testbit_small LIMB LIMB_pos y)
        by lia. exact Hf. }
  rewrite E. apply Z.mod_pos_bound. apply pow_LIMB_pos; auto.
Qed.

Lemma limb_at_limbwise (F : Z -> Z -> Z) (n : nat) (i : Z) (v w : list Z)
  (j : Z) :
  0 <= i -> i + Z.of_nat n <= Z.of_nat (length v) ->
  limb_at (limbwise F n i v w) j
  = if (i <=? j) && (j <? i + Z.of_nat n)
    then F (limb_at v j) (limb_at w j) else limb_at v j.
Proof.
  revert i v. induction n as [|n IH]; intros i v Hi Hn.
  - cbn [limbwise]. destruct (Z.leb_spec i j), (Z.ltb_spec j (i + Z.of_nat 0));
      cbn [andb]; try reflexivity; lia.
  - cbn [limbwise]. rewrite IH by (rewrite ?length_upd; lia).
    destruct (Z.eq_dec j i) as [->|Hne].
    + destruct (Z.leb_spec (i + 1) i); [lia|]. cbn [andb].
      rewrite limb_at_upd_same by lia.
      destruct (Z.leb_spec i i); [|lia].
      destruct (Z.ltb_spec i (i + Z.of_nat (S n))); [|lia]. reflexivity.
    + rewrite !limb_at_upd_other by lia.
      destruct (Z.leb_spec (i + 1) j), (Z.leb_spec i j),
        (Z.ltb_spec j (i + 1 + Z.of_nat n)),
        (Z.ltb_spec j (i + Z.of_nat (S n))); cbn [andb]; try reflexivity; lia.
Qed.

Lemma length_limbwise (F : Z -> Z -> Z) (n : nat) (i : Z) (v w : list Z) :
  length (limbwise F n i v w) = length v.
Proof.
  revert i v. induction n as [|n IH]; intros; cbn [limbwise]; auto.
  rewrite IH. apply length_upd.
Qed.

Lemma in_range_limbwise (F : Z -> Z -> Z) (f : bool -> bool -> bool)
  (n : nat) (i : Z) (v w : list Z) :
  (forall x y i, 0 <= i ->
     Z.testbit (F x y) i = f (Z.testbit x i) (Z.testbit y i)) ->
  f false false = false ->
  in_range LIMB v -> in_range LIMB w -> in_range LIMB (limbwise F n i v w).
Proof.
  intros HF Hf. revert i v. induction n as [|n IH]; intros i v Hv Hw;
    cbn [limbwise]; auto.
  apply IH; auto. apply in_range_upd; auto.
  apply (bitop_range F f); auto; apply in_range_limb_at; auto.
Qed.

Lemma limb_lnot (x : Z) :
  0 <= x < 2 ^ LIMB -> limb LIMB (Z.lnot x) = 2 ^ LIMB - 1 - x.
Proof.
  intros Hx. unfold limb, Z.lnot. symmetry.
  apply Z.mod_unique with (q := -1); lia.
Qed.

Lemma limb_at_inv_loop (n : nat) (i : Z) (v : list Z) (j : Z) :
  0 <= i -> i + Z.of_nat n <= Z.of_nat (length v) ->
  limb_at (inv_loop LIMB n i v) j
  = if (i <=? j) && (j <? i + Z.of_nat n)
    then limb LIMB (Z.lnot (limb_at v j)) else limb_at v j.
Proof.
  revert i v. induction n as [|n IH]; intros i v Hi Hn.
  - cbn [inv_loop]. destruct (Z.leb_spec i j), (Z.ltb_spec j (i + Z.of_nat 0));
      cbn [andb]; try reflexivity; lia.
  - cbn [inv_loop]. rewrite IH by (rewrite ?length_upd; lia).
    destruct (Z.eq_dec j i) as [->|Hne].
    + destruct (Z.leb_spec (i + 1) i); [lia|]. cbn [andb].
      rewrite limb_at_upd_same by lia.
      destruct (Z.leb_spec i i); [|lia].
      destruct (Z.ltb_spec i (i + Z.of_nat (S n))); [|lia]. reflexivity.
    + rewrite !limb_at_upd_other by lia.
      destruct (Z.leb_spec (i + 1) j), (Z.leb_spec i j),
        (Z.ltb_spec j (i + 1 + Z.of_nat n)),
        (Z.ltb_spec j (i + Z.of_nat (S n))); cbn [andb]; try reflexivity; lia.
Qed.

Lemma length_inv_loop (n : nat) (i : Z) (v : list Z) :
  length (inv_loop LIMB n i v) = length v.
Proof.
  revert i v. induction n as [|n IH]; intros; cbn [inv_loop]; auto.
  rewrite IH. apply length_upd.
Qed.

Lemma in_range_inv_loop (n : nat) (i : Z) (v : list Z) :
  in_range LIMB v -> in_range LIMB (inv_loop LIMB n i v).
Proof.
  revert i v. induction n as [|n IH]; intros i v Hv; cbn [inv_loop]; auto.
  apply IH. apply in_range_upd; auto. apply limb_range; auto.
Qed.

Lemma wf_ToBitInv (a : BigInt) : wf LIMB a -> wf LIMB (ToBitInv LIMB a).
Proof.
  intros (Hl & Hc & Hv). unfold wf, ToBitInv, cap_ in *. cbn [len_ val_].
  rewrite length_inv_loop. repeat split; auto; try lia.
  apply in_range_inv_loop; auto.
Qed.

Lemma ToBitInv_value (a : BigInt) :
  wf LIMB a -> toZ LIMB (ToBitInv LIMB a) = - toZ LIMB a - 1.
Proof.
  intros Ha. pose proof (wf_ToBitInv a Ha) as (Hcl & _ & Hcv).
  pose proof Ha as (Hl & Hcap & Hv).
  change (- toZ LIMB a - 1) with (Z.pred (- toZ LIMB a)).
  change (Z.pred (- toZ LIMB a)) with (Z.lnot (toZ LIMB a)).
  apply Z.bits_inj'. intros i Hi.
  rewrite Z.lnot_spec, !testbit_toZ by auto.
  set (j := i / LIMB). set (t := i mod LIMB).
  assert (Ht : 0 <= t < LIMB) by (apply Z.mod_pos_bound; lia).
  assert (Hj : 0 <= j) by (apply Z.div_pos; lia).
  assert (Hlimb : forall k, 0 <= k < len_ a ->
            limb_at (val_ (ToBitInv LIMB a)) k
            = limb LIMB (Z.lnot (limb_at (val_ a) k))).
  { intros k Hk. unfold ToBitInv. cbn [val_].
    rewrite limb_at_inv_loop by (unfold cap_ in *; lia).
    destruct (Z.leb_spec 0 k); [|lia].
    destruct (Z.ltb_spec k (0 + Z.of_nat (Z.to_nat (len_ a)))); [|lia].
    reflexivity. }
  rewrite !sext_limb_unfold.
  change (len_ (ToBitInv LIMB a)) with (len_ a).
  destruct (Z.ltb_spec j (len_ a)).
  - rewrite Hlimb by lia. rewrite testbit_limb by (auto; lia).
    apply Z.lnot_spec. lia.
  - rewrite !testbit_ext_sign by lia.
    unfold Sign. change (len_ (ToBitInv LIMB a)) with (len_ a).
    rewrite Hlimb by lia. rewrite testbit_limb by (auto; lia).
    apply Z.lnot_spec. lia.
Qed.

(** Lists of one length with the same limbs are equal. *)
Lemma limbs_ext (u v : list Z) :
  length u = length v ->
  (forall j, 0 <= j < Z.of_nat (length u) -> limb_at u j = limb_at v j) ->
  u = v.
Proof.
  intros Hl H. apply nth_ext with (d := 0) (d' := 0); auto.
  intros n Hn. specialize (H (Z.of_nat n) ltac:(lia)).
  unfold limb_at in H. destruct (Z.leb_spec 0 (Z.of_nat n)); [|lia].
  rewrite Nat2Z.id in H. exact H.
Qed.

(** X6. [ToBitInv] maps the number [x] to [-x - 1], for either sign and
    any length. *)
Theorem ToBitInv_is_complement (a : BigInt) :
  wf LIMB a -> toZ LIMB (ToBitInv LIMB a) = - toZ LIMB a - 1.
Proof. exact (ToBitInv_value a). Qed.

(** X7. [ToBitInv] twice gives back the integer, limb for limb, with its
    length and its buffer. *)
Theorem ToBitInv_involutive (a : BigInt) :
  wf LIMB a -> ToBitInv LIMB (ToBitInv LIMB a) = a.
Proof.
  intros (Hl & Hc & Hv). destruct a as [L v]. unfold ToBitInv.
  cbn [len_ val_] in *. f_equal.
  apply limbs_ext; [rewrite !length_inv_loop; reflexivity|].
  intros j Hj. rewrite !length_inv_loop in Hj.
  unfold cap_ in *. cbn [val_] in *.
  rewrite limb_at_inv_loop by (rewrite ?length_inv_loop; lia).
  destruct ((0 <=? j) && (j <? 0 + Z.of_nat (Z.to_nat L))) eqn:E;
    rewrite limb_at_inv_loop by lia; rewrite E; [|reflexivity].
  pose proof (in_range_limb_at LIMB LIMB_pos v j Hv) as Hr.
  rewrite (limb_lnot (limb_at v j)) by lia.
  rewrite limb_lnot by lia. lia.
Qed.

End Bitwise.

Section BitwiseBinary.
Variable LIMB : Z.
Hypothesis LIMB_pos : 0 < LIMB.

Section Operation.
(** A bitwise operation [F] on limbs, [f] on bits. *)
Variable F : Z -> Z -> Z.
Variable f : bool -> bool -> bool.
Hypothesis F_spec : forall x y i, 0 <= i ->
  Z.testbit (F x y) i = f (Z.testbit x i) (Z.testbit y i).
Hypothesis f_clear : f false false = false.

Lemma bitop_ext_sign (s1 s2 : bool) :
  F (ext_sign LIMB s1) (ext_sign LIMB s2) = ext_sign LIMB (f s1 s2).
Proof.
  apply Z.bits_inj'. intros i Hi. rewrite F_spec by lia.
  destruct (Z.lt_ge_cases i LIMB).
  - rewrite !testbit_ext_sign by (auto; lia). reflexivity.
  - rewrite !(testbit_small LIMB LIMB_pos) by (auto using ext_sign_range; lia).
    exact f_clear.
Qed.

(** Both operands of one length: every limb is combined, and so is the
    sign. *)
Lemma limbwise_same_len (a b : BigInt) :
  in_range LIMB (val_ a) -> 1 <= len_ a <= cap_ a ->
  in_range LIMB (val_ b) -> 1 <= len_ b <= cap_ b ->
  len_ a = len_ b ->
  let c := mkBigInt (len_ a)
             (limbwise F (Z.to_nat (len_ a)) 0 (val_ a) (val_ b)) in
  in_range LIMB (val_ c) /\ 1 <= len_ c <= cap_ c /\
  toZ LIMB c = F (toZ LIMB a) (toZ LIMB b).
Proof.
  intros Hav Hal Hbv Hbl Hlen c.
  assert (Hcv : in_range LIMB (val_ c)).
  { unfold c. cbn [val_]. apply (in_range_limbwise LIMB LIMB_pos F f); auto. }
  assert (Hcl : 1 <= len_ c <= cap_ c).
  { unfold c, cap_ in *. cbn [len_ val_]. rewrite length_limbwise. lia. }
  split; [exact Hcv|]. split; [exact Hcl|].
  assert (Hlimb : forall j, 0 <= j < len_ a ->
            limb_at (val_ c) j = F (limb_at (val_ a) j) (limb_at (val_ b) j)).
  { intros j Hj. unfold c. cbn [val_].
    rewrite limb_at_limbwise by (unfold cap_ in *; lia).
    destruct (Z.leb_spec 0 j); [|lia].
    destruct (Z.ltb_spec j (0 + Z.of_nat (Z.to_nat (len_ a)))); [|lia].
    reflexivity. }
  apply (toZ_by_limbs LIMB LIMB_pos F f); auto.
  intros j Hj. rewrite !sext_limb_unfold.
  change (len_ c) with (len_ a). rewrite <- Hlen.
  destruct (Z.ltb_spec j (len_ a)).
  - apply Hlimb. lia.
  - rewrite bitop_ext_sign. f_equal.
    unfold Sign. change (len_ c) with (len_ a). rewrite <- Hlen.
    rewrite Hlimb by lia. apply F_spec. lia.
Qed.

End Operation.

(** The left operand after [if (len_ < rhs.len_) SetLen(rhs.len_, false)]:
    a shorter one is zero-extended, whatever its sign. *)
Lemma zero_extended_operand (a b : BigInt) :
  wf LIMB a -> wf LIMB b -> len_ a <= len_ b ->
  let a' := if len_ a <? len_ b then SetLen LIMB a (len_ b) false else a in
  in_range LIMB (val_ a') /\ 1 <= len_ a' <= cap_ a' /\ len_ a' = len_ b /\
  toZ LIMB a' = if len_ a <? len_ b then uval LIMB a else toZ LIMB a.
Proof.
  intros (Hal & Hac & Hav) (Hbl & Hbc & Hbv) Hle a'. unfold a'.
  destruct (Z.ltb_spec (len_ a) (len_ b)) as [Hlt|Hge].
  - destruct (SetLen_extend LIMB LIMB_pos a (len_ b) Hav ltac:(lia) ltac:(lia))
      as (E1 & E2 & E3 & E4 & E5).
    cbv zeta in *.
    set (e := SetLen LIMB a (len_ b) false) in *.
    split; [exact E3|]. split; [lia|]. split; [exact E1|].
    pose proof (pow_LIMB_pos LIMB LIMB_pos) as HB.
    assert (HU : 0 <= uval LIMB a < 2 ^ (LIMB * len_ a)).
    { unfold uval.
      pose proof (uval_limbs_bounds LIMB LIMB_pos (Z.to_nat (len_ a)) (val_ a) Hav
                    ltac:(unfold cap_ in *; lia)) as Hb.
      rewrite Z2Nat.id in Hb by lia. exact Hb. }
    unfold toZ. rewrite Sign_false_of_small.
    + unfold uval at 1. rewrite E1.
      apply uval_limbs_of_digits; auto; try (unfold cap_ in *; lia).
      * rewrite Z2Nat.id by lia. split; [lia|].
        apply Z.lt_le_trans with (2 ^ (LIMB * len_ a)); [lia|].
        apply Z.pow_le_mono_r; [lia|nia].
      * rewrite Z2Nat.id by lia. intros j Hj.
        destruct (Z.lt_ge_cases j (len_ a)).
        -- rewrite E4 by lia. unfold uval.
           apply limb_at_digit; auto; unfold cap_ in *; lia.
        -- rewrite E5 by lia. unfold digit.
           rewrite Z.div_small; [reflexivity|]. split; [lia|].
           apply Z.lt_le_trans with (2 ^ (LIMB * len_ a)); [lia|].
           apply Z.pow_le_mono_r; [lia|nia].
    + rewrite E1, E5 by lia. split; [lia|]. apply Z.pow_pos_nonneg; lia.
  - split; [exact Hav|]. split; [lia|]. split; [lia|]. reflexivity.
Qed.

Lemma land_bits (x y i : Z) :
  0 <= i -> Z.testbit (Z.land x y) i = Z.testbit x i && Z.testbit y i.
Proof. intros _. apply Z.land_spec. Qed.

Lemma lor_bits (x y i : Z) :
  0 <= i -> Z.testbit (Z.lor x y) i = Z.testbit x i || Z.testbit y i.
Proof. intros _. apply Z.lor_spec. Qed.

Lemma lxor_bits (x y i : Z) :
  0 <= i -> Z.testbit (Z.lxor x y) i = xorb (Z.testbit x i) (Z.testbit y i).
Proof. intros _. apply Z.lxor_spec. Qed.

Lemma land_ones_limb (x : Z) :
  0 <= x < 2 ^ LIMB -> Z.land x (2 ^ LIMB - 1) = x.
Proof.
  intros Hx. rewrite ones_limb, Z.land_ones by lia. apply Z.mod_small. lia.
Qed.

Lemma lor_ones_limb (x : Z) :
  0 <= x < 2 ^ LIMB -> Z.lor x (2 ^ LIMB - 1) = 2 ^ LIMB - 1.
Proof.
  intros Hx. rewrite ones_limb. apply Z.bits_inj'. intros i Hi.
  rewrite Z.lor_spec. destruct (Z.lt_ge_cases i LIMB).
  - rewrite Z.ones_spec_low by lia. apply orb_true_r.
  - rewrite Z.ones_spec_high by lia.
    rewrite (testbit_small LIMB LIMB_pos) by lia. reflexivity.
Qed.

Lemma lxor_ones_limb (x : Z) :
  0 <= x < 2 ^ LIMB -> Z.lxor x (2 ^ LIMB - 1) = limb LIMB (Z.lnot x).
Proof.
  intros Hx. rewrite ones_limb. apply Z.bits_inj'. intros i Hi.
  rewrite Z.lxor_spec. unfold limb. destruct (Z.lt_ge_cases i LIMB).
  - rewrite Z.ones_spec_low, Z.mod_pow2_bits_low, Z.lnot_spec by lia.
    apply xorb_true_r.
  - rewrite Z.ones_spec_high, Z.mod_pow2_bits_high by lia.
    rewrite (testbit_small LIMB LIMB_pos) by lia. reflexivity.
Qed.

Lemma ext_sign_true : ext_sign LIMB true = 2 ^ LIMB - 1.
Proof. reflexivity. Qed.

Lemma ext_sign_false : ext_sign LIMB false = 0.
Proof. reflexivity. Qed.

(** X8. [a &= b] stands for the bitwise AND of the two numbers when [a] is
    at least as long as [b]; a shorter [a] is first zero-extended, so that
    it enters with its unsigned reading, whatever its sign. *)
Theorem and_eq_value (a b : BigInt) :
  wf LIMB a -> wf LIMB b ->
  toZ LIMB (and_eq LIMB a b)
  = Z.land (if len_ a <? len_ b then uval LIMB a else toZ LIMB a) (toZ LIMB b).
Proof.
  intros Ha Hb. pose proof Ha as (Hal & Hac & Hav).
  pose proof Hb as (Hbl & Hbc & Hbv).
  pose proof (pow_LIMB_pos LIMB LIMB_pos) as HB.
  unfold and_eq.
  destruct (Z.leb_spec (len_ a) (len_ b)) as [Hle|Hgt].
  - destruct (zero_extended_operand a b Ha Hb Hle) as (E1 & E2 & E3 & E4).
    cbv zeta in *.
    set (a' := if len_ a <? len_ b then SetLen LIMB a (len_ b) false else a) in *.
    destruct (limbwise_same_len Z.land andb land_bits eq_refl a' b
                E1 E2 Hbv ltac:(lia) E3) as (H1 & H2 & H3).
    cbv zeta in *. rewrite toZ_ShrinkLen by auto.
    rewrite H3, E4. reflexivity.
  - destruct (Z.ltb_spec (len_ a) (len_ b)); [lia|].
    set (v := limbwise Z.land (Z.to_nat (len_ b)) 0 (val_ a) (val_ b)).
    assert (Hv : in_range LIMB v).
    { apply (in_range_limbwise LIMB LIMB_pos Z.land andb); auto.
      exact land_bits. }
    assert (Hlv : length v = length (val_ a)) by apply length_limbwise.
    assert (Hlimb : forall j, 0 <= j ->
              limb_at v j = if j <? len_ b
                            then Z.land (limb_at (val_ a) j) (limb_at (val_ b) j)
                            else limb_at (val_ a) j).
    { intros j Hj. unfold v.
      rewrite limb_at_limbwise by (unfold cap_ in *; lia).
      destruct (Z.leb_spec 0 j); [|lia].
      destruct (Z.ltb_spec j (0 + Z.of_nat (Z.to_nat (len_ b)))),
        (Z.ltb_spec j (len_ b)); cbn [andb]; try reflexivity; lia. }
    destruct (Sign LIMB b) eqn:Hsb; cbn [negb].
    + rewrite toZ_ShrinkLen by (auto; unfold cap_ in *; cbn [len_ val_]; lia).
      apply (toZ_by_limbs LIMB LIMB_pos Z.land andb); auto;
        try (unfold cap_ in *; cbn [len_ val_]; lia).
      { exact land_bits. }
      intros j Hj. rewrite !sext_limb_unfold. cbn [len_ val_].
      rewrite Hsb, ext_sign_true.
      destruct (Z.ltb_spec j (len_ a)).
      * rewrite Hlimb by lia. destruct (Z.ltb_spec j (len_ b)); [reflexivity|].
        symmetry. apply land_ones_limb. apply in_range_limb_at; auto.
      * destruct (Z.ltb_spec j (len_ b)); [lia|].
        rewrite land_ones_limb by (apply ext_sign_range; auto).
        f_equal. unfold Sign. cbn [len_ val_]. rewrite Hlimb by lia.
        destruct (Z.ltb_spec (len_ a - 1) (len_ b)); [lia|]. reflexivity.
    + assert (Hf : in_range LIMB (fill v (len_ b) (len_ a) 0)).
      { apply in_range_fill; auto. lia. }
      rewrite toZ_ShrinkLen
        by (auto; unfold cap_ in *; cbn [len_ val_]; rewrite length_fill; lia).
      apply (toZ_by_limbs LIMB LIMB_pos Z.land andb); auto;
        try (unfold cap_ in *; cbn [len_ val_]; rewrite ?length_fill; lia).
      { exact land_bits. }
      intros j Hj. rewrite !sext_limb_unfold. cbn [len_ val_].
      rewrite Hsb, ext_sign_false.
      assert (Hlow : forall k, 0 <= k < len_ b ->
                limb_at (fill v (len_ b) (len_ a) 0) k
                = Z.land (limb_at (val_ a) k) (limb_at (val_ b) k)).
      { intros k Hk. rewrite limb_at_fill by lia.
        destruct (Z.leb_spec (len_ b) k); [lia|]. cbn [andb].
        rewrite Hlimb by lia. destruct (Z.ltb_spec k (len_ b)); [reflexivity|lia]. }
      destruct (Z.ltb_spec j (len_ b)).
      * destruct (Z.ltb_spec j (len_ a)); [|lia]. apply Hlow. lia.
      * rewrite Z.land_0_r.
        unfold Sign. cbn [len_ val_]. rewrite Hlow by lia.
        rewrite Z.land_spec. unfold Sign in Hsb. rewrite Hsb, andb_false_r.
        reflexivity.
Qed.

(** X9. [a |= b] stands for the bitwise OR of the two numbers when [a] is
    at least as long as [b]; a shorter [a] is first zero-extended, so that
    it enters with its unsigned reading, whatever its sign. *)
Theorem or_eq_value (a b : BigInt) :
  wf LIMB a -> wf LIMB b ->
  toZ LIMB (or_eq LIMB a b)
  = Z.lor (if len_ a <? len_ b then uval LIMB a else toZ LIMB a) (toZ LIMB b).
Proof.
  intros Ha Hb. pose proof Ha as (Hal & Hac & Hav).
  pose proof Hb as (Hbl & Hbc & Hbv).
  pose proof (pow_LIMB_pos LIMB LIMB_pos) as HB.
  unfold or_eq.
  destruct (Z.leb_spec (len_ a) (len_ b)) as [Hle|Hgt].
  - destruct (zero_extended_operand a b Ha Hb Hle) as (E1 & E2 & E3 & E4).
    cbv zeta in *.
    set (a' := if len_ a <? len_ b then SetLen LIMB a (len_ b) false else a) in *.
    destruct (limbwise_same_len Z.lor orb lor_bits eq_refl a' b
                E1 E2 Hbv ltac:(lia) E3) as (H1 & H2 & H3).
    cbv zeta in *. rewrite toZ_ShrinkLen by auto.
    rewrite H3, E4. reflexivity.
  - destruct (Z.ltb_spec (len_ a) (len_ b)); [lia|].
    set (v := limbwise Z.lor (Z.to_nat (len_ b)) 0 (val_ a) (val_ b)).
    assert (Hv : in_range LIMB v).
    { apply (in_range_limbwise LIMB LIMB_pos Z.lor orb); auto.
      exact lor_bits. }
    assert (Hlv : length v = length (val_ a)) by apply length_limbwise.
    assert (Hlimb : forall j, 0 <= j ->
              limb_at v j = if j <? len_ b
                            then Z.lor (limb_at (val_ a) j) (limb_at (val_ b) j)
                            else limb_at (val_ a) j).
    { intros j Hj. unfold v.
      rewrite limb_at_limbwise by (unfold cap_ in *; lia).
      destruct (Z.leb_spec 0 j); [|lia].
      destruct (Z.ltb_spec j (0 + Z.of_nat (Z.to_nat (len_ b)))),
        (Z.ltb_spec j (len_ b)); cbn [andb]; try reflexivity; lia. }
    destruct (Sign LIMB b) eqn:Hsb.
    + set (v1 := upd v (len_ b) (limb LIMB (-1))).
      set (v2 := if len_ b + 1 <? len_ a
                 then fill v1 (len_ b + 1) (len_ a) 0 else v1).
      assert (Hm1 : limb LIMB (-1) = 2 ^ LIMB - 1).
      { unfold limb. symmetry. apply Z.mod_unique with (q := -1); lia. }
      assert (Hv1 : in_range LIMB v1).
      { unfold v1. apply in_range_upd; auto. apply limb_range; auto. }
      assert (Hv2 : in_range LIMB v2).
      { unfold v2. destruct (len_ b + 1 <? len_ a); auto.
        apply in_range_fill; auto. lia. }
      assert (Hlv2 : length v2 = length (val_ a)).
      { unfold v2, v1. destruct (len_ b + 1 <? len_ a);
          rewrite ?length_fill, length_upd; exact Hlv. }
      assert (Hl2 : forall k, 0 <= k <= len_ b ->
                limb_at v2 k = if k <? len_ b
                               then Z.lor (limb_at (val_ a) k) (limb_at (val_ b) k)
                               else 2 ^ LIMB - 1).
      { intros k Hk.
        assert (E : limb_at v2 k = limb_at v1 k).
        { unfold v2. destruct (len_ b + 1 <? len_ a); auto.
          rewrite limb_at_fill by lia.
          destruct (Z.leb_spec (len_ b + 1) k); [lia|]. reflexivity. }
        rewrite E. unfold v1. destruct (Z.ltb_spec k (len_ b)).
        - rewrite limb_at_upd_other by lia. rewrite Hlimb by lia.
          destruct (Z.ltb_spec k (len_ b)); [reflexivity|lia].
        - replace k with (len_ b) by lia.
          rewrite limb_at_upd_same by (unfold cap_ in *; lia). exact Hm1. }
      rewrite toZ_ShrinkLen
        by (auto; unfold cap_ in *; cbn [len_ val_]; lia).
      apply (toZ_by_limbs LIMB LIMB_pos Z.lor orb); auto;
        try (unfold cap_ in *; cbn [len_ val_]; lia).
      { exact lor_bits. }
      intros j Hj. rewrite !sext_limb_unfold. cbn [len_ val_].
      rewrite Hsb, ext_sign_true.
      destruct (Z.ltb_spec j (len_ b)).
      * destruct (Z.ltb_spec j (len_ b + 1)); [|lia].
        destruct (Z.ltb_spec j (len_ a)); [|lia].
        rewrite Hl2 by lia. destruct (Z.ltb_spec j (len_ b)); [reflexivity|lia].
      * assert (Hr : Z.lor (if j <? len_ a then limb_at (val_ a) j
                            else ext_sign LIMB (Sign LIMB a)) (2 ^ LIMB - 1)
                     = 2 ^ LIMB - 1).
        { apply lor_ones_limb. destruct (j <? len_ a).
          - apply in_range_limb_at; auto.
          - apply ext_sign_range; auto. }
        rewrite Hr.
        destruct (Z.ltb_spec j (len_ b + 1)).
        -- rewrite Hl2 by lia. destruct (Z.ltb_spec j (len_ b)); [lia|reflexivity].
        -- unfold Sign. cbn [len_ val_].
           replace (len_ b + 1 - 1) with (len_ b) by lia.
           rewrite Hl2 by lia. destruct (Z.ltb_spec (len_ b) (len_ b)); [lia|].
           rewrite testbit_all_ones by auto. reflexivity.
    + rewrite toZ_ShrinkLen by (auto; unfold cap_ in *; cbn [len_ val_]; lia).
      apply (toZ_by_limbs LIMB LIMB_pos Z.lor orb); auto;
        try (unfold cap_ in *; cbn [len_ val_]; lia).
      { exact lor_bits. }
      intros j Hj. rewrite !sext_limb_unfold. cbn [len_ val_].
      rewrite Hsb, ext_sign_false.
      destruct (Z.ltb_spec j (len_ a)).
      * rewrite Hlimb by lia. destruct (Z.ltb_spec j (len_ b)); [reflexivity|].
        symmetry. apply Z.lor_0_r.
      * destruct (Z.ltb_spec j (len_ b)); [lia|].
        rewrite Z.lor_0_r.
        f_equal. unfold Sign. cbn [len_ val_]. rewrite Hlimb by lia.
        destruct (Z.ltb_spec (len_ a - 1) (len_ b)); [lia|]. reflexivity.
Qed.

(** What [operator^=] computes. *)
Lemma xor_eq_toZ (a b : BigInt) :
  wf LIMB a -> wf LIMB b ->
  toZ LIMB (xor_eq LIMB a b)
  = Z.lxor (if len_ a <? len_ b then uval LIMB a else toZ LIMB a) (toZ LIMB b).
Proof.
  intros Ha Hb. pose proof Ha as (Hal & Hac & Hav).
  pose proof Hb as (Hbl & Hbc & Hbv).
  pose proof (pow_LIMB_pos LIMB LIMB_pos) as HB.
  unfold xor_eq.
  destruct (Z.leb_spec (len_ a) (len_ b)) as [Hle|Hgt].
  - destruct (zero_extended_operand a b Ha Hb Hle) as (E1 & E2 & E3 & E4).
    cbv zeta in *.
    set (a' := if len_ a <? len_ b then SetLen LIMB a (len_ b) false else a) in *.
    destruct (limbwise_same_len Z.lxor xorb lxor_bits eq_refl a' b
                E1 E2 Hbv ltac:(lia) E3) as (H1 & H2 & H3).
    cbv zeta in *. rewrite toZ_ShrinkLen by auto.
    rewrite H3, E4. reflexivity.
  - destruct (Z.ltb_spec (len_ a) (len_ b)); [lia|].
    set (v := limbwise Z.lxor (Z.to_nat (len_ b)) 0 (val_ a) (val_ b)).
    assert (Hv : in_range LIMB v).
    { apply (in_range_limbwise LIMB LIMB_pos Z.lxor xorb); auto.
      exact lxor_bits. }
    assert (Hlv : length v = length (val_ a)) by apply length_limbwise.
    assert (Hlimb : forall j, 0 <= j ->
              limb_at v j = if j <? len_ b
                            then Z.lxor (limb_at (val_ a) j) (limb_at (val_ b) j)
                            else limb_at (val_ a) j).
    { intros j Hj. unfold v.
      rewrite limb_at_limbwise by (unfold cap_ in *; lia).
      destruct (Z.leb_spec 0 j); [|lia].
      destruct (Z.ltb_spec j (0 + Z.of_nat (Z.to_nat (len_ b)))),
        (Z.ltb_spec j (len_ b)); cbn [andb]; try reflexivity; lia. }
    destruct (Sign LIMB b) eqn:Hsb.
    + set (w := inv_loop LIMB (Z.to_nat (len_ a - len_ b)) (len_ b) v).
      assert (Hw : in_range LIMB w) by (apply in_range_inv_loop; auto).
      assert (Hlw : length w = length (val_ a)).
      { unfold w. rewrite length_inv_loop. exact Hlv. }
      assert (Hlw' : forall k, 0 <= k < len_ a ->
                limb_at w k
                = Z.lxor (limb_at (val_ a) k) (sext_limb LIMB b k)).
      { intros k Hk. unfold w.
        rewrite limb_at_inv_loop by (unfold cap_ in *; lia).
        rewrite Hlimb by lia. rewrite sext_limb_unfold, Hsb, ext_sign_true.
        destruct (Z.leb_spec (len_ b) k), (Z.ltb_spec k (len_ b)); try lia;
          destruct (Z.ltb_spec k (len_ b + Z.of_nat (Z.to_nat (len_ a - len_ b))));
          try lia; cbn [andb]; [|reflexivity].
        symmetry. apply lxor_ones_limb. apply in_range_limb_at; auto. }
      rewrite toZ_ShrinkLen by (auto; unfold cap_ in *; cbn [len_ val_]; lia).
      apply (toZ_by_limbs LIMB LIMB_pos Z.lxor xorb); auto;
        try (unfold cap_ in *; cbn [len_ val_]; lia).
      { exact lxor_bits. }
      intros j Hj. rewrite (sext_limb_unfold LIMB (mkBigInt (len_ a) w) j),
        (sext_limb_unfold LIMB a j).
      cbn [len_ val_].
      destruct (Z.ltb_spec j (len_ a)); [apply Hlw'; lia|].
      rewrite sext_limb_unfold.
      destruct (Z.ltb_spec j (len_ b)); [lia|].
      rewrite (bitop_ext_sign Z.lxor xorb lxor_bits eq_refl). f_equal.
      unfold Sign at 1. cbn [len_ val_]. rewrite Hlw' by lia.
      rewrite Z.lxor_spec. f_equal.
      rewrite sext_limb_unfold.
      destruct (Z.ltb_spec (len_ a - 1) (len_ b)); [lia|].
      apply testbit_ext_sign; auto. lia.
    + rewrite toZ_ShrinkLen by (auto; unfold cap_ in *; cbn [len_ val_]; lia).
      apply (toZ_by_limbs LIMB LIMB_pos Z.lxor xorb); auto;
        try (unfold cap_ in *; cbn [len_ val_]; lia).
      { exact lxor_bits. }
      intros j Hj. rewrite !sext_limb_unfold. cbn [len_ val_].
      rewrite Hsb, ext_sign_false.
      destruct (Z.ltb_spec j (len_ a)).
      * rewrite Hlimb by lia. destruct (Z.ltb_spec j (len_ b)); [reflexivity|].
        symmetry. apply Z.lxor_0_r.
      * destruct (Z.ltb_spec j (len_ b)); [lia|].
        rewrite Z.lxor_0_r.
        f_equal. unfold Sign. cbn [len_ val_]. rewrite Hlimb by lia.
        destruct (Z.ltb_spec (len_ a - 1) (len_ b)); [lia|]. reflexivity.
Qed.

(** X10. [a ^= b] stands for the bitwise XOR of the two numbers when [a] is
    at least as long as [b]; a shorter [a] is first zero-extended, so that
    it enters with its unsigned reading, whatever its sign. *)
Theorem xor_eq_value (a b : BigInt) :
  wf LIMB a -> wf LIMB b ->
  toZ LIMB (xor_eq LIMB a b)
  = Z.lxor (if len_ a <? len_ b then uval LIMB a else toZ LIMB a) (toZ LIMB b).
Proof. exact (xor_eq_toZ a b). Qed.

(** X11. An integer XOR its complement stands for [-1]: [a ^ ~a] has
    every bit set. *)
Theorem xor_with_complement (a : BigInt) :
  wf LIMB a ->
  toZ LIMB (BigInt_xor LIMB a (BigInt_not LIMB a)) = -1.
Proof.
  intros Ha. unfold BigInt_xor, BigInt_not.
  rewrite xor_eq_toZ by (auto using wf_ToBitInv).
  change (len_ (ToBitInv LIMB a)) with (len_ a). rewrite Z.ltb_irrefl.
  rewrite ToBitInv_value by auto.
  change (- toZ LIMB a - 1) with (Z.lnot (toZ LIMB a)).
  rewrite <- Z.lnot_lxor_r, Z.lxor_nilpotent. reflexivity.
Qed.

End BitwiseBinary.

(** ** Negation *)

Section Negation.
Variable LIMB : Z.
Hypothesis LIMB_range : 0 < LIMB <= 32.

Let LIMB_pos : 0 < LIMB.
Proof. lia. Qed.

Lemma length_neg_limbs (n : nat) (v : list Z) (c : Z) :
  length (neg_limbs LIMB n v c) = length v.
Proof.
  revert v c. induction n as [|n IH]; intros [|h t] c; cbn [neg_limbs length]; auto.
Qed.

Lemma in_range_neg_limbs (n : nat) (v : list Z) (c : Z) :
  in_range LIMB v -> in_range LIMB (neg_limbs LIMB n v c).
Proof.
  intros Hv. revert n c. induction Hv as [|h t Hh Ht IH]; intros [|n] c;
    cbn [neg_limbs].
  - constructor.
  - constructor.
  - constructor; auto.
  - constructor; [apply limb_range; auto|apply IH].
Qed.

Lemma limb_at_neg_limbs_above (n : nat) (v : list Z) (c : Z) (j : Z) :
  Z.of_nat n <= j -> limb_at (neg_limbs LIMB n v c) j = limb_at v j.
Proof.
  revert v c j. induction n as [|n IH]; intros [|h t] c j Hj;
    cbn [neg_limbs]; auto.
  replace j with ((j - 1) + 1) by lia.
  rewrite !limb_at_cons_S by lia. apply IH. lia.
Qed.

(** [~x + c] over [n] limbs, with the carry that leaves the top. *)
Lemma neg_limbs_value (n : nat) (v : list Z) (c : Z) :
  in_range LIMB v -> (n <= length v)%nat -> 0 <= c <= 1 ->
  exists co, 0 <= co <= 1 /\
    uval_limbs LIMB n (neg_limbs LIMB n v c) + co * 2 ^ (LIMB * Z.of_nat n)
    = 2 ^ (LIMB * Z.of_nat n) - 1 - uval_limbs LIMB n v + c.
Proof.
  intros Hv. pose proof (pow_LIMB_pos LIMB LIMB_pos) as HB.
  revert n c. induction Hv as [|h t Hh Ht IH]; intros [|n] c Hn Hc.
  - exists c. cbn [neg_limbs uval_limbs]. rewrite Z.mul_0_r. cbn. lia.
  - cbn [length] in Hn. lia.
  - exists c. cbn [neg_limbs uval_limbs]. rewrite Z.mul_0_r. cbn. lia.
  - cbn [neg_limbs uval_limbs]. cbn [length] in Hn.
    set (s := 2 ^ LIMB - 1 - h + c).
    assert (Hs : 0 <= s <= 2 ^ LIMB) by (unfold s; lia).
    assert (Hsq : 0 <= s / 2 ^ LIMB <= 1).
    { split; [apply Z.div_pos; lia|].
      apply Z.lt_succ_r. apply Z.div_lt_upper_bound; lia. }
    destruct (IH n (s / 2 ^ LIMB) ltac:(lia) Hsq) as (co & Hco & E).
    exists co. split; [exact Hco|].
    replace (LIMB * Z.of_nat (S n)) with (LIMB * (Z.of_nat n + 1)) by (f_equal; lia).
    rewrite pow_LIMB_succ by lia.
    pose proof (Z.div_mod s (2 ^ LIMB) ltac:(lia)) as Es.
    unfold limb.
    set (P := 2 ^ (LIMB * Z.of_nat n)) in *.
    set (X := uval_limbs LIMB n (neg_limbs LIMB n t (s / 2 ^ LIMB))) in *.
    set (Y := uval_limbs LIMB n t) in *.
    assert (Es' : s = 2 ^ LIMB - 1 - h + c) by reflexivity.
    nia.
Qed.

Lemma Sign_true_uval (a : BigInt) :
  wf LIMB a -> Sign LIMB a = true -> 2 ^ (LIMB * len_ a - 1) <= uval LIMB a.
Proof.
  intros Ha Hs.
  destruct (Z.lt_ge_cases (uval LIMB a) (2 ^ (LIMB * len_ a - 1))); auto.
  rewrite (uval_Sign_false LIMB LIMB_range a) in Hs by auto. discriminate.
Qed.

Lemma uval_Sign_true (a : BigInt) :
  wf LIMB a -> 2 ^ (LIMB * len_ a - 1) <= uval LIMB a -> Sign LIMB a = true.
Proof.
  intros Ha Hu. destruct (Sign LIMB a) eqn:Hs; auto.
  pose proof (Sign_false_uval LIMB LIMB_range a Ha Hs). lia.
Qed.

Lemma pow_half (N : Z) : 1 <= N -> 2 ^ N = 2 * 2 ^ (N - 1).
Proof.
  intros H. rewrite <- Z.pow_succ_r by lia. f_equal. lia.
Qed.

(** [ToOpposite] negates: the number, not only the limbs; the most
    negative value of a length gets one more limb. *)
Lemma ToOpposite_spec (a : BigInt) :
  wf LIMB a -> len_ a < 2 ^ 62 ->
  wf LIMB (ToOpposite LIMB a) /\
  toZ LIMB (ToOpposite LIMB a) = - toZ LIMB a /\
  cap_ a <= cap_ (ToOpposite LIMB a) /\
  len_ a <= len_ (ToOpposite LIMB a) <= len_ a + 1 /\
  (tail_zero a -> tail_zero (ToOpposite LIMB a)).
Proof.
  intros Ha HL. pose proof Ha as (Hl & Hc & Hv).
  pose proof (pow_LIMB_pos LIMB LIMB_pos) as HB.
  pose proof (uval_bounds LIMB LIMB_range a Ha) as HU.
  set (L := len_ a) in *.
  set (a' := mkBigInt L (neg_limbs LIMB (Z.to_nat L) (val_ a) 1)).
  assert (Ha' : wf LIMB a').
  { unfold wf, a', cap_ in *. cbn [len_ val_].
    rewrite length_neg_limbs. repeat split; try lia.
    apply in_range_neg_limbs; auto. }
  pose proof (uval_bounds LIMB LIMB_range a' Ha') as HU'.
  change (len_ a') with L in HU'.
  assert (HN : 1 <= LIMB * L) by nia.
  pose proof (pow_half (LIMB * L) HN) as Hhalf.
  assert (HP : 0 < 2 ^ (LIMB * L - 1)) by (apply Z.pow_pos_nonneg; lia).
  assert (Hval : uval LIMB a' = if uval LIMB a =? 0 then 0
                                else 2 ^ (LIMB * L) - uval LIMB a).
  { destruct (neg_limbs_value (Z.to_nat L) (val_ a) 1 Hv
                ltac:(unfold cap_ in *; lia) ltac:(lia)) as (co & Hco & E).
    rewrite Z2Nat.id in E by lia.
    unfold uval in HU, HU' |- *. fold L in HU |- *.
    unfold a' in HU' |- *. cbn [len_ val_] in HU' |- *.
    set (X := uval_limbs LIMB (Z.to_nat L)
                (neg_limbs LIMB (Z.to_nat L) (val_ a) 1)) in *.
    set (Y := uval_limbs LIMB (Z.to_nat L) (val_ a)) in *.
    set (P := 2 ^ (LIMB * L)) in *.
    assert (Hco' : co = 0 \/ co = 1) by lia.
    destruct (Z.eqb_spec Y 0); destruct Hco'; subst co; lia. }
  assert (Htail : forall j, L <= j -> limb_at (val_ a') j = limb_at (val_ a) j).
  { intros j Hj. unfold a'. cbn [val_]. apply limb_at_neg_limbs_above. lia. }
  assert (Hcap' : cap_ a' = cap_ a).
  { unfold a', cap_. cbn [val_]. rewrite length_neg_limbs. reflexivity. }
  unfold ToOpposite. fold L. fold a'.
  destruct (Sign LIMB a) eqn:Hs; cbn [andb].
  - pose proof (Sign_true_uval a Ha Hs) as Hge. fold L in Hge.
    destruct (Z.eqb_spec (uval LIMB a) 0); [lia|].
    destruct (Sign LIMB a') eqn:Hs'.
    + pose proof (Sign_true_uval a' Ha' Hs') as Hge'.
      change (len_ a') with L in Hge'.
      destruct Ha' as (Hl' & Hc' & Hv').
      destruct (SetLen_extend LIMB LIMB_pos a' (L + 1) Hv'
                  ltac:(change (len_ a') with L; lia)
                  ltac:(change (len_ a') with L; lia))
        as (E1 & E2 & E3 & E4 & E5).
      cbv zeta in *. change (len_ a') with L in *.
      set (e := SetLen LIMB a' (L + 1) false) in *.
      assert (Ecap : cap_ e <= Z.max (cap_ a) (2 * (L + 1)) /\ cap_ a <= cap_ e).
      { unfold e, SetLen. change (len_ a') with L.
        destruct (Z.ltb_spec (L + 1) L); [lia|]. cbn [andb].
        unfold cap_ in *. cbn [val_]. rewrite length_fill.
        destruct (Z.ltb_spec (Z.of_nat (length (val_ a'))) (L + 1)); [|lia].
        unfold AutoExpandSize, cap_. cbn [val_]. rewrite length_app, repeat_length.
        pose proof (grow_cap_le 64 (Z.max 1 (Z.of_nat (length (val_ a'))))
                      (L + 1) ltac:(lia)).
        pose proof (grow_cap_ge 64 (Z.max 1 (Z.of_nat (length (val_ a'))))
                      (L + 1) ltac:(lia)
                      ltac:(change (Z.of_nat 64) with 64; lia)).
        lia. }
      split; [unfold wf; repeat split; auto; lia|].
      split.
      * rewrite (toZ_zero_extended LIMB LIMB_pos a' e); auto;
          change (len_ a') with L; try (unfold cap_ in *; lia).
        -- unfold toZ. rewrite Hs. fold L. lia.
        -- apply E5. lia.
      * split; [lia|]. split; [lia|].
        intros Htz j Hj. rewrite E1 in Hj.
        unfold e, SetLen. change (len_ a') with L.
        destruct (Z.ltb_spec (L + 1) L); [lia|]. cbn [andb val_].
        rewrite limb_at_fill by lia.
        destruct (Z.ltb_spec j (L + 1)); [lia|].
        rewrite andb_false_r. cbn [andb].
        destruct (Z.ltb_spec (cap_ a') (L + 1)).
        -- unfold AutoExpandSize. cbn [val_].
           destruct (Z.lt_ge_cases j (cap_ a')).
           ++ rewrite limb_at_app by (unfold cap_ in *; lia).
              rewrite Htail by lia. apply Htz. fold L. lia.
           ++ unfold limb_at. destruct (0 <=? j); auto.
              rewrite app_nth2 by (unfold cap_ in *; lia).
              apply nth_repeat.
        -- rewrite Htail by lia. apply Htz. fold L. lia.
    + pose proof (Sign_false_uval LIMB LIMB_range a' Ha' Hs') as Hlt.
      change (len_ a') with L in Hlt.
      split; [exact Ha'|]. split.
      * unfold toZ. rewrite Hs, Hs'. fold L. lia.
      * split; [lia|]. split; [change (len_ a') with L; lia|].
        intros Htz j Hj. change (len_ a') with L in Hj.
        rewrite Htail by lia. apply Htz. fold L. lia.
  - pose proof (Sign_false_uval LIMB LIMB_range a Ha Hs) as Hlt. fold L in Hlt.
    split; [exact Ha'|]. split.
    + unfold toZ at 2. rewrite Hs. unfold toZ.
      destruct (Z.eqb_spec (uval LIMB a) 0) as [E0|E0].
      * rewrite (uval_Sign_false LIMB LIMB_range a')
          by (auto; change (len_ a') with L; lia). lia.
      * rewrite uval_Sign_true
          by (auto; change (len_ a') with L; lia).
        change (len_ a') with L. lia.
    + split; [lia|]. split; [change (len_ a') with L; lia|].
      intros Htz j Hj. change (len_ a') with L in Hj.
      rewrite Htail by lia. apply Htz. fold L. lia.
Qed.

End Negation.

(** ** Division by a limb *)

Section ScalarDivision.
Variable LIMB : Z.
Hypothesis LIMB_range : 0 < LIMB <= 32.

Let LIMB_pos : 0 < LIMB.
Proof. lia. Qed.

Lemma Sign_false_of_nonneg (a : BigInt) :
  wf LIMB a -> 0 <= toZ LIMB a -> Sign LIMB a = false.
Proof.
  intros Ha H. destruct (Sign LIMB a) eqn:Hs; auto.
  pose proof (uval_bounds LIMB LIMB_range a Ha).
  unfold toZ in H. rewrite Hs in H. lia.
Qed.

Lemma Sign_true_negative (a : BigInt) :
  wf LIMB a -> Sign LIMB a = true -> toZ LIMB a < 0.
Proof.
  intros Ha Hs. pose proof (uval_bounds LIMB LIMB_range a Ha).
  unfold toZ. rewrite Hs. lia.
Qed.

(** The division proper of [BasicDivEq], on the non-negative [x] that the
    first sign flip leaves, for a divisor that is not a power of two. *)
Lemma BasicDivEq_core (x : BigInt) (d tmp lg : Z) :
  wf LIMB x -> Sign LIMB x = false -> 2 <= d < 2 ^ LIMB -> tmp <> 1 ->
  exists t y,
    (if len_ x =? 1 then
       l <- rd (val_ x) 0 ;;
       v <- wr (val_ x) 0 (l / d) ;;
       Ok (l mod d, mkBigInt (len_ x) v)
     else if tmp =? 1 then
       Ok (0, shr_eq LIMB x lg)
     else
       ' (t, v) <- basic_div_loop LIMB (Z.to_nat (len_ x)) d 0 (val_ x) ;;
       Ok (t, mkBigInt (len_ x) v)) = Ok (t, y) /\
    wf LIMB y /\ len_ y = len_ x /\ toZ LIMB y = toZ LIMB x / d /\
    t mod d = toZ LIMB x mod d /\
    (len_ x = 1 -> 0 <= t < d).
Proof.
  intros Hx Hs Hd Htmp.
  pose proof (pow_LIMB_pos LIMB LIMB_pos) as HB.
  pose proof (uval_bounds LIMB LIMB_range x Hx) as HU.
  pose proof (Sign_false_uval LIMB LIMB_range x Hx Hs) as HUs.
  pose proof Hx as (Hl & Hc & Hv).
  assert (HX : toZ LIMB x = uval LIMB x) by (unfold toZ; rewrite Hs; reflexivity).
  rewrite HX. set (U := uval LIMB x) in *.
  assert (Hqb : 0 <= U / d < 2 ^ (LIMB * len_ x - 1)).
  { split; [apply Z.div_pos; lia|].
    apply Z.div_lt_upper_bound; [lia|]. nia. }
  destruct (Z.eqb_spec (len_ x) 1) as [HL1|HL1].
  - rewrite rd_ok by (unfold cap_ in *; lia). cbn [bind].
    rewrite wr_ok by (unfold cap_ in *; lia). cbn [bind].
    assert (HU0 : limb_at (val_ x) 0 = U).
    { symmetry. apply uval_one_limb; auto; lia. }
    rewrite HU0.
    set (q := mkBigInt (len_ x) (upd (val_ x) 0 (U / d))).
    assert (Hq : wf LIMB q).
    { unfold wf, q, cap_. cbn [len_ val_]. rewrite length_upd.
      unfold cap_ in *. repeat split; try lia.
      apply in_range_upd; auto. rewrite HL1 in HUs, Hqb.
      replace (LIMB * 1 - 1) with (LIMB - 1) in * by lia.
      assert (2 ^ (LIMB - 1) < 2 ^ LIMB) by (apply Z.pow_lt_mono_r; lia). lia. }
    assert (Hqu : uval LIMB q = U / d).
    { rewrite (uval_one_limb LIMB q) by (destruct Hq; cbn [q len_] in *; lia).
      cbn [q val_]. apply limb_at_upd_same. unfold cap_ in *. lia. }
    exists (U mod d), q. split; [reflexivity|]. split; [exact Hq|].
    split; [reflexivity|]. split.
    + unfold toZ. rewrite (uval_Sign_false LIMB LIMB_range); [exact Hqu|exact Hq|].
      rewrite Hqu. cbn [q len_]. lia.
    + split; [apply Z.mod_mod; lia|]. intros _. apply Z.mod_pos_bound. lia.
  - destruct (Z.eqb_spec tmp 1); [contradiction|].
    destruct (basic_div_loop_spec LIMB LIMB_range (Z.to_nat (len_ x)) d 0 (val_ x))
      as (t' & v' & H1 & H2 & H3 & H4 & H5 & H6); auto; try lia.
    { unfold cap_ in *. lia. }
    rewrite H1. cbn [bind].
    rewrite Z.mod_0_l, Z.mul_0_l, Z.add_0_l in H4, H5 by lia.
    fold (uval LIMB x) in H4, H5. fold U in H4, H5.
    set (q := mkBigInt (len_ x) v').
    assert (Hq : wf LIMB q).
    { unfold wf, q, cap_. cbn [len_ val_]. rewrite H2. unfold cap_ in *.
      repeat split; auto; lia. }
    assert (Hqu : uval LIMB q = U / d) by exact H4.
    exists t', q. split; [reflexivity|]. split; [exact Hq|].
    split; [reflexivity|]. split.
    + unfold toZ. rewrite (uval_Sign_false LIMB LIMB_range); [exact Hqu|exact Hq|].
      rewrite Hqu. cbn [q len_]. lia.
    + split; [exact H5|]. intros; lia.
Qed.

(** What [BasicDivEq] returns for a dividend of either sign and a divisor
    that is not a power of two. *)
Lemma BasicDivEq_signed (a : BigInt) (d m0 : Z) :
  wf LIMB a -> len_ a < 2 ^ 61 ->
  2 <= d < 2 ^ LIMB -> ~ is_pow2 d ->
  exists q m,
    BasicDivEq LIMB a d (Some m0) = Ok (q, Some m) /\
    BasicDivEq LIMB a d None = Ok (q, None) /\
    toZ LIMB q = Z.quot (toZ LIMB a) d /\
    0 <= m <= d /\ m mod d = toZ LIMB a mod d /\
    (0 <= toZ LIMB a -> m < d).
Proof.
  intros Ha HL Hd Hnp.
  pose proof (pow_LIMB_pos LIMB LIMB_pos) as HB.
  destruct (ctz_loop_spec LIMB (Z.to_nat LIMB) (Z.to_nat LIMB) d 0)
    as (tmp & lg & e & Hctz & He & Hde).
  { rewrite Z2Nat.id by lia. lia. } { lia. }
  assert (Htmp : tmp <> 1).
  { intros ->. apply Hnp. exists e. split; [lia|]. lia. }
  unfold BasicDivEq.
  destruct (Z.eqb_spec d 0); [lia|]. destruct (Z.eqb_spec d 1); [lia|].
  cbn [orb]. cbv zeta.
  destruct (Sign LIMB a) eqn:Hs.
  - (* negative dividend *)
    destruct (ToOpposite_spec LIMB LIMB_range a Ha ltac:(lia))
      as (Hx & HxZ & Hxc & Hxl & _).
    set (x := ToOpposite LIMB a) in *.
    pose proof (Sign_true_negative a Ha Hs) as Hneg.
    assert (Hsx : Sign LIMB x = false) by (apply Sign_false_of_nonneg; auto; lia).
    destruct (BasicDivEq_core x d tmp lg Hx Hsx Hd Htmp)
      as (t & y & Hcore & Hy & Hyl & HyZ & Ht & Ht1).
    rewrite Hctz. cbn [bind]. rewrite Hcore. cbn [bind].
    destruct (ToOpposite_spec LIMB LIMB_range y Hy ltac:(lia))
      as (Hz & HzZ & _ & _ & _).
    set (z := ToOpposite LIMB y) in *.
    destruct Hz as (Hz1 & Hz2 & Hz3).
    assert (HqZ : toZ LIMB (ShrinkLen LIMB z) = Z.quot (toZ LIMB a) d).
    { rewrite toZ_ShrinkLen by auto. rewrite HzZ, HyZ, HxZ.
      replace (toZ LIMB a) with (- (- toZ LIMB a)) at 2 by lia.
      rewrite Z.quot_opp_l by lia.
      rewrite Z.quot_div_nonneg by lia. reflexivity. }
    pose proof (Z.mod_pos_bound (toZ LIMB x) d ltac:(lia)) as Hr.
    assert (Hcong : (d - toZ LIMB x mod d) mod d = toZ LIMB a mod d).
    { pose proof (Z.div_mod (toZ LIMB x) d ltac:(lia)) as Edm.
      destruct (Z.eq_dec (toZ LIMB x mod d) 0) as [E|E].
      - rewrite E, Z.sub_0_r, Z.mod_same by lia.
        apply Z.mod_unique with (q := - (toZ LIMB x / d)); lia.
      - rewrite Z.mod_small by lia.
        apply Z.mod_unique with (q := - (toZ LIMB x / d) - 1); lia. }
    destruct (Z.eqb_spec t 0) as [Et|Et]; cbn [andb negb].
    + exists (ShrinkLen LIMB z), 0. subst t.
      rewrite Z.mod_0_l in Ht by lia. rewrite !Z.mod_0_l by lia.
      split; [reflexivity|]. split; [reflexivity|]. split; [exact HqZ|].
      split; [lia|]. split.
      * rewrite <- Hcong, <- Ht.
        rewrite Z.sub_0_r. symmetry. apply Z.mod_same. lia.
      * intros; lia.
    + exists (ShrinkLen LIMB z), (d - toZ LIMB x mod d).
      assert (Em : limb LIMB (u64 (d - t mod d)) = d - toZ LIMB x mod d).
      { rewrite Ht. unfold limb, u64.
        rewrite (Z.mod_small (d - _) (2 ^ 64)).
        - apply Z.mod_small. lia.
        - assert (2 ^ LIMB <= 2 ^ 64) by (apply Z.pow_le_mono_r; lia). lia. }
      rewrite Em.
      split; [reflexivity|]. split; [reflexivity|]. split; [exact HqZ|].
      split; [lia|]. split; [exact Hcong|].
      intros; lia.
  - (* non-negative dividend *)
    destruct (BasicDivEq_core a d tmp lg Ha Hs Hd Htmp)
      as (t & y & Hcore & Hy & Hyl & HyZ & Ht & Ht1).
    rewrite Hctz. cbn [bind]. rewrite Hcore. cbn [bind]. cbn [andb].
    destruct Hy as (Hy1 & Hy2 & Hy3).
    pose proof (Z.mod_pos_bound (toZ LIMB a) d ltac:(lia)) as Hr.
    assert (H0 : 0 <= toZ LIMB a).
    { unfold toZ. rewrite Hs. apply (uval_bounds LIMB LIMB_range a Ha). }
    exists (ShrinkLen LIMB y), (toZ LIMB a mod d).
    assert (Em : limb LIMB (t mod d) = toZ LIMB a mod d).
    { rewrite Ht. unfold limb. apply Z.mod_small. lia. }
    rewrite Em.
    split; [reflexivity|]. split; [reflexivity|]. split.
    + rewrite toZ_ShrinkLen by auto. rewrite HyZ.
      symmetry. apply Z.quot_div_nonneg; lia.
    + split; [lia|]. split; [apply Z.mod_mod; lia|]. intros; lia.
Qed.

Lemma horner_loop_spec (rhs : Z) (v : list Z) (n : nat) :
  forall (i : nat) (cur tot : Z),
    in_range LIMB v -> (i + n <= length v)%nat -> 0 < rhs < 2 ^ LIMB ->
    cur = 2 ^ (LIMB * Z.of_nat i) mod rhs ->
    tot = uval_limbs LIMB i v mod rhs ->
    horner_loop n (Z.of_nat i) rhs (2 ^ LIMB mod rhs) cur tot v
    = Ok (uval_limbs LIMB (i + n) v mod rhs).
Proof.
  pose proof (pow_LIMB_pos LIMB LIMB_pos) as HB.
  assert (H2B : 2 ^ LIMB * 2 ^ LIMB <= 2 ^ 64).
  { rewrite <- Z.pow_add_r by lia. apply Z.pow_le_mono_r; lia. }
  induction n as [|n IH]; intros i cur tot Hv Hn Hr Hcur Htot.
  - cbn [horner_loop]. rewrite Nat.add_0_r. rewrite Htot. reflexivity.
  - cbn [horner_loop]. rewrite rd_ok by lia. cbn [bind].
    set (l := limb_at v (Z.of_nat i)).
    pose proof (in_range_limb_at LIMB LIMB_pos v (Z.of_nat i) Hv) as Hl. fold l in Hl.
    pose proof (Z.mod_pos_bound (2 ^ (LIMB * Z.of_nat i)) rhs ltac:(lia)) as Hc.
    pose proof (Z.mod_pos_bound (uval_limbs LIMB i v) rhs ltac:(lia)) as Ht.
    pose proof (Z.mod_pos_bound (2 ^ LIMB) rhs ltac:(lia)) as Hm.
    rewrite <- Hcur in Hc. rewrite <- Htot in Ht.
    assert (E1 : u64 (cur * (2 ^ LIMB mod rhs)) = cur * (2 ^ LIMB mod rhs)).
    { unfold u64. apply Z.mod_small. nia. }
    assert (E2 : u64 (cur * l) = cur * l).
    { unfold u64. apply Z.mod_small. nia. }
    assert (E3 : u64 (tot + cur * l) = tot + cur * l).
    { unfold u64. apply Z.mod_small. nia. }
    rewrite E1, E2, E3.
    replace (Z.of_nat i + 1) with (Z.of_nat (S i)) by lia.
    rewrite IH; auto; try lia.
    + do 3 f_equal. lia.
    + rewrite Hcur.
      replace (LIMB * Z.of_nat (S i)) with (LIMB * (Z.of_nat i + 1))
        by (f_equal; lia).
      rewrite pow_LIMB_succ by lia.
      rewrite (Z.mul_comm (2 ^ LIMB)).
      rewrite <- Z.mul_mod by lia. reflexivity.
    + rewrite uval_limbs_snoc by (auto; lia). fold l.
      rewrite Htot, Hcur.
      rewrite (Z.mul_comm l).
      rewrite Z.add_mod_idemp_l by lia.
      rewrite <- Z.add_mod_idemp_r by lia.
      rewrite Z.mul_mod_idemp_l by lia.
      rewrite Z.add_mod_idemp_r by lia. reflexivity.
Qed.

(** The residue of a number is that of its lowest limb when the divisor
    divides [2^LIMB]. *)
Lemma residue_of_low_limb (x : BigInt) (rhs : Z) :
  wf LIMB x -> 0 < rhs -> 2 ^ LIMB mod rhs = 0 ->
  limb_at (val_ x) 0 mod rhs = uval LIMB x mod rhs.
Proof.
  intros (Hl & Hc & Hv) Hr H0.
  pose proof (pow_LIMB_pos LIMB LIMB_pos) as HB.
  unfold uval.
  destruct (val_ x) as [|h t] eqn:E.
  { unfold cap_ in *. rewrite E in *. cbn [length] in *. lia. }
  replace (Z.to_nat (len_ x)) with (S (Z.to_nat (len_ x - 1))) by lia.
  cbn [uval_limbs]. rewrite limb_at_cons_0.
  apply Z.mod_divide in H0; [|lia]. destruct H0 as (k & Hk).
  rewrite Hk.
  replace (h + k * rhs * uval_limbs LIMB (Z.to_nat (len_ x - 1)) t)
    with (h + (k * uval_limbs LIMB (Z.to_nat (len_ x - 1)) t) * rhs) by ring.
  rewrite Z.mod_add by lia. reflexivity.
Qed.

(** What [operator%=(IntT)] returns on a buffer of at least two limbs. *)
Lemma mod_eq_limb_rem (a : BigInt) (rhs : Z) :
  wf LIMB a -> tail_zero a -> 2 <= cap_ a -> len_ a < 2 ^ 61 ->
  0 < rhs < 2 ^ LIMB ->
  exists m, mod_eq_limb LIMB a rhs = Ok m /\
            toZ LIMB m = Z.rem (toZ LIMB a) rhs.
Proof.
  intros Ha Htz Hcap HL Hr.
  pose proof (pow_LIMB_pos LIMB LIMB_pos) as HB.
  unfold mod_eq_limb.
  destruct (Z.eqb_spec rhs 0); [lia|]. cbv zeta.
  set (sign := Sign LIMB a).
  set (x := if sign then ToOpposite LIMB a else a).
  assert (Hx : wf LIMB x /\ Sign LIMB x = false /\ tail_zero x /\
               2 <= cap_ x /\ len_ x < 2 ^ 62 /\
               toZ LIMB a = if sign then - toZ LIMB x else toZ LIMB x).
  { unfold x, sign. destruct (Sign LIMB a) eqn:Hs.
    - destruct (ToOpposite_spec LIMB LIMB_range a Ha ltac:(lia))
        as (H1 & H2 & H3 & H4 & H5).
      pose proof (Sign_true_negative a Ha Hs).
      split; [exact H1|]. split; [apply Sign_false_of_nonneg; auto; lia|].
      split; [auto|]. split; [lia|]. split; lia.
    - split; [exact Ha|]. split; [exact Hs|].
      split; [auto|]. split; [lia|]. split; lia. }
  destruct Hx as (Hx & Hsx & Htx & Hcx & Hlx & HaZ).
  pose proof Hx as (Hxl & Hxc & Hxv).
  pose proof (uval_bounds LIMB LIMB_range x Hx) as HU.
  assert (HxZ : toZ LIMB x = uval LIMB x) by (unfold toZ; rewrite Hsx; reflexivity).
  set (U := uval LIMB x) in *.
  pose proof (Z.mod_pos_bound U rhs ltac:(lia)) as HUr.
  assert (Htot : (if 2 ^ LIMB mod rhs =? 0
                  then l <- rd (val_ x) 0 ;; Ok (l mod rhs)
                  else horner_loop (Z.to_nat (len_ x)) 0 rhs (2 ^ LIMB mod rhs)
                         1 0 (val_ x)) = Ok (U mod rhs)).
  { destruct (Z.eqb_spec (2 ^ LIMB mod rhs) 0) as [E|E].
    - rewrite rd_ok by (unfold cap_ in *; lia). cbn [bind].
      rewrite (residue_of_low_limb x rhs) by (auto; lia). reflexivity.
    - change 0 with (Z.of_nat 0) at 1.
      rewrite (horner_loop_spec rhs (val_ x) (Z.to_nat (len_ x)) 0 1 0);
        auto; try (unfold cap_ in *; lia).
      + change (Z.of_nat 0) with 0. rewrite Z.mul_0_r, Z.pow_0_r.
        symmetry. apply Z.mod_small.
        assert (rhs <> 1).
        { intros ->. rewrite Z.mod_1_r in E. lia. }
        lia. }
  rewrite Htot. cbn [bind].
  set (v1 := if 1 <? len_ x then fill (val_ x) 1 (len_ x) 0 else val_ x).
  assert (Hv1l : length v1 = length (val_ x)).
  { unfold v1. destruct (1 <? len_ x); rewrite ?length_fill; reflexivity. }
  assert (Hv1 : in_range LIMB v1).
  { unfold v1. destruct (1 <? len_ x); auto. apply in_range_fill; auto. lia. }
  assert (Hv11 : limb_at v1 1 = 0).
  { unfold v1. destruct (Z.ltb_spec 1 (len_ x)).
    - rewrite limb_at_fill by lia.
      destruct (Z.leb_spec 1 1); [|lia]. destruct (Z.ltb_spec 1 (len_ x)); [|lia].
      destruct (Z.ltb_spec 1 (Z.of_nat (length (val_ x)))); [reflexivity|].
      unfold cap_ in *. lia.
    - apply Htx. lia. }
  rewrite wr_ok by (unfold cap_ in *; lia). cbn [bind].
  rewrite rd_ok by (rewrite length_upd; unfold cap_ in *; lia). cbn [bind].
  assert (Elimb : limb LIMB (U mod rhs) = U mod rhs).
  { unfold limb. apply Z.mod_small. lia. }
  rewrite Elimb.
  set (y := mkBigInt 2 (upd v1 0 (U mod rhs))).
  assert (Hy : wf LIMB y).
  { unfold wf, y, cap_ in *. cbn [len_ val_]. rewrite length_upd.
    repeat split; try lia. apply in_range_upd; auto. lia. }
  assert (HyZ : toZ LIMB y = U mod rhs).
  { set (y0 := mkBigInt 1 (upd v1 0 (U mod rhs))).
    rewrite (toZ_zero_extended LIMB LIMB_pos y0 y);
      unfold y0, y, cap_ in *; cbn [len_ val_]; rewrite ?length_upd; try lia; auto.
    - rewrite (uval_one_limb LIMB (mkBigInt 1 (upd v1 0 (U mod rhs))))
        by (unfold cap_; cbn [len_ val_]; rewrite ?length_upd; lia).
      cbn [val_]. apply limb_at_upd_same. lia.
    - rewrite limb_at_upd_other by lia. exact Hv11. }
  destruct sign.
  - destruct (ToOpposite_spec LIMB LIMB_range y Hy
                ltac:(change (len_ y) with 2; lia))
      as ((H1 & H2 & H3) & H4 & _).
    exists (ShrinkLen LIMB (ToOpposite LIMB y)). split; [reflexivity|].
    rewrite toZ_ShrinkLen by auto. rewrite H4, HyZ, HaZ, HxZ.
    rewrite Z.rem_opp_l by lia.
    rewrite Z.rem_mod_nonneg by lia. reflexivity.
  - exists (ShrinkLen LIMB y). split; [reflexivity|].
    destruct Hy as (H1 & H2 & H3).
    rewrite toZ_ShrinkLen by auto. rewrite HyZ, HaZ, HxZ.
    rewrite Z.rem_mod_nonneg by lia. reflexivity.
Qed.

(** X15. On a buffer of one limb [operator%=(IntT)] still sets
    [len_ = 2]: the limb [val_[1]] that is inspected next lies outside
    the buffer. *)
Theorem mod_eq_limb_reads_past_one_limb_buffer (a : BigInt) (rhs : Z) :
  wf LIMB a -> cap_ a = 1 -> Sign LIMB a = false -> 0 < rhs < 2 ^ LIMB ->
  mod_eq_limb LIMB a rhs = Err OutOfBounds.
Proof.
  intros Ha Hcap Hs Hr. pose proof Ha as (Hl & Hc & Hv).
  pose proof (pow_LIMB_pos LIMB LIMB_pos) as HB.
  unfold mod_eq_limb.
  destruct (Z.eqb_spec rhs 0); [lia|]. cbv zeta. rewrite Hs.
  assert (HL : len_ a = 1) by lia.
  assert (Htot : exists tot,
            (if 2 ^ LIMB mod rhs =? 0
             then l <- rd (val_ a) 0 ;; Ok (l mod rhs)
             else horner_loop (Z.to_nat (len_ a)) 0 rhs (2 ^ LIMB mod rhs)
                    1 0 (val_ a)) = Ok tot).
  { destruct (2 ^ LIMB mod rhs =? 0).
    - rewrite rd_ok by (unfold cap_ in *; lia). cbn [bind]. eauto.
    - rewrite HL. change (Z.to_nat 1) with 1%nat. cbn [horner_loop].
      rewrite rd_ok by (unfold cap_ in *; lia). cbn [bind]. eauto. }
  destruct Htot as (tot & Htot). rewrite Htot. cbn [bind].
  rewrite HL. change (1 <? 1) with false. cbv iota.
  rewrite wr_ok by (unfold cap_ in *; lia). cbn [bind].
  unfold rd. rewrite length_upd.
  unfold cap_ in Hcap. rewrite Hcap. reflexivity.
Qed.

(** X12. [BasicDivEq] for a dividend of either sign and a divisor that is
    not a power of two: the quotient is rounded toward zero, with or
    without a remainder slot; the limb written to the slot lies in
    [[0, d]] and is congruent to the dividend modulo [d].  For a negative
    dividend it is therefore the residue of the floor division (or [d]
    itself), not the remainder that belongs to the quotient. *)
Theorem BasicDivEq_rounds_toward_zero (a : BigInt) (d m0 : Z) :
  wf LIMB a -> len_ a < 2 ^ 61 ->
  2 <= d < 2 ^ LIMB -> ~ is_pow2 d ->
  exists q m,
    BasicDivEq LIMB a d (Some m0) = Ok (q, Some m) /\
    BasicDivEq LIMB a d None = Ok (q, None) /\
    toZ LIMB q = Z.quot (toZ LIMB a) d /\
    0 <= m <= d /\ m mod d = toZ LIMB a mod d /\
    (0 <= toZ LIMB a -> m < d).
Proof. exact (BasicDivEq_signed a d m0). Qed.

(** X13. [a %= rhs] for a limb [rhs > 0], on a buffer of at least two
    limbs: the result is the remainder of the division rounded toward
    zero, with the sign of the dividend. *)
Theorem mod_eq_limb_value (a : BigInt) (rhs : Z) :
  wf LIMB a -> tail_zero a -> 2 <= cap_ a -> len_ a < 2 ^ 61 ->
  0 < rhs < 2 ^ LIMB ->
  exists m, mod_eq_limb LIMB a rhs = Ok m /\
            toZ LIMB m = Z.rem (toZ LIMB a) rhs.
Proof. exact (mod_eq_limb_rem a rhs). Qed.

(** X14. The scalar operators [a / d] and [a % d] satisfy the division
    identity [(a / d) * d + a % d = a] for a dividend of either sign,
    when [d] is not a power of two. *)
Theorem scalar_division_identity (a : BigInt) (d : Z) :
  wf LIMB a -> tail_zero a -> 2 <= cap_ a -> len_ a < 2 ^ 61 ->
  2 <= d < 2 ^ LIMB -> ~ is_pow2 d ->
  exists q m,
    BigInt_div_limb LIMB a d = Ok q /\ BigInt_mod_limb LIMB a d = Ok m /\
    toZ LIMB q * d + toZ LIMB m = toZ LIMB a /\
    Z.abs (toZ LIMB m) < d.
Proof.
  intros Ha Htz Hcap HL Hd Hnp.
  destruct (BasicDivEq_signed a d 0 Ha HL Hd Hnp)
    as (q & m' & _ & Hq & HqZ & _).
  destruct (mod_eq_limb_rem a d Ha Htz Hcap HL ltac:(lia)) as (m & Hm & HmZ).
  exists q, m. unfold BigInt_div_limb, BigInt_mod_limb, div_eq_limb.
  rewrite Hq. cbn [bind]. split; [reflexivity|]. split; [exact Hm|].
  rewrite HqZ, HmZ. split.
  - pose proof (Z.quot_rem' (toZ LIMB a) d). lia.
  - pose proof (Z.rem_bound_abs (toZ LIMB a) d ltac:(lia)). lia.
Qed.

End ScalarDivision.

(** ** Edges of the division routines *)

Section DivisionEdges.
Variable LIMB : Z.
Hypothesis LIMB_range : 0 < LIMB <= 32.

Let LIMB_pos : 0 < LIMB.
Proof. lia. Qed.

(** The loop that strips the trailing zero bits of a power of two ends
    with [tmp_rhs = 1] and the exponent in [log_rhs]. *)
Lemma ctz_loop_pow2 (e : nat) :
  forall (fuel : nat) (l : Z),
    (e <= fuel)%nat -> 0 <= l -> l + Z.of_nat e < 2 ^ LIMB ->
    ctz_loop LIMB fuel (2 ^ Z.of_nat e) l = Ok (1, l + Z.of_nat e).
Proof.
  induction e as [|e IH]; intros fuel l Hf Hl Hb.
  - change (2 ^ Z.of_nat 0) with 1. change (Z.of_nat 0) with 0.
    rewrite Z.add_0_r. destruct fuel; reflexivity.
  - destruct fuel as [|f]; [lia|].
    rewrite Nat2Z.inj_succ, Z.pow_succ_r by lia.
    cbn [ctz_loop].
    assert (Hb0 : Z.testbit (2 * 2 ^ Z.of_nat e) 0 = false).
    { rewrite Z.bit0_odd, Z.odd_mul. reflexivity. }
    rewrite Hb0.
    assert (Hs : Z.shiftr (2 * 2 ^ Z.of_nat e) 1 = 2 ^ Z.of_nat e).
    { rewrite Z.shiftr_div_pow2 by lia. change (2 ^ 1) with 2.
      rewrite Z.mul_comm. apply Z.div_mul. lia. }
    rewrite Hs.
    assert (El : limb LIMB (l + 1) = l + 1).
    { unfold limb. apply Z.mod_small. lia. }
    rewrite El, IH by lia. do 2 f_equal. lia.
Qed.

(** X16. [BasicDivEq] by a power of two [2^e >= 2], on a non-negative
    dividend of more than one limb: the quotient is the dividend shifted
    right by [e], and [0] is written to the remainder slot, whatever the
    dividend. *)
Theorem BasicDivEq_pow2_writes_zero_remainder (a : BigInt) (e m0 : Z) :
  Sign LIMB a = false -> 2 <= len_ a -> 1 <= e < LIMB ->
  BasicDivEq LIMB a (2 ^ e) (Some m0)
  = Ok (ShrinkLen LIMB (shr_eq LIMB a e), Some 0).
Proof.
  intros Hs HL He.
  assert (Hd : 2 <= 2 ^ e).
  { change 2 with (2 ^ 1) at 1. apply Z.pow_le_mono_r; lia. }
  assert (Hlin : e < 2 ^ e) by (apply Z.pow_gt_lin_r; lia).
  assert (Hmono : 2 ^ e <= 2 ^ LIMB) by (apply Z.pow_le_mono_r; lia).
  pose proof (ctz_loop_pow2 (Z.to_nat e) (Z.to_nat LIMB) 0 ltac:(lia)
                ltac:(lia) ltac:(lia)) as Hctz.
  rewrite Z2Nat.id, Z.add_0_l in Hctz by lia.
  unfold BasicDivEq.
  destruct (Z.eqb_spec (2 ^ e) 0); [lia|].
  destruct (Z.eqb_spec (2 ^ e) 1); [lia|].
  cbn [orb]. rewrite Hs, Hctz. cbn [bind].
  destruct (Z.eqb_spec (len_ a) 1); [lia|].
  change (1 =? 1) with true. cbv iota. cbn [bind andb].
  rewrite Z.mod_0_l by lia. reflexivity.
Qed.

(** X17. When the top limb of a non-zero divisor is zero, the
    normalization loop of [DivEqAlgA] doubles [0] for ever: no amount of
    fuel lets the division return, whatever the dividend. *)
Theorem DivEqAlgA_never_returns_on_zero_top_limb
  (fuel : nat) (a rhs : BigInt) (mod_ : option BigInt) :
  1 <= len_ rhs <= cap_ rhs -> cap_ rhs < 2 ^ 64 ->
  limb_at (val_ rhs) (len_ rhs - 1) = 0 ->
  BigInt_eqb LIMB rhs (BigInt_of_int LIMB 0) = false ->
  DivEqAlgA LIMB fuel a rhs mod_ = Err OutOfFuel.
Proof.
  intros Hl Hc Htop Hne.
  assert (Hs : Sign LIMB rhs = false).
  { unfold Sign. rewrite Htop. apply Z.bits_0. }
  unfold DivEqAlgA. rewrite Hne, Hs.
  assert (Hu : u64 (len_ rhs - 1) = len_ rhs - 1).
  { unfold u64. apply Z.mod_small. lia. }
  rewrite Hu, rd_ok by (unfold cap_ in *; lia). cbn [bind].
  rewrite Htop, norm_loop_never_ends_on_zero by lia. reflexivity.
Qed.

(** The zero that the long division leaves as quotient when the dividend
    is below the divisor. *)
Lemma toZ_cleared (a : BigInt) :
  wf LIMB a ->
  toZ LIMB (ShrinkLen LIMB (mkBigInt 1 (fill (val_ a) 0 (len_ a) 0))) = 0.
Proof.
  intros (Hl & Hc & Hv).
  pose proof (pow_LIMB_pos LIMB LIMB_pos) as HB.
  rewrite toZ_ShrinkLen; auto.
  - assert (H0 : limb_at (fill (val_ a) 0 (len_ a) 0) 0 = 0).
    { rewrite limb_at_fill by lia.
      destruct (Z.leb_spec 0 0), (Z.ltb_spec 0 (len_ a)),
        (Z.ltb_spec 0 (Z.of_nat (length (val_ a)))); cbn [andb];
        try reflexivity; unfold cap_ in *; lia. }
    unfold toZ. rewrite Sign_false_of_small.
    + rewrite (uval_one_limb LIMB)
        by (unfold cap_; cbn [len_ val_]; rewrite ?length_fill;
            unfold cap_ in *; lia).
      exact H0.
    + cbn [len_ val_]. change (1 - 1) with 0. rewrite H0.
      split; [lia|]. apply Z.pow_pos_nonneg; lia.
  - cbn [val_]. apply in_range_fill; auto. lia.
  - unfold cap_ in *. cbn [len_ val_]. rewrite length_fill. lia.
Qed.

(** X18. Both long divisions, on non-negative operands with the dividend
    below the divisor ([*this < rhs]): the quotient is [0] and the
    remainder is the dividend. *)
Theorem long_division_of_smaller_dividend
  (fuel : nat) (a b m0 : BigInt) :
  wf LIMB a -> Sign LIMB a = false ->
  wf LIMB b -> Sign LIMB b = false ->
  0 < limb_at (val_ b) (len_ b - 1) ->
  BigInt_ltb LIMB a b = true ->
  (Z.to_nat (LIMB - 1) <= fuel)%nat ->
  exists q m,
    DivEqAlgA LIMB fuel a b (Some m0) = Ok (q, Some m) /\
    DivEqAlgB LIMB fuel a b (Some m0) = Ok (q, Some m) /\
    toZ LIMB q = 0 /\ toZ LIMB m = toZ LIMB a.
Proof.
  intros Ha Hsa Hb Hsb Htop Hlt Hf.
  pose proof Ha as (Hal & Hac & Hav). pose proof Hb as (Hbl & Hbc & Hbv).
  pose proof (pow_LIMB_pos LIMB LIMB_pos) as HB.
  pose proof (in_range_limb_at LIMB LIMB_pos (val_ b) (len_ b - 1) Hbv) as Htr.
  assert (Hne : BigInt_eqb LIMB b (BigInt_of_int LIMB 0) = false).
  { unfold BigInt_eqb. rewrite (toZ_BigInt_of_int_0 LIMB).
    apply Z.eqb_neq. unfold toZ. rewrite Hsb.
    pose proof (top_limb_value LIMB LIMB_range b Hb) as Ht.
    intros E. rewrite E, Z.div_0_l in Ht; [lia|].
    assert (0 < 2 ^ (LIMB * (len_ b - 1))) by (apply Z.pow_pos_nonneg; nia).
    lia. }
  assert (Hsc : small_cases LIMB a b (Some m0)
                = Some (Ok (mkBigInt 1 (fill (val_ a) 0 (len_ a) 0), Some a))).
  { unfold small_cases. rewrite Hlt. reflexivity. }
  assert (HA : DivEqAlgA LIMB fuel a b (Some m0)
               = Ok (ShrinkLen LIMB (mkBigInt 1 (fill (val_ a) 0 (len_ a) 0)),
                     Some (ShrinkLen LIMB a))).
  { unfold DivEqAlgA. rewrite Hne, Hsa, Hsb.
    assert (Hu : u64 (len_ b - 1) = len_ b - 1).
    { unfold u64. apply Z.mod_small. lia. }
    rewrite Hu, rd_ok by (unfold cap_ in *; lia). cbn [bind].
    destruct (norm_loop_spec LIMB LIMB_range (Z.to_nat (LIMB - 1)) fuel
                (limb_at (val_ b) (len_ b - 1)) 0) as (mov & Hmov); try lia.
    { rewrite Z2Nat.id by lia. replace (LIMB - 1 - (LIMB - 1)) with 0 by lia.
      change (2 ^ 0) with 1. lia. }
    rewrite Hmov. cbn [bind]. rewrite Hsc. cbn [bind finish]. reflexivity. }
  exists (ShrinkLen LIMB (mkBigInt 1 (fill (val_ a) 0 (len_ a) 0))),
    (ShrinkLen LIMB a).
  split; [exact HA|]. split.
  - unfold DivEqAlgB. destruct (LIMB =? 32); [exact HA|].
    rewrite Hne. destruct (21 <? LIMB); [exact HA|].
    rewrite Hsa, Hsb, Hsc. cbn [bind finish]. reflexivity.
  - split; [apply toZ_cleared; auto|]. apply toZ_ShrinkLen; auto.
Qed.

(** The remainder that the one-limb branch of the long divisions leaves
    for a dividend of more than [64 / LIMB] limbs. *)
Lemma small_cases_long_dividend (x b : BigInt) :
  wf LIMB x -> Sign LIMB x = false -> 64 / LIMB < len_ x < 2 ^ 61 ->
  wf LIMB b -> len_ b = 1 -> Sign LIMB b = false ->
  2 <= limb_at (val_ b) 0 -> ~ is_pow2 (limb_at (val_ b) 0) ->
  exists q,
    small_cases LIMB x b (Some (BigInt_of_int LIMB 0))
    = Some (Ok (q, Some (mkBigInt 1 [toZ LIMB x mod limb_at (val_ b) 0]))).
Proof.
  intros Hx Hsx HxL Hb HbL Hsb Hd Hnp.
  pose proof (pow_LIMB_pos LIMB LIMB_pos) as HB.
  pose proof (words_per_64 LIMB LIMB_range) as Hw.
  pose proof Hb as (Hbl & Hbc & Hbv).
  pose proof (in_range_limb_at LIMB LIMB_pos (val_ b) 0 Hbv) as Hr0.
  set (d0 := limb_at (val_ b) 0) in *.
  assert (H0 : 0 <= toZ LIMB x).
  { unfold toZ. rewrite Hsx. apply (uval_bounds LIMB LIMB_range x Hx). }
  destruct (BasicDivEq_signed LIMB LIMB_range x d0 0 Hx ltac:(lia)
              ltac:(lia) Hnp)
    as (q & r & Hq & _ & _ & Hr1 & Hr2 & Hr3).
  specialize (Hr3 H0).
  assert (Er : r = toZ LIMB x mod d0).
  { rewrite <- Hr2. symmetry. apply Z.mod_small. lia. }
  exists q. unfold small_cases.
  assert (Hlt : BigInt_ltb LIMB x b = false).
  { unfold BigInt_ltb, Compare. rewrite Hsx, Hsb, HbL.
    destruct (Z.ltb_spec (len_ x) 1); [lia|].
    destruct (Z.ltb_spec 1 (len_ x)); [reflexivity|lia]. }
  rewrite Hlt, HbL.
  destruct (Z.leb_spec (len_ x) (64 / LIMB)); [lia|].
  rewrite andb_false_r. change (1 =? 1) with true. cbv iota.
  rewrite rd_ok by (unfold cap_ in *; lia). cbn [bind]. fold d0.
  unfold BigInt_of_int. cbn [val_ len_].
  assert (E0 : limb LIMB 0 = 0) by (unfold limb; apply Z.mod_0_l; lia).
  rewrite E0. rewrite rd_ok by (cbn [length]; lia). cbn [bind].
  change (limb_at [0] 0) with 0. rewrite Hq. cbn [bind].
  rewrite wr_ok by (cbn [length]; lia). cbn [bind].
  rewrite Er. reflexivity.
Qed.

(** X19. A dividend of more than [64 / LIMB] limbs and either sign,
    divided by a positive one-limb divisor that is not a power of two:
    [a /= b] is the quotient rounded toward zero and [a %= b] the
    remainder that belongs to it, so that [(a / b) * b + a % b = a]. *)
Theorem long_dividend_by_one_limb (fuel : nat) (a b : BigInt) :
  wf LIMB a -> 64 / LIMB < len_ a < 2 ^ 60 ->
  wf LIMB b -> len_ b = 1 -> Sign LIMB b = false ->
  2 <= limb_at (val_ b) 0 -> ~ is_pow2 (limb_at (val_ b) 0) ->
  (Z.to_nat (LIMB - 1) <= fuel)%nat ->
  exists q m,
    div_eq LIMB fuel a b = Ok q /\ mod_eq LIMB fuel a b = Ok m /\
    toZ LIMB q = Z.quot (toZ LIMB a) (toZ LIMB b) /\
    toZ LIMB m = Z.rem (toZ LIMB a) (toZ LIMB b).
Proof.
  intros Ha HaL Hb HbL Hsb Hd Hnp Hf.
  pose proof (pow_LIMB_pos LIMB LIMB_pos) as HB.
  pose proof (words_per_64 LIMB LIMB_range) as Hw.
  pose proof Hb as (Hbl & Hbc & Hbv).
  pose proof (in_range_limb_at LIMB LIMB_pos (val_ b) 0 Hbv) as Hr0.
  pose proof (toZ_one_limb_nonneg LIMB b Hb HbL Hsb) as HbZ.
  pose proof (Sign_false_top LIMB LIMB_pos b Hbv Hsb) as Hd1.
  rewrite HbL in Hd1. change (1 - 1) with 0 in Hd1.
  set (d0 := limb_at (val_ b) 0) in *.
  assert (Hhalf : 2 ^ (LIMB - 1) < 2 ^ LIMB) by (apply Z.pow_lt_mono_r; lia).
  destruct (BasicDivEq_signed LIMB LIMB_range a d0 0 Ha ltac:(lia)
              ltac:(lia) Hnp)
    as (q & r0 & _ & Hq & HqZ & _).
  assert (Hne : BigInt_eqb LIMB b (BigInt_of_int LIMB 0) = false).
  { unfold BigInt_eqb. rewrite (toZ_BigInt_of_int_0 LIMB), HbZ.
    apply Z.eqb_neq. lia. }
  (* the dividend after the first sign flip *)
  set (sign := Sign LIMB a).
  set (x := if sign then ToOpposite LIMB a else a).
  assert (Hx : wf LIMB x /\ Sign LIMB x = false /\
               64 / LIMB < len_ x < 2 ^ 61 /\
               toZ LIMB a = if sign then - toZ LIMB x else toZ LIMB x).
  { unfold x, sign. destruct (Sign LIMB a) eqn:Hs.
    - destruct (ToOpposite_spec LIMB LIMB_range a Ha ltac:(lia))
        as (H1 & H2 & H3 & H4 & H5).
      pose proof (Sign_true_negative LIMB LIMB_range a Ha Hs).
      split; [exact H1|].
      split; [apply (Sign_false_of_nonneg LIMB LIMB_range); auto; lia|].
      split; lia.
    - split; [exact Ha|]. split; [exact Hs|]. split; lia. }
  destruct Hx as (Hx & Hsx & HxL & HaZ).
  assert (H0 : 0 <= toZ LIMB x).
  { unfold toZ. rewrite Hsx. apply (uval_bounds LIMB LIMB_range x Hx). }
  destruct (small_cases_long_dividend x b Hx Hsx HxL Hb HbL Hsb Hd Hnp)
    as (q' & Hsc).
  fold d0 in Hsc.
  set (r := toZ LIMB x mod d0) in *.
  assert (Hr : 0 <= r < d0) by (apply Z.mod_pos_bound; lia).
  set (m1 := mkBigInt 1 [r]) in *.
  assert (Hm1 : wf LIMB m1).
  { unfold wf, m1, cap_. cbn [len_ val_ length].
    split; [lia|]. split; [reflexivity|]. repeat constructor; lia. }
  assert (Hm1Z : toZ LIMB m1 = r).
  { unfold toZ. rewrite Sign_false_of_small.
    - apply (uval_one_limb LIMB); unfold cap_; cbn; lia.
    - cbn [m1 len_ val_]. change (limb_at [r] (1 - 1)) with r. lia. }
  set (m := ShrinkLen LIMB (if sign then ToOpposite LIMB m1 else m1)).
  assert (HmZ : toZ LIMB m = Z.rem (toZ LIMB a) (toZ LIMB b)).
  { unfold m. rewrite HbZ, HaZ. destruct sign.
    - destruct (ToOpposite_spec LIMB LIMB_range m1 Hm1
                  ltac:(change (len_ m1) with 1; lia))
        as ((H1 & H2 & H3) & H4 & _).
      rewrite toZ_ShrinkLen by auto. rewrite H4, Hm1Z.
      rewrite Z.rem_opp_l by lia.
      rewrite Z.rem_mod_nonneg by lia. reflexivity.
    - destruct Hm1 as (H1 & H2 & H3).
      rewrite toZ_ShrinkLen by auto. rewrite Hm1Z.
      rewrite Z.rem_mod_nonneg by lia. reflexivity. }
  assert (HA : DivEqAlgA LIMB fuel a b (Some (BigInt_of_int LIMB 0))
               = Ok (ShrinkLen LIMB q', Some m)).
  { unfold DivEqAlgA. rewrite Hne. fold sign. cbv zeta. fold x.
    rewrite Hsb, HbL. change (u64 (1 - 1)) with 0.
    rewrite rd_ok by (unfold cap_ in *; lia). cbn [bind]. fold d0.
    destruct (norm_loop_spec LIMB LIMB_range (Z.to_nat (LIMB - 1)) fuel d0 0)
      as (mov & Hmov); try lia.
    { rewrite Z2Nat.id by lia. replace (LIMB - 1 - (LIMB - 1)) with 0 by lia.
      change (2 ^ 0) with 1. lia. }
    rewrite Hmov. cbn [bind]. rewrite Hsc. cbn [bind finish]. reflexivity. }
  assert (HB' : DivEqAlgB LIMB fuel a b (Some (BigInt_of_int LIMB 0))
                = Ok (ShrinkLen LIMB q', Some m)).
  { unfold DivEqAlgB. destruct (LIMB =? 32); [exact HA|].
    rewrite Hne. destruct (21 <? LIMB); [exact HA|].
    fold sign. cbv zeta. fold x.
    rewrite Hsb, Hsc. cbn [bind finish]. reflexivity. }
  exists q, m. split.
  - unfold div_eq. destruct (Z.leb_spec (len_ a) (64 / LIMB)); [lia|].
    cbn [andb]. rewrite HbL. change (1 =? 1) with true. cbv iota.
    rewrite rd_ok by (unfold cap_ in *; lia). cbn [bind]. fold d0.
    rewrite Hq. reflexivity.
  - split.
    + unfold mod_eq. cbv zeta.
      destruct (Z.leb_spec (len_ a) (64 / LIMB)); [lia|]. cbn [andb].
      destruct (21 <? LIMB); [rewrite HA|rewrite HB']; reflexivity.
    + split; [rewrite HbZ; exact HqZ|exact HmZ].
Qed.

End DivisionEdges.

(** ** Division within a 64-bit word *)

Section WordDivision.
Variable LIMB : Z.
Hypothesis LIMB_range : 0 < LIMB <= 32.

Let LIMB_pos : 0 < LIMB.
Proof. lia. Qed.

(** Only the most negative value of a length grows under [ToOpposite]. *)
Lemma ToOpposite_keeps_len (a : BigInt) :
  wf LIMB a -> - 2 ^ (LIMB * len_ a - 1) < toZ LIMB a ->
  len_ (ToOpposite LIMB a) = len_ a.
Proof.
  intros Ha Hmin. pose proof Ha as (Hl & Hc & Hv).
  pose proof (pow_LIMB_pos LIMB LIMB_pos) as HB.
  pose proof (uval_bounds LIMB LIMB_range a Ha) as HU.
  set (L := len_ a) in *.
  set (a' := mkBigInt L (neg_limbs LIMB (Z.to_nat L) (val_ a) 1)).
  assert (Ha' : wf LIMB a').
  { unfold wf, a', cap_ in *. cbn [len_ val_].
    rewrite length_neg_limbs. repeat split; try lia.
    apply in_range_neg_limbs; auto. }
  pose proof (uval_bounds LIMB LIMB_range a' Ha') as HU'.
  change (len_ a') with L in HU'.
  assert (HN : 1 <= LIMB * L) by nia.
  pose proof (pow_half (LIMB * L) HN) as Hhalf.
  unfold ToOpposite. fold L. fold a'.
  destruct (Sign LIMB a) eqn:Hs; cbn [andb]; [|reflexivity].
  destruct (Sign LIMB a') eqn:Hs'; [|reflexivity].
  exfalso.
  pose proof (Sign_true_uval LIMB LIMB_range a' Ha' Hs') as Hge'.
  change (len_ a') with L in Hge'.
  unfold toZ in Hmin. rewrite Hs in Hmin. fold L in Hmin.
  destruct (neg_limbs_value LIMB LIMB_range (Z.to_nat L) (val_ a) 1 Hv
              ltac:(unfold cap_ in *; lia) ltac:(lia)) as (co & Hco & E).
  rewrite Z2Nat.id in E by lia.
  unfold uval in HU, HU', Hge', Hmin. fold L in HU, Hmin.
  unfold a' in HU', Hge'. cbn [len_ val_] in HU', Hge'.
  set (X := uval_limbs LIMB (Z.to_nat L)
              (neg_limbs LIMB (Z.to_nat L) (val_ a) 1)) in *.
  set (Y := uval_limbs LIMB (Z.to_nat L) (val_ a)) in *.
  set (P := 2 ^ (LIMB * L)) in *.
  set (H2 := 2 ^ (LIMB * L - 1)) in *.
  assert (Hco' : co = 0 \/ co = 1) by lia.
  destruct Hco'; subst co; lia.
Qed.

Lemma SetLen_extend_cap (a : BigInt) (n : Z) :
  1 <= len_ a <= n ->
  cap_ (SetLen LIMB a n false) <= Z.max (cap_ a) (2 * n).
Proof.
  intros Hn. unfold SetLen.
  destruct (Z.ltb_spec n (len_ a)); [lia|]. cbn [andb].
  unfold cap_ at 1. cbn [val_]. rewrite length_fill.
  destruct (Z.ltb_spec (cap_ a) n); [|unfold cap_; lia].
  unfold AutoExpandSize. cbn [val_]. rewrite length_app, repeat_length.
  pose proof (grow_cap_le 64 (Z.max 1 (cap_ a)) n ltac:(lia)).
  pose proof (grow_cap_ge 64 (Z.max 1 (cap_ a)) n ltac:(lia)) as Hge.
  unfold cap_ in *.
  destruct (Z.le_gt_cases n (Z.max 1 (Z.of_nat (length (val_ a))) * 2 ^ 64)).
  - specialize (Hge ltac:(change (Z.of_nat 64) with 64; lia)). lia.
  - clear Hge. lia.
Qed.

(** The record that [PlainDivEq] builds from a 64-bit word [z], with the
    zero limb it adds when the top bit is set. *)
Lemma stored_word (v : list Z) (z hi : Z) :
  in_range LIMB v -> 1 <= hi <= Z.of_nat (length v) ->
  Z.of_nat (length v) < 2 ^ 64 -> hi <= 64 / LIMB ->
  0 <= z < 2 ^ (LIMB * hi) ->
  exists v' c,
    unpack LIMB 64 z 0 v = Ok (v', c) /\
    let a1 := mkBigInt (if c =? 0 then 1 else c) (fill v' c hi 0) in
    let a2 := if Sign LIMB a1 then SetLen LIMB a1 (len_ a1 + 1) false
              else a1 in
    wf LIMB a1 /\ uval LIMB a1 = z /\ len_ a1 <= hi /\
    wf LIMB a2 /\ toZ LIMB a2 = z /\ len_ a2 <= hi + 1.
Proof.
  intros Hv Hhi Hcap Hw Hz.
  pose proof (pow_LIMB_pos LIMB LIMB_pos) as HB.
  pose proof (words_per_64 LIMB LIMB_range) as Hww.
  destruct (unpack_spec LIMB LIMB_pos (Z.to_nat hi) 64 z 0 v)
    as (v' & c & Hun & Hc & Hlv & Hzc & Hdig & Hoth & Hrng).
  { lia. } { rewrite Z2Nat.id by lia. lia. } { lia. } { lia. }
  rewrite Z.add_0_l in Hun. rewrite Z2Nat.id in Hc by lia.
  exists v', c. split; [exact Hun|]. cbv zeta.
  set (a1 := mkBigInt (if c =? 0 then 1 else c) (fill v' c hi 0)).
  assert (Ha1u : uval LIMB a1 = z).
  { apply stored_value; auto; try lia. }
  assert (Ha1v : in_range LIMB (val_ a1)).
  { cbn [a1 val_]. apply in_range_fill; auto. lia. }
  assert (Ha1l : 1 <= len_ a1 <= cap_ a1 /\ len_ a1 <= hi).
  { unfold cap_. cbn [a1 len_ val_]. rewrite length_fill, Hlv.
    destruct (Z.eqb_spec c 0); lia. }
  assert (Ha1 : wf LIMB a1).
  { unfold wf. split; [lia|]. split; [|exact Ha1v].
    unfold cap_. cbn [a1 val_]. rewrite length_fill, Hlv. lia. }
  split; [exact Ha1|]. split; [exact Ha1u|]. split; [lia|].
  destruct (Sign LIMB a1) eqn:Hs1.
  - destruct (SetLen_extend LIMB LIMB_pos a1 (len_ a1 + 1) Ha1v
                ltac:(lia) ltac:(lia)) as (E1 & E2 & E3 & E4 & E5).
    pose proof (SetLen_extend_cap a1 (len_ a1 + 1) ltac:(lia)) as Ecap.
    cbv zeta in *.
    set (a2 := SetLen LIMB a1 (len_ a1 + 1) false) in *.
    split.
    + unfold wf. split; [lia|]. split; [|exact E3].
      destruct Ha1 as (_ & Hc1 & _). lia.
    + split; [|lia].
      rewrite <- Ha1u. apply (toZ_zero_extended LIMB LIMB_pos); auto; try lia.
      * unfold cap_ in *. lia.
      * apply E5. lia.
  - split; [exact Ha1|]. split; [|lia].
    unfold toZ. rewrite Hs1. exact Ha1u.
Qed.

(** [PlainDivEq] by a positive divisor, both operands within 64 bits. *)
Lemma PlainDivEq_positive (a b m0 : BigInt) :
  wf LIMB a -> len_ a <= 64 / LIMB ->
  - 2 ^ (LIMB * len_ a - 1) < toZ LIMB a ->
  wf LIMB b -> len_ b <= 64 / LIMB -> Sign LIMB b = false ->
  0 < toZ LIMB b ->
  wf LIMB m0 -> len_ m0 <= 64 / LIMB ->
  exists q m,
    PlainDivEq LIMB a b (Some m0) = Ok (q, Some m) /\
    PlainDivEq LIMB a b None = Ok (q, None) /\
    toZ LIMB q = Z.quot (toZ LIMB a) (toZ LIMB b) /\
    (Sign LIMB a = false -> uval LIMB m = toZ LIMB a mod toZ LIMB b).
Proof.
  intros Ha HaL Hmin Hb HbL Hsb Hbpos Hm0 Hm0L.
  pose proof (pow_LIMB_pos LIMB LIMB_pos) as HB.
  pose proof (words_per_64 LIMB LIMB_range) as Hw.
  pose proof Hb as (Hbl & Hbc & Hbv).
  pose proof (uval_bounds LIMB LIMB_range b Hb) as HV.
  assert (HbZ : toZ LIMB b = uval LIMB b) by (unfold toZ; rewrite Hsb; reflexivity).
  rewrite HbZ in *. set (V := uval LIMB b) in *.
  (* the dividend after the first sign flip *)
  set (sign := Sign LIMB a).
  set (x := if sign then ToOpposite LIMB a else a).
  assert (Hx : wf LIMB x /\ Sign LIMB x = false /\ len_ x = len_ a /\
               toZ LIMB a = if sign then - toZ LIMB x else toZ LIMB x).
  { unfold x, sign. destruct (Sign LIMB a) eqn:Hs.
    - destruct Ha as (Hal & Hac & Hav).
      assert (HaL' : len_ a < 2 ^ 62) by lia.
      assert (Ha : wf LIMB a) by (unfold wf; auto).
      destruct (ToOpposite_spec LIMB LIMB_range a Ha HaL')
        as (H1 & H2 & H3 & H4 & H5).
      pose proof (Sign_true_negative LIMB LIMB_range a Ha Hs).
      split; [exact H1|].
      split; [apply (Sign_false_of_nonneg LIMB LIMB_range); auto; lia|].
      split; [apply ToOpposite_keeps_len; auto|lia].
    - split; [exact Ha|]. split; [exact Hs|]. split; [reflexivity|lia]. }
  destruct Hx as (Hx & Hsx & HxL & HaZ).
  pose proof Hx as (Hxl & Hxc & Hxv).
  pose proof (uval_bounds LIMB LIMB_range x Hx) as HU.
  assert (HxZ : toZ LIMB x = uval LIMB x) by (unfold toZ; rewrite Hsx; reflexivity).
  set (U := uval LIMB x) in *.
  pose proof (limbs_fit_64 LIMB LIMB_range (len_ x) ltac:(lia)) as Hfit.
  pose proof (limbs_fit_64 LIMB LIMB_range (len_ b) ltac:(lia)) as Hfitb.
  assert (H64 : 2 ^ (LIMB * len_ x) <= 2 ^ 64) by (apply Z.pow_le_mono_r; lia).
  assert (H64b : 2 ^ (LIMB * len_ b) <= 2 ^ 64) by (apply Z.pow_le_mono_r; lia).
  assert (Hne : BigInt_eqb LIMB b (BigInt_of_int LIMB 0) = false).
  { unfold BigInt_eqb. rewrite (toZ_BigInt_of_int_0 LIMB). unfold toZ.
    rewrite Hsb. apply Z.eqb_neq. fold V. lia. }
  (* the words *)
  set (z := U / V).
  assert (Hz : 0 <= z <= U).
  { unfold z. split; [apply Z.div_pos; lia|]. apply Z.div_le_upper_bound; nia. }
  assert (Hw0 : u64 (U - u64 (z * V)) = U mod V).
  { pose proof (Z.div_mod U V ltac:(lia)) as E. fold z in E.
    pose proof (Z.mod_pos_bound U V ltac:(lia)) as Hm.
    unfold u64. rewrite (Z.mod_small (z * V)) by nia.
    rewrite Z.mod_small; lia. }
  set (w := U mod V) in *.
  assert (Hwr : 0 <= w < V) by (apply Z.mod_pos_bound; lia).
  (* the quotient *)
  destruct (stored_word (val_ x) z (len_ x) Hxv
              ltac:(unfold cap_ in *; lia) ltac:(unfold cap_ in *; lia)
              ltac:(lia) ltac:(lia))
    as (v' & c & Hun & Hst).
  cbv zeta in Hst.
  set (a1 := mkBigInt (if c =? 0 then 1 else c) (fill v' c (len_ x) 0)) in *.
  set (a2 := if Sign LIMB a1 then SetLen LIMB a1 (len_ a1 + 1) false else a1) in *.
  destruct Hst as (_ & _ & _ & Ha2 & Ha2Z & Ha2L).
  set (q := if negb (eqb sign false) then ToOpposite LIMB a2 else a2).
  assert (HqZ : toZ LIMB q = Z.quot (toZ LIMB a) V).
  { unfold q. rewrite HaZ, HxZ. destruct sign; cbn [eqb negb].
    - destruct (ToOpposite_spec LIMB LIMB_range a2 Ha2 ltac:(lia))
        as (_ & H4 & _).
      rewrite H4, Ha2Z. rewrite Z.quot_opp_l by lia.
      rewrite Z.quot_div_nonneg by lia. reflexivity.
    - rewrite Ha2Z. rewrite Z.quot_div_nonneg by lia. reflexivity. }
  (* the remainder *)
  destruct Hm0 as (Hml & Hmc & Hmv).
  destruct (SetLen_extend LIMB LIMB_pos m0 (64 / LIMB) Hmv ltac:(lia) ltac:(lia))
    as (M1 & M2 & M3 & M4 & M5).
  pose proof (SetLen_extend_cap m0 (64 / LIMB) ltac:(lia)) as Mcap.
  cbv zeta in *.
  set (m1 := SetLen LIMB m0 (64 / LIMB) false) in *.
  assert (Hwb : w < 2 ^ (LIMB * (64 / LIMB))).
  { apply Z.lt_le_trans with (2 ^ (LIMB * len_ b)); [lia|].
    apply Z.pow_le_mono_r; [lia|].
    apply Z.mul_le_mono_nonneg_l; lia. }
  destruct (stored_word (val_ m1) w (64 / LIMB) M3
              ltac:(unfold cap_ in *; lia) ltac:(unfold cap_ in *; lia)
              ltac:(lia) ltac:(lia))
    as (mv & c' & Hun' & Hst').
  cbv zeta in Hst'.
  set (m2 := mkBigInt (if c' =? 0 then 1 else c') (fill mv c' (64 / LIMB) 0)) in *.
  destruct Hst' as (Hm2 & Hm2u & _).
  exists q, (if sign then ToOpposite LIMB m2 else m2).
  assert (Hcommon : forall mod_,
            PlainDivEq LIMB a b mod_
            = match mod_ with
              | None => Ok (q, None)
              | Some m =>
                  let m := SetLen LIMB m (64 / LIMB) false in
                  ' (mv, i) <- unpack LIMB 64 w 0 (val_ m) ;;
                  let mv := fill mv i (len_ m) 0 in
                  let m := mkBigInt (if i =? 0 then 1 else i) mv in
                  let m := if sign then ToOpposite LIMB m else m in
                  Ok (q, Some m)
              end).
  { intros mod_. unfold PlainDivEq. rewrite Hne. fold sign. cbv zeta. fold x.
    rewrite pack_value; auto; try (unfold cap_ in *; lia);
      [|rewrite Z2Nat.id by lia; lia].
    rewrite Z2Nat.id by lia. rewrite Z.mul_0_l, Z.add_0_l. cbn [bind].
    fold (uval LIMB x). fold U.
    rewrite pack_value; auto; try (unfold cap_ in *; lia);
      [|rewrite Z2Nat.id by lia; lia].
    rewrite Z2Nat.id by lia. rewrite Z.mul_0_l, Z.add_0_l. cbn [bind].
    fold (uval LIMB b). fold V.
    rewrite Hsb. destruct (Z.eqb_spec V 0); [lia|].
    fold z. rewrite Hw0, Hun. cbn [bind]. fold a1. fold a2.
    fold q. reflexivity. }
  split.
  - rewrite Hcommon. cbv zeta. fold m1. rewrite Hun'. cbn [bind].
    rewrite M1. fold m2. reflexivity.
  - split; [apply Hcommon|]. split; [exact HqZ|].
    intros Hs0. fold sign in Hs0. rewrite Hs0 in *.
    rewrite Hm2u, HaZ, HxZ. reflexivity.
Qed.

(** X20. Operands within 64 bits and a positive divisor: [PlainDivEq],
    and with it [a /= b], returns the quotient rounded toward zero for a
    dividend of either sign (the most negative value of its length
    apart); for a non-negative dividend the limbs written to the
    remainder read, unsigned, as [a mod b]. *)
Theorem PlainDivEq_by_positive_divisor (fuel : nat) (a b m0 : BigInt) :
  wf LIMB a -> len_ a <= 64 / LIMB ->
  - 2 ^ (LIMB * len_ a - 1) < toZ LIMB a ->
  wf LIMB b -> len_ b <= 64 / LIMB -> Sign LIMB b = false ->
  0 < toZ LIMB b ->
  wf LIMB m0 -> len_ m0 <= 64 / LIMB ->
  exists q m,
    PlainDivEq LIMB a b (Some m0) = Ok (q, Some m) /\
    div_eq LIMB fuel a b = Ok q /\
    toZ LIMB q = Z.quot (toZ LIMB a) (toZ LIMB b) /\
    (Sign LIMB a = false -> uval LIMB m = toZ LIMB a mod toZ LIMB b).
Proof.
  intros Ha HaL Hmin Hb HbL Hsb Hbpos Hm0 Hm0L.
  destruct (PlainDivEq_positive a b m0 Ha HaL Hmin Hb HbL Hsb Hbpos Hm0 Hm0L)
    as (q & m & H1 & H2 & H3 & H4).
  exists q, m. split; [exact H1|]. split; [|split; assumption].
  unfold div_eq.
  destruct (Z.leb_spec (len_ a) (64 / LIMB)); [|lia].
  destruct (Z.leb_spec (len_ b) (64 / LIMB)); [|lia].
  cbn [andb]. rewrite H2. reflexivity.
Qed.

(** X21. A negative divisor that does not fill the 64-bit word: [PlainDivEq]
    takes [y = 0 - y] on the zero-extended limbs, so that [y] exceeds every
    non-negative dividend; the quotient is [0] and the limbs written to
    the remainder read as the dividend, whatever the operands. *)
Theorem PlainDivEq_short_negative_divisor (a b m0 : BigInt) :
  wf LIMB a -> Sign LIMB a = false -> len_ a <= 64 / LIMB ->
  wf LIMB b -> Sign LIMB b = true -> LIMB * len_ b < 64 ->
  wf LIMB m0 -> len_ m0 <= 64 / LIMB ->
  exists q m,
    PlainDivEq LIMB a b (Some m0) = Ok (q, Some m) /\
    PlainDivEq LIMB a b None = Ok (q, None) /\
    toZ LIMB q = 0 /\ uval LIMB m = toZ LIMB a.
Proof.
  intros Ha Hsa HaL Hb Hsb HbL Hm0 Hm0L.
  pose proof (pow_LIMB_pos LIMB LIMB_pos) as HB.
  pose proof (words_per_64 LIMB LIMB_range) as Hw.
  pose proof Ha as (Hal & Hac & Hav).
  pose proof Hb as (Hbl & Hbc & Hbv).
  pose proof (uval_bounds LIMB LIMB_range b Hb) as HV.
  pose proof (uval_bounds LIMB LIMB_range a Ha) as HU.
  pose proof (Sign_false_uval LIMB LIMB_range a Ha Hsa) as HUs.
  pose proof (Sign_true_negative LIMB LIMB_range b Hb Hsb) as Hbneg.
  pose proof (Sign_true_uval LIMB LIMB_range b Hb Hsb) as HVs.
  assert (HVp : 0 < 2 ^ (LIMB * len_ b - 1)) by (apply Z.pow_pos_nonneg; nia).
  assert (HaZ : toZ LIMB a = uval LIMB a) by (unfold toZ; rewrite Hsa; reflexivity).
  rewrite HaZ. set (U := uval LIMB a) in *. set (V := uval LIMB b) in *.
  pose proof (limbs_fit_64 LIMB LIMB_range (len_ a) ltac:(lia)) as Hfit.
  assert (H64 : 2 ^ (LIMB * len_ a) <= 2 ^ 64) by (apply Z.pow_le_mono_r; lia).
  assert (H63 : 2 ^ (LIMB * len_ a - 1) <= 2 ^ 63) by (apply Z.pow_le_mono_r; lia).
  assert (H63b : 2 ^ (LIMB * len_ b) <= 2 ^ 63) by (apply Z.pow_le_mono_r; lia).
  assert (Hne : BigInt_eqb LIMB b (BigInt_of_int LIMB 0) = false).
  { unfold BigInt_eqb. rewrite (toZ_BigInt_of_int_0 LIMB).
    apply Z.eqb_neq. lia. }
  assert (Hy : u64 (0 - V) = 2 ^ 64 - V).
  { unfold u64. symmetry. apply Z.mod_unique with (q := -1); [|lia].
    left. change (2 ^ 64) with (2 * 2 ^ 63) in *. lia. }
  assert (Hz : U / (2 ^ 64 - V) = 0).
  { apply Z.div_small. change (2 ^ 64) with (2 * 2 ^ 63) in *. lia. }
  assert (Hw0 : u64 (U - u64 (0 * (2 ^ 64 - V))) = U).
  { rewrite Z.mul_0_l. change (u64 0) with 0. rewrite Z.sub_0_r.
    unfold u64. apply Z.mod_small. lia. }
  set (a1 := mkBigInt 1 (fill (val_ a) 0 (len_ a) 0)).
  assert (Ha1 : wf LIMB a1).
  { unfold wf, a1, cap_ in *. cbn [len_ val_]. rewrite length_fill.
    split; [lia|]. split; [lia|]. apply in_range_fill; auto. lia. }
  assert (H10 : limb_at (val_ a1) 0 = 0).
  { cbn [a1 val_]. rewrite limb_at_fill by lia.
    destruct (Z.leb_spec 0 0), (Z.ltb_spec 0 (len_ a)),
      (Z.ltb_spec 0 (Z.of_nat (length (val_ a)))); cbn [andb];
      try reflexivity; unfold cap_ in *; lia. }
  assert (Hs1 : Sign LIMB a1 = false).
  { unfold Sign. cbn [a1 len_]. change (1 - 1) with 0. rewrite H10.
    apply Z.bits_0. }
  assert (Ha1Z : toZ LIMB a1 = 0).
  { unfold toZ. rewrite Hs1.
    rewrite (uval_one_limb LIMB) by (destruct Ha1; cbn [a1 len_] in *; lia).
    exact H10. }
  destruct (ToOpposite_spec LIMB LIMB_range a1 Ha1
              ltac:(change (len_ a1) with 1; lia)) as (_ & HqZ & _).
  (* the remainder *)
  destruct Hm0 as (Hml & Hmc & Hmv).
  destruct (SetLen_extend LIMB LIMB_pos m0 (64 / LIMB) Hmv ltac:(lia) ltac:(lia))
    as (M1 & M2 & M3 & M4 & M5).
  pose proof (SetLen_extend_cap m0 (64 / LIMB) ltac:(lia)) as Mcap.
  cbv zeta in *.
  set (m1 := SetLen LIMB m0 (64 / LIMB) false) in *.
  assert (HUb : U < 2 ^ (LIMB * (64 / LIMB))).
  { apply Z.lt_le_trans with (2 ^ (LIMB * len_ a)); [lia|].
    apply Z.pow_le_mono_r; [lia|].
    apply Z.mul_le_mono_nonneg_l; lia. }
  destruct (stored_word (val_ m1) U (64 / LIMB) M3
              ltac:(unfold cap_ in *; lia) ltac:(unfold cap_ in *; lia)
              ltac:(lia) ltac:(lia))
    as (mv & c' & Hun' & Hst').
  cbv zeta in Hst'.
  set (m2 := mkBigInt (if c' =? 0 then 1 else c') (fill mv c' (64 / LIMB) 0)) in *.
  destruct Hst' as (Hm2 & Hm2u & _).
  exists (ToOpposite LIMB a1), m2.
  assert (Hcommon : forall mod_,
            PlainDivEq LIMB a b mod_
            = match mod_ with
              | None => Ok (ToOpposite LIMB a1, None)
              | Some m =>
                  let m := SetLen LIMB m (64 / LIMB) false in
                  ' (mv, i) <- unpack LIMB 64 U 0 (val_ m) ;;
                  let mv := fill mv i (len_ m) 0 in
                  let m := mkBigInt (if i =? 0 then 1 else i) mv in
                  Ok (ToOpposite LIMB a1, Some m)
              end).
  { intros mod_. unfold PlainDivEq. rewrite Hne, Hsa. cbv zeta.
    rewrite pack_value; auto; try (unfold cap_ in *; lia);
      [|rewrite Z2Nat.id by lia; lia].
    rewrite Z2Nat.id by lia. rewrite Z.mul_0_l, Z.add_0_l. cbn [bind].
    fold (uval LIMB a). fold U.
    rewrite pack_value; auto; try (unfold cap_ in *; lia);
      [|rewrite Z2Nat.id by lia;
        change (2 ^ 64) with (2 * 2 ^ 63); lia].
    rewrite Z2Nat.id by lia. rewrite Z.mul_0_l, Z.add_0_l. cbn [bind].
    fold (uval LIMB b). fold V.
    rewrite Hsb, Hy. destruct (Z.eqb_spec (2 ^ 64 - V) 0);
      [change (2 ^ 64) with (2 * 2 ^ 63) in *; lia|].
    rewrite Hz, Hw0.
    change (unpack LIMB 64 0 0 (val_ a)) with (@Ok (list Z * Z) (val_ a, 0)).
    cbn [bind]. change (0 =? 0) with true. cbv iota. fold a1.
    rewrite Hs1. cbn [eqb negb]. reflexivity. }
  split.
  - rewrite Hcommon. cbv zeta. fold m1. rewrite Hun'. cbn [bind].
    rewrite M1. fold m2. reflexivity.
  - split; [apply Hcommon|]. split; [lia|exact Hm2u].
Qed.

End WordDivision.

(** ** The long division *)

Section LongDivision.
Variable LIMB : Z.
Hypothesis LIMB_range : 0 < LIMB <= 32.

Let LIMB_pos : 0 < LIMB.
Proof. lia. Qed.

(** The normalization loop counts the leading zero bits of a non-zero
    limb: it shifts at least once when the top bit is clear. *)
Lemma norm_loop_count (k : nat) :
  forall (fuel : nat) (t mov : Z),
    2 ^ (LIMB - 1 - Z.of_nat k) <= t < 2 ^ LIMB ->
    Z.of_nat k <= LIMB - 1 -> (k <= fuel)%nat ->
    0 <= mov -> mov + Z.of_nat k < 2 ^ 64 ->
    exists m, norm_loop LIMB fuel t mov = Ok m /\
              mov <= m <= mov + Z.of_nat k /\
              (t < 2 ^ (LIMB - 1) -> mov < m).
Proof.
  induction k as [|k IH]; intros fuel t mov Ht Hk Hf Hm Hb.
  - exists mov. change (Z.of_nat 0) with 0 in *. rewrite Z.sub_0_r in Ht.
    split; [|lia].
    destruct fuel; cbn [norm_loop];
      destruct (Z.ltb_spec t (2 ^ (LIMB - 1))); try lia; reflexivity.
  - destruct (Z.ltb_spec t (2 ^ (LIMB - 1))) as [Hlt|Hge].
    + destruct fuel as [|f]; [lia|].
      cbn [norm_loop]. destruct (Z.ltb_spec t (2 ^ (LIMB - 1))); [|lia].
      assert (E2 : 2 ^ LIMB = 2 * 2 ^ (LIMB - 1)).
      { rewrite <- Z.pow_succ_r by lia. f_equal. lia. }
      assert (E3 : 2 ^ (LIMB - 1 - Z.of_nat k)
                   = 2 * 2 ^ (LIMB - 1 - Z.of_nat (S k))).
      { rewrite <- Z.pow_succ_r by lia. f_equal. lia. }
      assert (Eu : u64 (mov + 1) = mov + 1).
      { unfold u64. apply Z.mod_small. lia. }
      rewrite Eu.
      destruct (IH f (limb LIMB (Z.shiftl t 1)) (mov + 1)) as (m & H1 & H2 & H3);
        try lia.
      * rewrite Z.shiftl_mul_pow2 by lia. change (2 ^ 1) with 2.
        unfold limb. rewrite Z.mod_small; lia.
      * exists m. split; [exact H1|]. split; lia.
    + exists mov. split; [|lia].
      destruct fuel; cbn [norm_loop];
        destruct (Z.ltb_spec t (2 ^ (LIMB - 1))); try lia; reflexivity.
Qed.

(** X22. Algorithm A on a positive two-limb divisor whose top limb is not
    zero and has its high bit clear, with a dividend beyond 64 bits: the
    divisor is to be shifted ([mov <> 0]), and the read of
    [rhs.val_[rhs.len_ - 3]] for [v2] is at index [size_t(-1)], outside
    every buffer. *)
Theorem DivEqAlgA_two_limb_divisor_out_of_bounds
  (fuel : nat) (a b : BigInt) (mod_ : option BigInt) :
  wf LIMB a -> Sign LIMB a = false -> 64 / LIMB < len_ a ->
  wf LIMB b -> len_ b = 2 ->
  0 < limb_at (val_ b) 1 < 2 ^ (LIMB - 1) ->
  (Z.to_nat (LIMB - 1) <= fuel)%nat ->
  DivEqAlgA LIMB fuel a b mod_ = Err OutOfBounds /\
  (21 < LIMB -> div_eq LIMB fuel a b = Err OutOfBounds).
Proof.
  intros Ha Hsa HaL Hb HbL Htop Hf.
  pose proof (pow_LIMB_pos LIMB LIMB_pos) as HB.
  pose proof (words_per_64 LIMB LIMB_range) as Hw.
  pose proof Hb as (Hbl & Hbc & Hbv).
  assert (Hhalf : 2 ^ (LIMB - 1) < 2 ^ LIMB) by (apply Z.pow_lt_mono_r; lia).
  assert (Hsb : Sign LIMB b = false).
  { apply Sign_false_of_small. rewrite HbL. change (2 - 1) with 1. lia. }
  assert (Hne : BigInt_eqb LIMB b (BigInt_of_int LIMB 0) = false).
  { unfold BigInt_eqb. rewrite (toZ_BigInt_of_int_0 LIMB).
    apply Z.eqb_neq. unfold toZ. rewrite Hsb.
    pose proof (top_limb_value LIMB LIMB_range b Hb) as Ht.
    rewrite HbL in Ht. change (2 - 1) with 1 in Ht.
    intros E. rewrite E, Z.div_0_l in Ht; [lia|].
    assert (0 < 2 ^ (LIMB * 1)) by (apply Z.pow_pos_nonneg; lia). lia. }
  assert (HA : forall m, DivEqAlgA LIMB fuel a b m = Err OutOfBounds).
  { intros m. unfold DivEqAlgA. rewrite Hne, Hsa, Hsb, HbL.
    change (u64 (2 - 1)) with 1.
    rewrite rd_ok by (unfold cap_ in *; lia). cbn [bind].
    destruct (norm_loop_count (Z.to_nat (LIMB - 1)) fuel (limb_at (val_ b) 1) 0)
      as (mov & Hmov & Hm1 & Hm2); try lia.
    { rewrite Z2Nat.id by lia. replace (LIMB - 1 - (LIMB - 1)) with 0 by lia.
      change (2 ^ 0) with 1. lia. }
    rewrite Hmov. cbn [bind].
    assert (Hsc : small_cases LIMB a b m = None).
    { unfold small_cases.
      assert (Hlt : BigInt_ltb LIMB a b = false).
      { unfold BigInt_ltb, Compare. rewrite Hsa, Hsb, HbL.
        destruct (Z.ltb_spec (len_ a) 2); [lia|].
        destruct (Z.ltb_spec 2 (len_ a)); [reflexivity|lia]. }
      rewrite Hlt, HbL.
      destruct (Z.leb_spec (len_ a) (64 / LIMB)); [lia|].
      rewrite andb_false_r. reflexivity. }
    rewrite Hsc.
    rewrite AlgA_v_two_limb_divisor by (auto; lia). reflexivity. }
  split; [apply HA|].
  intros H21. unfold div_eq.
  destruct (Z.leb_spec (len_ a) (64 / LIMB)); [lia|]. cbn [andb].
  rewrite HbL. change (2 =? 1) with false. cbv iota.
  destruct (Z.ltb_spec 21 LIMB); [|lia].
  rewrite HA. reflexivity.
Qed.

(** X23. The trial quotient of Algorithm A always fits a limb and never
    exceeds [u1 / v1]: the clamp to [b - 1] comes first, and the
    decrement is never applied to [0]. *)
Theorem trial_quotient_fits_a_limb (u1 u2 v1 v2 : Z) :
  0 <= u1 -> 0 < v1 -> 0 <= v2 ->
  exists q, trial_quotient LIMB u1 u2 v1 v2 = Ok q /\
            0 <= q < 2 ^ LIMB /\ q <= u1 / v1.
Proof.
  intros Hu1 Hv1 Hv2.
  pose proof (pow_LIMB_pos LIMB LIMB_pos) as HB.
  assert (H2B : 2 ^ LIMB <= 2 ^ 64) by (apply Z.pow_le_mono_r; lia).
  unfold trial_quotient. cbv zeta.
  destruct (Z.eqb_spec v1 0); [lia|].
  assert (Hq0 : 0 <= u1 / v1) by (apply Z.div_pos; lia).
  set (q := if 2 ^ LIMB <=? u1 / v1 then 2 ^ LIMB - 1 else u1 / v1).
  assert (Hq : 0 <= q < 2 ^ LIMB /\ q <= u1 / v1).
  { unfold q. destruct (Z.leb_spec (2 ^ LIMB) (u1 / v1)); lia. }
  destruct (Z.ltb_spec (u64 (2 ^ LIMB * u64 (u1 - u64 (q * v1)) + u2))
              (u64 (q * v2))) as [Hlt|Hge].
  - exists (u64 (q - 1)).
    assert (Hq1 : 1 <= q).
    { destruct (Z.eq_dec q 0) as [E|E]; [|lia]. exfalso.
      rewrite E in Hlt. rewrite !Z.mul_0_l in Hlt.
      change (u64 0) with 0 in Hlt. unfold u64 in Hlt.
      match type of Hlt with
      | ?x mod ?m < 0 => pose proof (Z.mod_pos_bound x m ltac:(lia))
      end. lia. }
    assert (Eu : u64 (q - 1) = q - 1).
    { unfold u64. apply Z.mod_small. lia. }
    rewrite Eu. split; [reflexivity|]. lia.
  - exists q. split; [reflexivity|]. lia.
Qed.

End LongDivision.

(** ** The sign of a one-limb divisor *)

Section DivisorSign.
Variable LIMB : Z.
Hypothesis LIMB_range : 0 < LIMB <= 32.

Let LIMB_pos : 0 < LIMB.
Proof. lia. Qed.

(** X24. A dividend of more than [64 / LIMB] limbs and a negative
    one-limb divisor: [a /= b] hands the raw limb [rhs.val_[0]] to
    [BasicDivEq], which takes an unsigned [IntT]; the quotient is that of
    the division by [b + 2^LIMB], rounded toward zero, and the sign of the
    divisor is lost. *)
Theorem div_eq_ignores_sign_of_one_limb_divisor
  (fuel : nat) (a b : BigInt) :
  wf LIMB a -> 64 / LIMB < len_ a < 2 ^ 61 ->
  wf LIMB b -> len_ b = 1 -> Sign LIMB b = true ->
  ~ is_pow2 (toZ LIMB b + 2 ^ LIMB) ->
  exists q,
    div_eq LIMB fuel a b = Ok q /\
    toZ LIMB q = Z.quot (toZ LIMB a) (toZ LIMB b + 2 ^ LIMB).
Proof.
  intros Ha HaL Hb HbL Hsb Hnp.
  pose proof (pow_LIMB_pos LIMB LIMB_pos) as HB.
  pose proof (words_per_64 LIMB LIMB_range) as Hw.
  pose proof Hb as (Hbl & Hbc & Hbv).
  pose proof (Sign_true_top LIMB LIMB_pos b Hbv Hsb) as Htop.
  rewrite HbL in Htop. change (1 - 1) with 0 in Htop.
  assert (HbZ : toZ LIMB b + 2 ^ LIMB = limb_at (val_ b) 0).
  { unfold toZ. rewrite Hsb, HbL, Z.mul_1_r.
    rewrite (uval_one_limb LIMB b) by lia. lia. }
  rewrite HbZ in *. set (d0 := limb_at (val_ b) 0) in *.
  assert (Hd : 2 <= d0 < 2 ^ LIMB).
  { split; [|lia].
    destruct (Z.eq_dec LIMB 1) as [E|E].
    - exfalso. apply Hnp. exists 0. split; [lia|].
      rewrite E in Htop. change (2 ^ (1 - 1)) with 1 in Htop.
      change (2 ^ 1) with 2 in Htop. change (2 ^ 0) with 1. lia.
    - assert (2 ^ 1 <= 2 ^ (LIMB - 1)) by (apply Z.pow_le_mono_r; lia).
      change (2 ^ 1) with 2 in *. lia. }
  destruct (BasicDivEq_signed LIMB LIMB_range a d0 0 Ha ltac:(lia) Hd Hnp)
    as (q & r0 & _ & Hq & HqZ & _).
  exists q. split; [|exact HqZ].
  unfold div_eq. destruct (Z.leb_spec (len_ a) (64 / LIMB)); [lia|].
  cbn [andb]. rewrite HbL. change (1 =? 1) with true. cbv iota.
  rewrite rd_ok by (unfold cap_ in *; lia). cbn [bind]. fold d0.
  rewrite Hq. reflexivity.
Qed.

End DivisorSign.

(** ** The further properties at concrete inputs *)

Ltac concrete_wf :=
  split; [vm_compute; split; discriminate|];
  split; [reflexivity|]; repeat constructor; lia.

Ltac concrete_tail :=
  apply tail_zero_full; vm_compute; discriminate.

(** [5] and [7] lie strictly between [2^2] and [2^3]. *)
Ltac concrete_not_pow2 :=
  let e := fresh "e" in
  let He := fresh "He" in
  let H := fresh "H" in
  let Hlt := fresh "Hlt" in
  let E := fresh "E" in
  intros (e & He & H); cbn in H;
  assert (Hlt : e < 3)
    by (destruct (Z.lt_ge_cases e 3); auto;
        assert (2 ^ 3 <= 2 ^ e) by (apply Z.pow_le_mono_r; lia); lia);
  assert (E : e = 0 \/ e = 1 \/ e = 2) by lia;
  destruct E as [ E | [ E | E ] ]; subst e; discriminate H.

Lemma shr_eq_unsigned_value_witness :
  uval 16 (shr_eq 16 (mkBigInt 2 [1; 32768]) 17)
  = uval 16 (mkBigInt 2 [1; 32768]) / 2 ^ 17.
Proof.
  apply (shr_eq_unsigned_value 16 ltac:(lia)).
  - concrete_wf.
  - vm_compute. split; [discriminate|reflexivity].
Defined.

Lemma shr_eq_all_limbs_out_witness :
  len_ (shr_eq 16 (mkBigInt 2 [1; 32768]) 40) = 1 /\
  Sign 16 (shr_eq 16 (mkBigInt 2 [1; 32768]) 40) = false /\
  toZ 16 (shr_eq 16 (mkBigInt 2 [1; 32768]) 40) = 0.
Proof.
  apply (shr_eq_all_limbs_out 16 ltac:(lia)).
  - concrete_wf.
  - vm_compute. split; [discriminate|reflexivity].
  - vm_compute. discriminate.
Defined.

Lemma shl_eq_unsigned_value_witness :
  uval 16 (shl_eq 16 (mkBigInt 1 [1]) 1) = uval 16 (mkBigInt 1 [1]) * 2 ^ 1.
Proof.
  apply (shl_eq_unsigned_value 16 ltac:(lia)).
  - concrete_wf.
  - concrete_tail.
  - lia.
  - vm_compute. discriminate.
  - vm_compute. discriminate.
Defined.

Lemma shl_shr_round_trip_witness :
  uval 16 (shr_eq 16 (shl_eq 16 (mkBigInt 1 [40000]) 5) 5)
  = uval 16 (mkBigInt 1 [40000]).
Proof.
  apply (shl_shr_round_trip 16 ltac:(lia)).
  - concrete_wf.
  - concrete_tail.
  - vm_compute. split; [discriminate|reflexivity].
  - vm_compute. discriminate.
  - vm_compute. discriminate.
Defined.

Lemma shl_eq_whole_limbs_witness :
  uval 16 (shl_eq 16 (mkBigInt 2 [3; 1]) (16 * 1))
  = (uval 16 (mkBigInt 2 [3; 1]) - limb_at [3; 1] 0 + limb_at [3; 1] 1)
    * 2 ^ (16 * 1).
Proof.
  apply (shl_eq_whole_limbs 16 ltac:(lia) (mkBigInt 2 [3; 1]) 1).
  - concrete_wf.
  - concrete_tail.
  - lia.
  - vm_compute. discriminate.
Defined.

Lemma ToBitInv_is_complement_witness :
  toZ 16 (ToBitInv 16 (mkBigInt 2 [3; 1])) = - toZ 16 (mkBigInt 2 [3; 1]) - 1.
Proof.
  apply (ToBitInv_is_complement 16 ltac:(lia)). concrete_wf.
Defined.

Lemma ToBitInv_involutive_witness :
  ToBitInv 16 (ToBitInv 16 (mkBigInt 2 [3; 1; 7])) = mkBigInt 2 [3; 1; 7].
Proof.
  apply (ToBitInv_involutive 16 ltac:(lia)). concrete_wf.
Defined.

Lemma and_eq_value_witness :
  toZ 16 (and_eq 16 (mkBigInt 1 [65535]) (mkBigInt 2 [1; 2]))
  = Z.land (if 1 <? 2 then uval 16 (mkBigInt 1 [65535])
            else toZ 16 (mkBigInt 1 [65535]))
      (toZ 16 (mkBigInt 2 [1; 2])).
Proof.
  apply (and_eq_value 16 ltac:(lia) (mkBigInt 1 [65535]) (mkBigInt 2 [1; 2]));
    concrete_wf.
Defined.

Lemma or_eq_value_witness :
  toZ 16 (or_eq 16 (mkBigInt 2 [1; 2]) (mkBigInt 1 [65535]))
  = Z.lor (if 2 <? 1 then uval 16 (mkBigInt 2 [1; 2])
           else toZ 16 (mkBigInt 2 [1; 2]))
      (toZ 16 (mkBigInt 1 [65535])).
Proof.
  apply (or_eq_value 16 ltac:(lia) (mkBigInt 2 [1; 2]) (mkBigInt 1 [65535]));
    concrete_wf.
Defined.

Lemma xor_eq_value_witness :
  toZ 16 (xor_eq 16 (mkBigInt 2 [1; 2]) (mkBigInt 1 [65535]))
  = Z.lxor (if 2 <? 1 then uval 16 (mkBigInt 2 [1; 2])
            else toZ 16 (mkBigInt 2 [1; 2]))
      (toZ 16 (mkBigInt 1 [65535])).
Proof.
  apply (xor_eq_value 16 ltac:(lia) (mkBigInt 2 [1; 2]) (mkBigInt 1 [65535]));
    concrete_wf.
Defined.

Lemma xor_with_complement_witness :
  toZ 16 (BigInt_xor 16 (mkBigInt 2 [3; 1]) (BigInt_not 16 (mkBigInt 2 [3; 1])))
  = -1.
Proof.
  apply (xor_with_complement 16 ltac:(lia)). concrete_wf.
Defined.

Lemma BasicDivEq_rounds_toward_zero_witness :
  exists q m,
    BasicDivEq 16 (mkBigInt 1 [65519]) 5 (Some 0) = Ok (q, Some m) /\
    BasicDivEq 16 (mkBigInt 1 [65519]) 5 None = Ok (q, None) /\
    toZ 16 q = Z.quot (toZ 16 (mkBigInt 1 [65519])) 5 /\
    0 <= m <= 5 /\ m mod 5 = toZ 16 (mkBigInt 1 [65519]) mod 5 /\
    (0 <= toZ 16 (mkBigInt 1 [65519]) -> m < 5).
Proof.
  apply (BasicDivEq_rounds_toward_zero 16 ltac:(lia)).
  - concrete_wf.
  - reflexivity.
  - vm_compute. split; [discriminate|reflexivity].
  - concrete_not_pow2.
Defined.

Lemma mod_eq_limb_value_witness :
  exists m, mod_eq_limb 16 (mkBigInt 2 [65519; 65535]) 5 = Ok m /\
            toZ 16 m = Z.rem (toZ 16 (mkBigInt 2 [65519; 65535])) 5.
Proof.
  apply (mod_eq_limb_value 16 ltac:(lia)).
  - concrete_wf.
  - concrete_tail.
  - vm_compute. discriminate.
  - reflexivity.
  - vm_compute. split; reflexivity.
Defined.

Lemma scalar_division_identity_witness :
  exists q m,
    BigInt_div_limb 16 (mkBigInt 2 [65519; 65535]) 5 = Ok q /\
    BigInt_mod_limb 16 (mkBigInt 2 [65519; 65535]) 5 = Ok m /\
    toZ 16 q * 5 + toZ 16 m = toZ 16 (mkBigInt 2 [65519; 65535]) /\
    Z.abs (toZ 16 m) < 5.
Proof.
  apply (scalar_division_identity 16 ltac:(lia)).
  - concrete_wf.
  - concrete_tail.
  - vm_compute. discriminate.
  - reflexivity.
  - vm_compute. split; [discriminate|reflexivity].
  - concrete_not_pow2.
Defined.

Lemma mod_eq_limb_reads_past_one_limb_buffer_witness :
  mod_eq_limb 16 (mkBigInt 1 [17]) 5 = Err OutOfBounds.
Proof.
  apply (mod_eq_limb_reads_past_one_limb_buffer 16 ltac:(lia)).
  - concrete_wf.
  - reflexivity.
  - reflexivity.
  - vm_compute. split; reflexivity.
Defined.

Lemma BasicDivEq_pow2_writes_zero_remainder_witness :
  BasicDivEq 16 (mkBigInt 2 [5; 1]) (2 ^ 1) (Some 7)
  = Ok (ShrinkLen 16 (shr_eq 16 (mkBigInt 2 [5; 1]) 1), Some 0).
Proof.
  apply (BasicDivEq_pow2_writes_zero_remainder 16 ltac:(lia)).
  - reflexivity.
  - vm_compute. discriminate.
  - lia.
Defined.

Lemma DivEqAlgA_never_returns_on_zero_top_limb_witness :
  DivEqAlgA 32 1000 (mkBigInt 3 [0; 0; 1; 0]) (mkBigInt 2 [2147483648; 0]) None
  = Err OutOfFuel.
Proof.
  apply (DivEqAlgA_never_returns_on_zero_top_limb 32 ltac:(lia)).
  - vm_compute. split; discriminate.
  - reflexivity.
  - reflexivity.
  - reflexivity.
Defined.

Lemma long_division_of_smaller_dividend_witness :
  exists q m,
    DivEqAlgA 16 15 (mkBigInt 1 [3]) (mkBigInt 2 [1; 1]) (Some (mkBigInt 1 [0]))
    = Ok (q, Some m) /\
    DivEqAlgB 16 15 (mkBigInt 1 [3]) (mkBigInt 2 [1; 1]) (Some (mkBigInt 1 [0]))
    = Ok (q, Some m) /\
    toZ 16 q = 0 /\ toZ 16 m = toZ 16 (mkBigInt 1 [3]).
Proof.
  apply (long_division_of_smaller_dividend 16 ltac:(lia)).
  - concrete_wf.
  - reflexivity.
  - concrete_wf.
  - reflexivity.
  - reflexivity.
  - reflexivity.
  - vm_compute. lia.
Defined.

Lemma long_dividend_by_one_limb_witness :
  exists q m,
    div_eq 16 15 (mkBigInt 5 [1; 2; 3; 4; 65535]) (mkBigInt 1 [7]) = Ok q /\
    mod_eq 16 15 (mkBigInt 5 [1; 2; 3; 4; 65535]) (mkBigInt 1 [7]) = Ok m /\
    toZ 16 q = Z.quot (toZ 16 (mkBigInt 5 [1; 2; 3; 4; 65535]))
                 (toZ 16 (mkBigInt 1 [7])) /\
    toZ 16 m = Z.rem (toZ 16 (mkBigInt 5 [1; 2; 3; 4; 65535]))
                 (toZ 16 (mkBigInt 1 [7])).
Proof.
  apply (long_dividend_by_one_limb 16 ltac:(lia)).
  - concrete_wf.
  - vm_compute. split; reflexivity.
  - concrete_wf.
  - reflexivity.
  - reflexivity.
  - vm_compute. discriminate.
  - concrete_not_pow2.
  - vm_compute. lia.
Defined.

Lemma PlainDivEq_by_positive_divisor_witness :
  exists q m,
    PlainDivEq 16 (mkBigInt 2 [65519; 65535]) (mkBigInt 1 [5])
      (Some (mkBigInt 1 [0])) = Ok (q, Some m) /\
    div_eq 16 0 (mkBigInt 2 [65519; 65535]) (mkBigInt 1 [5]) = Ok q /\
    toZ 16 q = Z.quot (toZ 16 (mkBigInt 2 [65519; 65535]))
                 (toZ 16 (mkBigInt 1 [5])) /\
    (Sign 16 (mkBigInt 2 [65519; 65535]) = false ->
     uval 16 m = toZ 16 (mkBigInt 2 [65519; 65535]) mod toZ 16 (mkBigInt 1 [5])).
Proof.
  apply (PlainDivEq_by_positive_divisor 16 ltac:(lia)).
  - concrete_wf.
  - vm_compute. discriminate.
  - reflexivity.
  - concrete_wf.
  - vm_compute. discriminate.
  - reflexivity.
  - reflexivity.
  - concrete_wf.
  - vm_compute. discriminate.
Defined.

Lemma PlainDivEq_short_negative_divisor_witness :
  exists q m,
    PlainDivEq 16 (mkBigInt 1 [17]) (mkBigInt 1 [65531])
      (Some (mkBigInt 1 [0])) = Ok (q, Some m) /\
    PlainDivEq 16 (mkBigInt 1 [17]) (mkBigInt 1 [65531]) None = Ok (q, None) /\
    toZ 16 q = 0 /\ uval 16 m = toZ 16 (mkBigInt 1 [17]).
Proof.
  apply (PlainDivEq_short_negative_divisor 16 ltac:(lia)).
  - concrete_wf.
  - reflexivity.
  - vm_compute. discriminate.
  - concrete_wf.
  - reflexivity.
  - reflexivity.
  - concrete_wf.
  - vm_compute. discriminate.
Defined.

Lemma DivEqAlgA_two_limb_divisor_out_of_bounds_witness :
  DivEqAlgA 32 31 (mkBigInt 3 [0; 0; 1; 0]) (mkBigInt 2 [1; 1]) None
  = Err OutOfBounds /\
  (21 < 32 ->
   div_eq 32 31 (mkBigInt 3 [0; 0; 1; 0]) (mkBigInt 2 [1; 1]) = Err OutOfBounds).
Proof.
  apply (DivEqAlgA_two_limb_divisor_out_of_bounds 32 ltac:(lia)).
  - concrete_wf.
  - reflexivity.
  - reflexivity.
  - concrete_wf.
  - reflexivity.
  - vm_compute. split; reflexivity.
  - vm_compute. lia.
Defined.

Lemma trial_quotient_fits_a_limb_witness :
  exists q, trial_quotient 32 (2 ^ 32) 0 1 0 = Ok q /\
            0 <= q < 2 ^ 32 /\ q <= 2 ^ 32 / 1.
Proof.
  apply (trial_quotient_fits_a_limb 32 ltac:(lia)); lia.
Defined.

Lemma div_eq_ignores_sign_of_one_limb_divisor_witness :
  exists q,
    div_eq 16 0 (mkBigInt 5 [0; 0; 0; 0; 1]) (mkBigInt 1 [65531]) = Ok q /\
    toZ 16 q = Z.quot (toZ 16 (mkBigInt 5 [0; 0; 0; 0; 1]))
                 (toZ 16 (mkBigInt 1 [65531]) + 2 ^ 16).
Proof.
  apply (div_eq_ignores_sign_of_one_limb_divisor 16 ltac:(lia)).
  - concrete_wf.
  - vm_compute. split; reflexivity.
  - concrete_wf.
  - reflexivity.
  - reflexivity.
  - intros (e & He & H).
    change (toZ 16 (mkBigInt 1 [65531]) + 2 ^ 16) with 65531 in H.
    destruct (Z.lt_ge_cases e 16).
    + assert (2 ^ e <= 2 ^ 15) by (apply Z.pow_le_mono_r; lia).
      change (2 ^ 15) with 32768 in *. lia.
    + assert (2 ^ 16 <= 2 ^ e) by (apply Z.pow_le_mono_r; lia).
      change (2 ^ 16) with 65536 in *. lia.
Defined.
